(** * SocialNetwork.py: a shallow embedding of the simulation engine

    The development follows [src/SocialNetwork.py].  Python objects are
    modelled as follows.

    - The [_properties] dictionary is a finite map from key names to
      dynamically typed values ([value]); a missing key raises [KeyError],
      a value of the wrong kind raises [TypeError] or [ValueError].
    - numpy arrays are nested lists indexed the numpy way: an index [i] with
      [-len <= i < 0] denotes [len + i], anything outside [-len .. len-1]
      raises [IndexError].
    - Floating point numbers are rationals ([Q]); rounding is not modelled.
      A division whose divisor is zero yields numpy's [inf] / [nan], which
      only the normalized weight matrix can hold ([float64]).
    - The networkx graph is a node list and an edge list, both in insertion
      order, so that neighbour enumeration has the order of the adjacency
      dictionaries.
    - The shared pseudo-random generator is the sequence of the numbers it
      will return and a cursor into it.
    - Methods are computations in a state-and-exception monad over the
      object and the generator: an exception keeps the mutations made
      before it was raised.  Console output is not part of the state. *)

From Stdlib Require Import ZArith QArith Qabs Qround Lqa Ascii String.
From stdpp Require Import base tactics option list strings gmap pretty.

Local Open Scope Z_scope.
Local Open Scope string_scope.

(** ** Exceptions and the execution monad *)

Inductive exn :=
| IndexError
| KeyError
| AttributeError
| TypeError
| ValueError
| NetworkXError
| UnboundLocalError
| Unmodelled.   (* not a Python exception: the run leaves the modelled fragment *)

Inductive outcome (St A : Type) :=
| Returns (a : A) (s : St)
| Raises (e : exn) (s : St).
Arguments Returns {St A} a s.
Arguments Raises {St A} e s.

Definition final {St A} (o : outcome St A) : St :=
  match o with Returns _ s => s | Raises _ s => s end.

Definition Exec (St A : Type) : Type := St -> outcome St A.

Definition ret {St A} (a : A) : Exec St A := fun s => Returns a s.

Definition bind {St A B} (c : Exec St A) (k : A -> Exec St B) : Exec St B :=
  fun s => match c s with
           | Returns a s' => k a s'
           | Raises e s' => Raises e s'
           end.

Definition raise {St A} (e : exn) : Exec St A := fun s => Raises e s.

Definition get {St} : Exec St St := fun s => Returns s s.
Definition put {St} (s : St) : Exec St unit := fun _ => Returns tt s.

(** [try: c except: pass] *)
Definition try_pass {St} (c : Exec St unit) : Exec St unit :=
  fun s => match c s with
           | Returns _ s' => Returns tt s'
           | Raises _ s' => Returns tt s'
           end.

(** An optional result, with the exception raised when it is missing. *)
Definition orraise {St A} (e : exn) (o : option A) : Exec St A :=
  match o with Some a => ret a | None => raise e end.

Declare Scope py_scope.
Delimit Scope py_scope with py.
Notation "x <- c ;; k" := (bind c (fun x => k))
  (at level 100, c at next level, right associativity) : py_scope.
Notation "c ;;; k" := (bind c (fun _ => k))
  (at level 100, right associativity) : py_scope.
Local Open Scope py_scope.

(** [for x in l: body x] *)
Fixpoint for_ {St A} (l : list A) (body : A -> Exec St unit) : Exec St unit :=
  match l with
  | [] => ret tt
  | x :: l' => body x ;;; for_ l' body
  end.

(** A [for] loop whose body may [break]: the body returns [true] to leave. *)
Fixpoint for_break {St A} (l : list A) (body : A -> Exec St bool) : Exec St unit :=
  match l with
  | [] => ret tt
  | x :: l' => b <- body x ;; if (b : bool) then ret tt else for_break l' body
  end.

(** A [for] loop that threads a local variable. *)
Fixpoint for_acc {St A B} (l : list A) (acc : B) (body : B -> A -> Exec St B)
  : Exec St B :=
  match l with
  | [] => ret acc
  | x :: l' => acc' <- body acc x ;; for_acc l' acc' body
  end.

(** [range(n)] *)
Definition range (n : Z) : list Z := Z.of_nat <$> seq 0 (Z.to_nat n).

(** ** Numbers *)

Definition Qltb (a b : Q) : bool := negb (Qle_bool b a).
Definition Qeqb (a b : Q) : bool := Qeq_bool a b.

#[global] Instance Q_eq_dec : EqDecision Q.
Proof. solve_decision. Defined.

(** [int(x)] on a float: truncation toward zero. *)
Definition int_of_float (q : Q) : Z := Z.quot (Qnum q) (Zpos (Qden q)).

(** The result of a numpy division, which may have a zero divisor. *)
Inductive float64 :=
| Finite (q : Q)
| Infinity (negative : bool)
| NotANumber.

Definition np_divide (a b : Q) : float64 :=
  if Qeqb b 0 then
    if Qeqb a 0 then NotANumber else Infinity (Qltb a 0)
  else Finite (a / b).

(** ** numpy indexing *)

Definition np_index (len : nat) (i : Z) : option nat :=
  if decide (0 <= i < Z.of_nat len) then Some (Z.to_nat i)
  else if decide (- Z.of_nat len <= i < 0) then Some (Z.to_nat (i + Z.of_nat len))
  else None.

Definition item {A} (l : list A) (i : Z) : option A :=
  j ← np_index (length l) i; l !! j.

Definition setitem {A} (l : list A) (i : Z) (x : A) : option (list A) :=
  j ← np_index (length l) i; Some (<[j := x]> l).

Definition item2 {A} (m : list (list A)) (i j : Z) : option A :=
  row ← item m i; item row j.

Definition setitem2 {A} (m : list (list A)) (i j : Z) (x : A)
  : option (list (list A)) :=
  row ← item m i; row' ← setitem row j x; setitem m i row'.

Definition item3 {A} (t : list (list (list A))) (i j k : Z) : option A :=
  m ← item t i; item2 m j k.

Definition setitem3 {A} (t : list (list (list A))) (i j k : Z) (x : A)
  : option (list (list (list A))) :=
  m ← item t i; m' ← setitem2 m j k x; setitem t i m'.

(** [np.zeros] of one, two and three dimensions; a negative dimension is a
    [ValueError]. *)
Definition zeros1 (n : Z) : option (list Q) :=
  if decide (n < 0) then None else Some (replicate (Z.to_nat n) 0%Q).

Definition zeros2 (n m : Z) : option (list (list Q)) :=
  if decide (n < 0 \/ m < 0) then None
  else Some (replicate (Z.to_nat n) (replicate (Z.to_nat m) 0%Q)).

Definition zeros3 (n m k : Z) : option (list (list (list Q))) :=
  if decide (n < 0 \/ m < 0 \/ k < 0) then None
  else Some (replicate (Z.to_nat n)
               (replicate (Z.to_nat m) (replicate (Z.to_nat k) 0%Q))).

(** [m.sum(axis=0)]: the sums of the columns. *)
Definition Qsum (l : list Q) : Q := foldr Qplus 0%Q l.

Definition column {A} (m : list (list A)) (j : nat) : list A :=
  omap (fun row => row !! j) m.

Definition sum_axis0 (m : list (list Q)) : list Q :=
  match m with
  | [] => []
  | row :: _ => (fun j => Qsum (column m j)) <$> seq 0 (length row)
  end.

(** ** Python values held by the properties dictionary *)

#[warnings="-register-all"]
Inductive value :=
| Int (z : Z)
| Float (q : Q)
| Bool (b : bool)
| Str (s : string)
| StrList (l : list string)
| IntList (l : list Z)
| Array1 (v : list Q)
| Array2 (m : list (list Q))
| Array2N (m : list (list float64))
| Array3 (t : list (list (list Q)))
| Dict (d : list (string * value)).

(** A Python dictionary with string keys, in insertion order. *)
Fixpoint dict_get {A} (d : list (string * A)) (k : string) : option A :=
  match d with
  | [] => None
  | (k', v) :: d' => if String.eqb k' k then Some v else dict_get d' k
  end.

Fixpoint dict_set {A} (d : list (string * A)) (k : string) (v : A)
  : list (string * A) :=
  match d with
  | [] => [(k, v)]
  | (k', v') :: d' =>
      if String.eqb k' k then (k', v) :: d' else (k', v') :: dict_set d' k v
  end.

Definition dict_keys {A} (d : list (string * A)) : list string := fst <$> d.

(** ** The networkx graph *)

Record graph := mkGraph {
  is_directed : bool;          (* nx.DiGraph() or nx.Graph() *)
  nodes : list Z;              (* in insertion order *)
  edges : list (Z * Z)         (* in insertion order *)
}.

Module nx.

Definition Graph : graph := mkGraph false [] [].
Definition DiGraph : graph := mkGraph true [] [].

Definition same_edge (directed : bool) (u v : Z) (e : Z * Z) : bool :=
  (Z.eqb (fst e) u && Z.eqb (snd e) v)
  || (negb directed && Z.eqb (fst e) v && Z.eqb (snd e) u).

Definition has_node (g : graph) (u : Z) : bool :=
  existsb (Z.eqb u) (nodes g).

Definition has_edge (g : graph) (u v : Z) : bool :=
  existsb (same_edge (is_directed g) u v) (edges g).

Definition add_node (g : graph) (u : Z) : graph :=
  if has_node g u then g
  else mkGraph (is_directed g) (nodes g ++ [u]) (edges g).

Definition add_nodes_from (g : graph) (l : list Z) : graph :=
  foldl add_node g l.

(** [add_edge] creates missing endpoints; an edge already present keeps
    its place. *)
Definition add_edge (g : graph) (u v : Z) : graph :=
  let g' := add_node (add_node g u) v in
  if has_edge g' u v then g'
  else mkGraph (is_directed g') (nodes g') (edges g' ++ [(u, v)]).

(** [remove_edge] raises [NetworkXError] when the edge is absent. *)
Definition remove_edge (g : graph) (u v : Z) : option graph :=
  if has_edge g u v then
    Some (mkGraph (is_directed g) (nodes g)
            (filter (fun e => same_edge (is_directed g) u v e = false) (edges g)))
  else None.

(** The keys of [adj[u]]: successors in a directed graph, adjacent nodes
    in an undirected one. *)
Definition adjacent (g : graph) (u : Z) : list Z :=
  omap (fun e : Z * Z =>
          if Z.eqb (fst e) u then Some (snd e)
          else if negb (is_directed g) && Z.eqb (snd e) u then Some (fst e)
          else None) (edges g).

Definition neighbors (g : graph) (u : Z) : option (list Z) :=
  if has_node g u then Some (adjacent g u) else None.

(** [predecessors] exists on directed graphs only. *)
Definition predecessors (g : graph) (u : Z) : exn + list Z :=
  if is_directed g then
    if has_node g u then
      inr (omap (fun e : Z * Z =>
                   if Z.eqb (snd e) u then Some (fst e) else None) (edges g))
    else inl NetworkXError
  else inl AttributeError.

(** [g.edges()]: every edge once, by node and then by adjacency order. *)
Fixpoint edges_from (g : graph) (todo seen : list Z) : list (Z * Z) :=
  match todo with
  | [] => []
  | u :: todo' =>
      ((fun v => (u, v)) <$>
         filter (fun v => existsb (Z.eqb v) seen = false) (adjacent g u))
        ++ edges_from g todo' (if is_directed g then seen else u :: seen)
  end.

Definition edges (g : graph) : list (Z * Z) :=
  edges_from g (nodes g) [].

(** The deterministic generators of networkx. *)
Definition complete_graph (n : Z) : graph :=
  foldl (fun g u => foldl (fun g v => add_edge g u v)
                      g (filter (fun v => u < v) (range n)))
    (add_nodes_from Graph (range n)) (range n).

Definition cycle_graph (n : Z) : graph :=
  foldl (fun g u => add_edge g u (if decide (u + 1 < n) then u + 1 else 0))
    (add_nodes_from Graph (range n)) (range n).

(** [star_graph(n)] has the centre 0 and the [n] leaves 1..n. *)
Definition star_graph (n : Z) : graph :=
  foldl (fun g v => add_edge g 0 v)
    (add_nodes_from Graph (range (n + 1))) (filter (fun v => 0 < v) (range (n + 1))).

End nx.

(** ** The object, the generator and their accessors *)

(** The module-level generator [rnd], as the answers it will give, one to
    each request made of it, and the number of requests it has answered.
    An answer is a number [r]: [rnd.random()] returns [r] itself, and a
    request for a position among [len] ([rnd.choice], [rnd.shuffle])
    returns the position [int( r * len )].  A stream of answers stands for
    one run of the generator; how much of its internal state a request
    consumes, which differs between [random()] and the others, is not
    modelled, and properties are stated for every stream. *)
Record Random := mkRandom {
  draws : nat -> Q;
  cursor : nat
}.

(** An XML document as [_save] writes it: the attributes of the root
    element and those of its [Node] children. *)
Record Element := mkElement {
  attrib : list (string * string);
  children : list (list (string * string))
}.

Record World := mkWorld {
  _properties : gmap string value;
  _graph : option graph;             (* [None] until a graph is created *)
  rnd : Random;
  files : gmap string Element        (* the XML files of the working directory *)
}.

Definition Py (A : Type) : Type := Exec World A.

(** [self._properties[k]] *)
Definition prop (k : string) : Py value :=
  fun w => match _properties w !! k with
           | Some v => Returns v w
           | None => Raises KeyError w
           end.

(** [self._properties[k] = v] *)
Definition set_prop (k : string) (v : value) : Py unit :=
  fun w => Returns tt (mkWorld (<[k := v]> (_properties w)) (_graph w) (rnd w) (files w)).

(** [k in self._properties] *)
Definition has_prop (k : string) : Py bool :=
  fun w => Returns (bool_decide (is_Some (_properties w !! k))) w.

(** [self._graph], on which every method call needs an actual graph. *)
Definition the_graph : Py graph :=
  fun w => match _graph w with
           | Some g => Returns g w
           | None => Raises AttributeError w
           end.

Definition set_graph (g : graph) : Py unit :=
  fun w => Returns tt (mkWorld (_properties w) (Some g) (rnd w) (files w)).

(** [rnd.random()] *)
Definition random : Py Q :=
  fun w => let r := rnd w in
           Returns (draws r (cursor r))
             (mkWorld (_properties w) (_graph w) (mkRandom (draws r) (S (cursor r)))
                (files w)).

(** [rnd.choice(seq)]: the element at the position that the generator
    answers with. *)
Definition choice {A} (l : list A) : Py A :=
  r <- random ;;
  orraise IndexError (l !! Z.to_nat (int_of_float (r * inject_Z (Z.of_nat (length l))))).

(** Dynamic typing: the views of a value that the code relies on. *)
Definition as_int (v : value) : Py Z :=
  match v with
  | Int z => ret z
  | Bool b => ret (Z.b2z b)
  | _ => raise TypeError
  end.

Definition as_number (v : value) : Py Q :=
  match v with
  | Float q => ret q
  | Int z => ret (inject_Z z)
  | Bool b => ret (inject_Z (Z.b2z b))
  | _ => raise TypeError
  end.

Definition as_strlist (v : value) : Py (list string) :=
  match v with StrList l => ret l | _ => raise TypeError end.

Definition as_array1 (v : value) : Py (list Q) :=
  match v with Array1 a => ret a | _ => raise TypeError end.

Definition as_array2 (v : value) : Py (list (list Q)) :=
  match v with Array2 a => ret a | _ => raise TypeError end.

Definition as_array2n (v : value) : Py (list (list float64)) :=
  match v with Array2N a => ret a | _ => raise TypeError end.

Definition as_array3 (v : value) : Py (list (list (list Q))) :=
  match v with Array3 a => ret a | _ => raise TypeError end.

(** Truth value of an object in a condition; numpy arrays with more than one
    element refuse to be one. *)
Definition truth (v : value) : Py bool :=
  match v with
  | Int z => ret (negb (Z.eqb z 0))
  | Float q => ret (negb (Qeqb q 0))
  | Bool b => ret b
  | Str s => ret (negb (String.eqb s ""))
  | StrList l => ret (negb (bool_decide (l = [])))
  | IntList l => ret (negb (bool_decide (l = [])))
  | Dict d => ret (match d with [] => false | _ => true end)
  | Array1 [x] => ret (negb (Qeqb x 0))
  | Array2 [[x]] => ret (negb (Qeqb x 0))
  | Array3 [[[x]]] => ret (negb (Qeqb x 0))
  | _ => raise ValueError
  end.

(** [v == s] for a string literal [s] *)
Definition is_str (v : value) (s : string) : bool :=
  match v with Str s' => String.eqb s' s | _ => false end.

(** [v in l] for a list [l] of string literals *)
Definition in_strings (v : value) (l : list string) : bool :=
  match v with Str s => bool_decide (s ∈ l) | _ => false end.

(** The arrays of the object, read and written by key. *)
Definition weights : Py (list (list Q)) := v <- prop "weights" ;; as_array2 v.
Definition normalized_weights : Py (list (list float64)) :=
  v <- prop "normalized_weights" ;; as_array2n v.
Definition attribute_space : Py (list (list Q)) :=
  v <- prop "attribute_space" ;; as_array2 v.
Definition masks : Py (list (list (list Q))) := v <- prop "masks" ;; as_array3 v.
Definition types : Py (list string) := v <- prop "types" ;; as_strlist v.
Definition resistance : Py (list Q) := v <- prop "resistance" ;; as_array1 v.

(** [self._properties['weights'][i][j]] and its assignment *)
Definition weights_get (i j : Z) : Py Q :=
  W <- weights ;; orraise IndexError (item2 W i j).

Definition weights_set (i j : Z) (x : Q) : Py unit :=
  W <- weights ;;
  W' <- orraise IndexError (setitem2 W i j x) ;;
  set_prop "weights" (Array2 W').

Definition normalized_weights_set (i j : Z) (x : float64) : Py unit :=
  N <- normalized_weights ;;
  N' <- orraise IndexError (setitem2 N i j x) ;;
  set_prop "normalized_weights" (Array2N N').

Definition attribute_get (i k : Z) : Py Q :=
  A <- attribute_space ;; orraise IndexError (item2 A i k).

Definition masks_set (i j k : Z) (x : Q) : Py unit :=
  M <- masks ;;
  M' <- orraise IndexError (setitem3 M i j k x) ;;
  set_prop "masks" (Array3 M').

(** [self._log( msg )] prints and changes nothing. *)
Definition _log : Py unit := ret tt.

(** ** Strings: formatting and parsing *)

(** [s[:-1]] *)
Fixpoint chop (s : string) : string :=
  match s with
  | "" => ""
  | String c "" => ""
  | String c s' => String c (chop s')
  end.

(** [s.split(sep)] for a separator of one character *)
Fixpoint split (sep : ascii) (s : string) : list string :=
  match s with
  | "" => [""]
  | String c s' =>
      let r := split sep s' in
      if Ascii.eqb c sep then "" :: r
      else match r with
           | h :: t => String c h :: t
           | [] => [String c ""]
           end
  end.

Definition digit_of (c : ascii) : option N :=
  let n := N_of_ascii c in
  if decide (48 <= n <= 57)%N then Some (n - 48)%N else None.

Fixpoint digits_value (s : string) (acc : N) : option N :=
  match s with
  | "" => Some acc
  | String c s' => d ← digit_of c; digits_value s' (acc * 10 + d)%N
  end.

Definition has_digit (s : string) : bool :=
  existsb (fun c => bool_decide (is_Some (digit_of c))) (list_ascii_of_string s).

Fixpoint is_infix (p s : string) : bool :=
  String.prefix p s || match s with "" => false | String _ s' => is_infix p s' end.

Definition lower (s : string) : string :=
  string_of_list_ascii
    ((fun c => let n := N_of_ascii c in
               if decide (65 <= n <= 90)%N then ascii_of_N (n + 32) else c)
       <$> list_ascii_of_string s).

(** The result of reading a number: a value, a string Python rejects with
    [ValueError], or a string outside the syntax modelled here. *)
Inductive parsed (A : Type) :=
| Parsed (a : A)
| Invalid
| NotCovered.
Arguments Parsed {A} a.
Arguments Invalid {A}.
Arguments NotCovered {A}.

Definition unsigned (s : string) : bool * string :=
  match s with
  | String "-" s' => (true, s')
  | String "+" s' => (false, s')
  | _ => (false, s)
  end.

(** [int(s)]: an optional sign and decimal digits.  Blanks and underscores,
    which Python also accepts, are not covered; a string without any digit
    is invalid. *)
Definition int_of_string (s : string) : parsed Z :=
  let '(neg, body) := unsigned s in
  match body, digits_value body 0 with
  | String _ _, Some n => Parsed (if neg then - Z.of_N n else Z.of_N n)
  | _, _ => if has_digit s then NotCovered else Invalid
  end.

(** [float(s)]: an optional sign, digits, and an optional point followed by
    digits.  Exponents, [inf], [nan], blanks and underscores are not covered;
    a string with no digit that spells neither [inf] nor [nan] is invalid. *)
Definition float_of_string (s : string) : parsed Q :=
  let '(neg, body) := unsigned s in
  let fallback : parsed Q :=
    if has_digit s || is_infix "inf" (lower s) || is_infix "nan" (lower s)
    then NotCovered else Invalid in
  let number (ip fp : string) :=
    match digits_value ip 0, digits_value fp 0 with
    | Some i, Some f =>
        if bool_decide (ip = "" /\ fp = "") then fallback
        else
          let q := (inject_Z (Z.of_N i)
                    + (Z.of_N f # Pos.of_nat (Nat.pow 10 (String.length fp))))%Q in
          Parsed (Qred (if neg then - q else q))
    | _, _ => fallback
    end in
  match split "." body with
  | [ip] => number ip ""
  | [ip; fp] => number ip fp
  | _ => fallback
  end.

(** [repr] of a float, which ['%s'] and [str] use: the shortest decimal that
    reads back.  Covered: numbers with a terminating expansion of at most 15
    significant digits that Python prints without an exponent. *)
Fixpoint decimal_places (fuel : nat) (a : Z) (b : positive) (k : nat) : option nat :=
  if Z.eqb ((a * 10 ^ Z.of_nat k) mod Zpos b) 0 then Some k
  else match fuel with
       | O => None
       | S fuel' => decimal_places fuel' a b (S k)
       end.

Definition pad_zeros (len : nat) (s : string) : string :=
  string_of_list_ascii (replicate (len - String.length s) "0"%char) +:+ s.

Definition float_repr (q : Q) : option string :=
  let q' := Qred q in
  let a := Qnum q' in
  let b := Qden q' in
  k ← decimal_places 19 a b 0;
  let m := Z.abs a * 10 ^ Z.of_nat k / Zpos b in
  let ds := pretty m in
  let sign := if decide (a < 0) then "-" else "" in
  if decide (Z.abs a * 10000 < Zpos b /\ a <> 0) then None
  else if decide (10 ^ 16 * Zpos b <= Z.abs a) then None
  else match k with
       | O => Some (sign +:+ ds +:+ ".0")
       | S _ =>
           if decide (15 < String.length ds)%nat then None
           else
             let ds' := pad_zeros (S k) ds in
             let cut := (String.length ds' - k)%nat in
             Some (sign +:+ String.substring 0 cut ds' +:+ "."
                   +:+ String.substring cut k ds')
       end.

(** [int(temp, 2)] for a non-empty string [temp] of binary digits, most
    significant first ([encode_mask] reaches it only with the marks of a
    row that has a nonzero entry; on the empty string Python raises), and
    the digits of [bin(z)[2:]] for [z >= 0]. *)
Fixpoint int_base2 (bits : list bool) (acc : Z) : Z :=
  match bits with
  | [] => acc
  | b :: bits' => int_base2 bits' (2 * acc + Z.b2z b)
  end.

Fixpoint bin_digits_pos (p : positive) (acc : list Z) : list Z :=
  match p with
  | xH => 1 :: acc
  | xO p' => bin_digits_pos p' (0 :: acc)
  | xI p' => bin_digits_pos p' (1 :: acc)
  end.

Definition bin_digits (z : Z) : option (list Z) :=
  match z with
  | Z0 => Some [0]
  | Zpos p => Some (bin_digits_pos p [])
  | Zneg _ => None
  end.

(** What a float array stores when a value is assigned to one of its cells. *)
Definition to_float (v : value) : Py Q :=
  match v with
  | Float q => ret q
  | Int z => ret (inject_Z z)
  | Bool b => ret (inject_Z (Z.b2z b))
  | Str s => match float_of_string s with
             | Parsed q => ret q
             | Invalid => raise ValueError
             | NotCovered => raise Unmodelled
             end
  | Dict _ => raise TypeError
  | _ => raise Unmodelled
  end.

(** ** The weight model *)

(** [get_neighbors( u )]: the nodes that influence [u]. *)
Definition get_neighbors (u : Z) : Py (list Z) :=
  d <- prop "directed" ;;
  directed <- truth d ;;
  g <- the_graph ;;
  if negb directed then orraise NetworkXError (nx.neighbors g u)
  else match nx.predecessors g u with
       | inr l => ret l
       | inl e => raise e
       end.

(** [weights.sum(axis=0)[u]]: the total amount of influence [u] receives. *)
Definition total_influence (W : list (list Q)) (u : Z) : option Q :=
  item (sum_axis0 W) u.

(** [update_weight_column( u )] *)
Definition update_weight_column (u : Z) : Py unit :=
  nv <- prop "n" ;;
  n <- as_int nv ;;
  for_ (range n) (fun v => normalized_weights_set v u (Finite 0)) ;;;
  W <- weights ;;
  total <- orraise IndexError (total_influence W u) ;;
  nbrs <- get_neighbors u ;;
  for_ nbrs (fun v =>
    w <- weights_get v u ;;
    normalized_weights_set v u (np_divide w total)) ;;;
  normalized_weights_set u u (np_divide 1 total).

(** Addition of numpy floats, for the sanity check that ends
    [initialize_edge_weights]. *)
Definition float64_add (a b : float64) : float64 :=
  match a, b with
  | Finite x, Finite y => Finite (x + y)
  | NotANumber, _ | _, NotANumber => NotANumber
  | Infinity s, Finite _ | Finite _, Infinity s => Infinity s
  | Infinity s, Infinity s' => if Bool.eqb s s' then Infinity s else NotANumber
  end.

Definition appears_corrupted (N : list (list float64)) (n : Q) : bool :=
  match foldr float64_add (Finite 0) (concat N) with
  | Finite t => Qltb (1 # 100000) (Qabs (t - n))
  | Infinity _ => true
  | NotANumber => false
  end.

(** [initialize_edge_weights()] *)
Definition initialize_edge_weights : Py unit :=
  nv <- prop "n" ;;
  n <- as_int nv ;;
  W0 <- orraise ValueError (zeros2 n n) ;;
  set_prop "weights" (Array2 W0) ;;;
  set_prop "normalized_weights" (Array2N (fmap (M := list) Finite <$> W0)) ;;;
  g <- the_graph ;;
  for_ (nodes g) (fun u =>
    nbrs <- get_neighbors u ;;
    for_ nbrs (fun v =>
      w <- weights_get v u ;;
      if Qltb 0 w then ret tt      (* continue *)
      else
        wv <- prop "weight" ;;
        (if is_str wv "random" then
           r <- random ;; weights_set v u r
         else
           wv' <- prop "weight" ;;
           x <- to_float wv' ;;
           weights_set v u x) ;;;
        d <- prop "directed" ;;
        directed <- truth d ;;
        if negb directed then
          w' <- weights_get v u ;; weights_set u v w'
        else ret tt) ;;;
    weights_set u u 1 ;;;
    update_weight_column u) ;;;
  N <- normalized_weights ;;
  nv' <- prop "n" ;;
  nq <- as_number nv' ;;
  if appears_corrupted N nq then _log else ret tt.

(** ** The attribute space and the mask model *)

(** [initialize_attribute_space()] *)
Definition initialize_attribute_space : Py unit :=
  kv <- prop "dimensions" ;;
  k <- as_int kv ;;
  nv <- prop "n" ;;
  n <- as_int nv ;;
  matrix <- for_acc (range n) [] (fun rows _ =>
              row <- for_acc (range k) [] (fun row _ =>
                       x <- choice [(-1)%Q; 1%Q] ;; ret (row ++ [x])%list) ;;
              ret (rows ++ [row])%list) ;;
  set_prop "attribute_space" (Array2 matrix) ;;;
  _log.

(** [initialize_correlations()] *)
Definition identity (k : Z) : list (list Q) :=
  (fun i => (fun j => if Z.eqb i j then 1%Q else 0%Q) <$> range k) <$> range k.

Definition initialize_correlations : Py unit :=
  kv <- prop "dimensions" ;;
  k <- as_int kv ;;
  if decide (k < 0) then raise ValueError
  else set_prop "correlations" (Array2 (identity k)).

(** [initialize_masks()] *)
Definition initialize_masks : Py unit :=
  nv <- prop "n" ;;
  kv <- prop "dimensions" ;;
  vis <- prop "visibility" ;;
  n <- as_int nv ;;
  K <- as_int kv ;;
  M0 <- orraise ValueError (zeros3 n n K) ;;
  set_prop "masks" (Array3 M0) ;;;
  for_ (range n) (fun i =>
    for_ (range K) (fun k =>
      x <- attribute_get i k ;; masks_set i i k x) ;;;
    nbrs <- get_neighbors i ;;
    for_ nbrs (fun j =>
      if is_str vis "random" then
        for_ (range K) (fun k =>
          x <- attribute_get i k ;;
          y <- choice [0%Q; x] ;;
          masks_set j i k y)
      else if is_str vis "visible" then
        for_ (range K) (fun k =>
          x <- attribute_get i k ;; masks_set j i k x)
      else ret tt)) ;;;
  _log.

(** ** Archetypes and resistance *)

Definition as_dict (v : value) : Py (list (string * value)) :=
  match v with Dict d => ret d | _ => raise Unmodelled end.

Definition as_intlist (v : value) : Py (list Z) :=
  match v with IntList l => ret l | _ => raise TypeError end.

(** [x[i], x[j] = x[j], x[i]] *)
Definition swap {A} (l : list A) (i j : nat) : list A :=
  match l !! i, l !! j with
  | Some a, Some b => <[j := a]> (<[i := b]> l)
  | _, _ => l
  end.

(** [rnd.shuffle(x)]: for [i] from the last position down to 1, exchange
    positions [i] and a position among [0..i] that the generator answers
    with. *)
Definition shuffle {A} (l : list A) : Py (list A) :=
  for_acc (reverse (seq 1 (length l - 1))) l (fun l i =>
    r <- random ;;
    let j := Z.to_nat (int_of_float (r * inject_Z (Z.of_nat (S i)))) in
    ret (swap l i j)).

(** [mix_network()] *)
Definition mix_network : Py unit :=
  nv <- prop "n" ;;
  set_prop "types" (StrList []) ;;;
  set_prop "indexes_by_type" (Dict []) ;;;
  has <- has_prop "type_dist" ;;
  if negb has then
    set_prop "type_dist" (Dict [("default", Float 1)])
  else
    dv <- prop "type_dist" ;;
    d <- as_dict dv ;;
    props <- for_acc (dict_keys d) [] (fun acc key =>
               v <- orraise KeyError (dict_get d key) ;;
               x <- as_number v ;; ret (acc ++ [x])%list) ;;
    if Qltb (1 # 1000000) (Qabs (Qsum props - 1)) then ret tt
    else
      n <- as_number nv ;;
      counted <-
        for_acc (dict_keys d) ([], 99999999, "") (fun '(nums, min_num, min_t) t =>
          iv <- prop "indexes_by_type" ;;
          idx <- as_dict iv ;;
          set_prop "indexes_by_type" (Dict (dict_set idx t (IntList []))) ;;;
          v <- orraise KeyError (dict_get d t) ;;
          x <- as_number v ;;
          let num := int_of_float (x * n) in
          let nums := dict_set nums t num in
          let '(min_num, min_t) :=
            if decide (num <= min_num) then (num, t) else (min_num, min_t) in
          for_ (range num) (fun _ =>
            ts <- types ;; set_prop "types" (StrList (ts ++ [t])%list)) ;;;
          ret (nums, min_num, min_t)) ;;
      let '(nums, _, min_t) := counted in
      ts <- types ;;
      let missing := Z.to_nat (Qceiling (n - inject_Z (Z.of_nat (length ts)))) in
      nums' <- for_acc (seq 0 missing) nums (fun nums _ =>
                 c <- orraise KeyError (dict_get nums min_t) ;;
                 ts <- types ;;
                 set_prop "types" (StrList (ts ++ [min_t])%list) ;;;
                 ret (dict_set nums min_t (c + 1))) ;;
      ts <- types ;;
      ts' <- shuffle ts ;;
      set_prop "types" (StrList ts') ;;;
      for_ (range (Z.of_nat (length ts'))) (fun i =>
        t <- orraise IndexError (item ts' i) ;;
        iv <- prop "indexes_by_type" ;;
        idx <- as_dict iv ;;
        lv <- orraise KeyError (dict_get idx t) ;;
        l <- as_intlist lv ;;
        set_prop "indexes_by_type" (Dict (dict_set idx t (IntList (l ++ [i])%list)))).

Definition resistance_set (i : Z) (x : Q) : Py unit :=
  R <- resistance ;;
  R' <- orraise IndexError (setitem R i x) ;;
  set_prop "resistance" (Array1 R').

(** [initialize_resistance()] *)
Definition initialize_resistance : Py unit :=
  nv <- prop "n" ;;
  n <- as_int nv ;;
  R0 <- orraise ValueError (zeros1 n) ;;
  set_prop "resistance" (Array1 R0) ;;;
  myparam <- prop "resistance_param" ;;
  (match myparam with
   | Dict d =>
       for_ (dict_keys d) (fun key =>
         tv <- prop "type_dist" ;;
         td <- as_dict tv ;;
         if bool_decide (key ∈ dict_keys td) then
           iv <- prop "indexes_by_type" ;;
           idx <- as_dict iv ;;
           lv <- orraise KeyError (dict_get idx key) ;;
           idxs <- as_intlist lv ;;
           for_break idxs (fun i =>
             pv <- orraise KeyError (dict_get d key) ;;
             (if is_str pv "random" then
                r <- random ;; resistance_set i r
              else ret tt) ;;;
             match pv with
             | Float q =>
                 if Qltb q 0 || Qltb 1 q then ret true     (* break *)
                 else resistance_set i q ;;; ret false
             | _ => ret false
             end)
         else ret tt)
   | Float q => for_ (range n) (fun i => resistance_set i q)
   | Str s =>
       if String.eqb s "random" then
         for_ (range n) (fun i => r <- random ;; resistance_set i r)
       else ret tt
   | _ => ret tt
   end).

(** ** Rewards *)

(** [get_local_average( u )], the arithmetic mean that [step] uses
    ([weighted=False]). *)
Definition get_local_average (u : Z) : Py (list Q) :=
  nbrs <- get_neighbors u ;;
  let num_nbrs := Z.of_nat (length nbrs) in
  M <- masks ;;
  Mu <- orraise IndexError (item M u) ;;
  ret ((fun x => x / inject_Z (num_nbrs + 1))%Q <$> sum_axis0 Mu).

(** [scipy.spatial.distance.hamming]: the proportion of disagreeing
    positions of two vectors of one length. *)
Definition hamming (a b : list Q) : option Q :=
  if decide (length a = length b) then
    Some (inject_Z (Z.of_nat (length (filter (fun p => Qeqb (fst p) (snd p) = false)
                                             (zip a b))))
          / inject_Z (Z.of_nat (length a)))%Q
  else None.

(** [get_reward_for_neighbor( u, v )]; the result [None] is Python's. *)
Definition get_reward_for_neighbor (u v : Z) : Py (option Q) :=
  A <- attribute_space ;;
  vec1 <- orraise IndexError (item A u) ;;
  M <- masks ;;
  vec2 <- orraise IndexError (item2 M u v) ;;
  distvec1 <- for_acc (range (Z.of_nat (length vec1))) [] (fun acc i =>
                m <- orraise IndexError (item vec2 i) ;;
                if negb (Qeqb m 0) then
                  x <- orraise IndexError (item vec1 i) ;; ret (acc ++ [x])%list
                else ret acc) ;;
  match distvec1 with
  | [] => ret (Some 0%Q)
  | _ =>
      let distvec2 := filter (fun m => Qeqb m 0 = false) vec2 in
      dist <- orraise ValueError (hamming distvec1 distvec2) ;;
      ts <- types ;;
      t1 <- orraise IndexError (item ts u) ;;
      if bool_decide (t1 ∈ ["R"; "DA"]) then ret (Some (1 - dist)%Q)
      else
        t2 <- orraise IndexError (item ts u) ;;
        if bool_decide (t2 ∈ ["E"; "RWC"]) then ret (Some dist)
        else
          t3 <- orraise IndexError (item ts u) ;;
          if bool_decide (t3 ∈ ["SC"; "SR"])
          then ret (Some (1 - Qabs (dist - (1 # 2)) * 2)%Q)
          else ret None
  end.

(** [statistics.mean] of a non-empty list *)
Definition mean (l : list Q) : Q := (Qsum l / inject_Z (Z.of_nat (length l)))%Q.

(** [get_reward_for_node( u )] *)
Definition get_reward_for_node (u : Z) : Py Q :=
  nbrs <- get_neighbors u ;;
  rewards <- for_acc nbrs [] (fun acc v =>
               r <- get_reward_for_neighbor u v ;; ret (acc ++ [r])%list) ;;
  match rewards with
  | [] => ret 0%Q
  | _ => l <- orraise TypeError (mapM id rewards) ;; ret (mean l)
  end.

(** ** Rewiring and masking operations *)

(** [disconnect( u, v )] *)
Definition disconnect (u v : Z) : Py unit :=
  r <- random ;;
  uf <- prop "unfriend" ;;
  p <- as_number uf ;;
  if Qltb r p then ret tt          (* chance of not deleting the link *)
  else
    try_pass (
      g <- the_graph ;;
      g' <- orraise NetworkXError (nx.remove_edge g u v) ;;
      set_graph g' ;;;
      kv <- prop "dimensions" ;;
      K <- as_int kv ;;
      for_ (range K) (fun k =>
        masks_set v u k 0 ;;;
        masks_set u v k 0)) ;;;
    try_pass (
      sv <- prop "symmetric" ;;
      symmetric <- truth sv ;;
      if symmetric then
        g <- the_graph ;;
        g' <- orraise NetworkXError (nx.remove_edge g v u) ;;
        set_graph g'
      else ret tt) ;;;
    weights_set u v 0 ;;;
    weights_set v u 0 ;;;
    update_weight_column u ;;;
    update_weight_column v.

(** [self._graph.graph['k']]: the attribute dictionary of the graph is never
    written, so the lookup finds nothing. *)
Definition graph_attribute (key : string) : Py Z :=
  g <- the_graph ;; raise KeyError.

(** [connect( u, v )] *)
Definition connect (u v : Z) : Py unit :=
  if Z.eqb u v then ret tt
  else
    (* Add edge to graph structure *)
    g <- the_graph ;;
    set_graph (nx.add_edge g u v) ;;;
    (* Change influence scores *)
    wv <- prop "weight" ;;
    (if is_str wv "random" then
       r <- random ;; weights_set u v r
     else
       wv' <- prop "weight" ;;
       x <- to_float wv' ;;
       weights_set u v x) ;;;
    (* Change masks based on visibility *)
    vis <- prop "visibility" ;;
    (if is_str vis "visible" then
       kv <- prop "dimensions" ;;
       K <- as_int kv ;;
       for_ (range K) (fun k =>
         x <- attribute_get u k ;; masks_set v u k x)
     else
       vis' <- prop "visibility" ;;
       if is_str vis' "random" then
         K <- graph_attribute "k" ;;
         for_ (range K) (fun k =>
           x <- attribute_get u k ;;
           y <- choice [0%Q; x] ;;
           raise AttributeError)         (* [self._masks] does not exist *)
       else ret tt) ;;;
    (* If the graph is symmetric, do the same in the other direction *)
    sv <- prop "symmetric" ;;
    symmetric <- truth sv ;;
    (if symmetric then
       g <- the_graph ;;
       set_graph (nx.add_edge g v u) ;;;
       wv <- prop "weight" ;;
       (if is_str wv "random" then
          r <- random ;; weights_set v u r
        else
          wv' <- prop "weight" ;;
          x <- to_float wv' ;;
          weights_set v u x) ;;;
       vis <- prop "visibility" ;;
       if is_str vis "visible" then
         kv <- prop "dimensions" ;;
         K <- as_int kv ;;
         for_ (range K) (fun k =>
           x <- attribute_get v k ;; masks_set u v k x)
       else
         vis' <- prop "visibility" ;;
         if is_str vis' "random" then
           K <- graph_attribute "k" ;;
           for_ (range K) (fun k =>
             x <- attribute_get v k ;;
             y <- choice [0%Q; x] ;;
             masks_set u v k y)
         else ret tt
     else ret tt) ;;;
    (* Update proportional weights *)
    update_weight_column u ;;;
    update_weight_column v.

(** [reveal( u, v, k )] *)
Definition reveal (u v k : Z) : Py unit := masks_set v u k 1.

(** [hide( u, v, k )] *)
Definition hide (u v k : Z) : Py unit := masks_set v u k 0.

(** ** The simulation step *)

Definition attribute_set (i k : Z) (x : Q) : Py unit :=
  A <- attribute_space ;;
  A' <- orraise IndexError (setitem2 A i k x) ;;
  set_prop "attribute_space" (Array2 A').

(** The gate shared by both archetype families in [update_attributes]:
    the local average must exceed the resistance, and a draw must fall
    below the update probability. *)
Definition flip_gate (local_avg : list Q) (res : Q) (i k : Z)
    (changes : list (Z * Z)) : Py (list (Z * Z)) :=
  a <- orraise IndexError (item local_avg k) ;;
  if Qltb res (Qabs a) then
    r <- random ;;
    uv <- prop "update" ;;
    p <- as_number uv ;;
    if Qltb r p then ret (changes ++ [(i, k)])%list else ret changes
  else ret changes.

(** [update_attributes()] *)
Definition update_attributes : Py unit :=
  nv <- prop "n" ;;
  n <- as_int nv ;;
  changes <- for_acc (range n) [] (fun changes i =>
    R <- resistance ;;
    res <- orraise IndexError (item R i) ;;
    A <- attribute_space ;;
    curr_state <- orraise IndexError (item A i) ;;
    local_avg <- get_local_average i ;;
    for_acc (range (Z.of_nat (length curr_state))) changes (fun changes k =>
      ts <- types ;;
      t <- orraise IndexError (item ts i) ;;
      first <-
        (if bool_decide (t ∈ ["R"; "E"; "SC"]) then
           c <- orraise IndexError (item curr_state k) ;;
           a <- orraise IndexError (item local_avg k) ;;
           if Qltb 0 (c * a) then ret (changes, true)        (* continue *)
           else
             changes' <- flip_gate local_avg res i k changes ;;
             ret (changes', false)
         else ret (changes, false)) ;;
      let '(changes, continued) := first in
      if (continued : bool) then ret changes
      else
        ts' <- types ;;
        t' <- orraise IndexError (item ts' i) ;;
        if bool_decide (t' ∈ ["DA"; "RWC"; "SR"]) then
          c <- orraise IndexError (item curr_state k) ;;
          a <- orraise IndexError (item local_avg k) ;;
          if Qltb (c * a) 0 then ret changes                  (* continue *)
          else flip_gate local_avg res i k changes
        else ret changes)) ;;
  for_ changes (fun '(node, dim) =>
    x <- attribute_get node dim ;;
    attribute_set node dim (x * -1)%Q).

(** [act()] *)
Definition act : Py unit :=
  nv <- prop "n" ;;
  n <- as_int nv ;;
  for_ (range n) (fun i =>
    nbrs <- get_neighbors i ;;
    for_ nbrs (fun nbr =>
      ro <- get_reward_for_neighbor i nbr ;;
      tv <- prop "unfriend_threshold" ;;
      r <- orraise TypeError ro ;;
      threshold <- as_number tv ;;
      if Qltb r threshold then
        p <- random ;;
        uv <- prop "unfriend" ;;
        unfriend <- as_number uv ;;
        if Qltb p unfriend then disconnect i nbr else ret tt
      else ret tt)).

(** ** Persistence: the string encodings *)

(** ['%s,' % elem] appended for every element; [fmt] is ['%s' % elem], which
    may fall outside the modelled formats. *)
Fixpoint join_commas {A} (fmt : A -> option string) (v : list A) (s : string)
  : option string :=
  match v with
  | [] => Some s
  | elem :: v' => e ← fmt elem; join_commas fmt v' (s +:+ e +:+ ",")
  end.

(** [vector_to_string( v )] *)
Definition vector_to_string {A} (fmt : A -> option string) (v : list A)
  : option string :=
  s ← join_commas fmt v ""; Some (chop s).

(** [matrix_to_string( m )] *)
Fixpoint matrix_rows {A} (fmt : A -> option string) (m : list (list A)) (s : string)
  : option string :=
  match m with
  | [] => Some s
  | row :: m' => s' ← join_commas fmt row s; matrix_rows fmt m' (chop s' +:+ "#")
  end.

Definition matrix_to_string {A} (fmt : A -> option string) (m : list (list A))
  : option string :=
  s ← matrix_rows fmt m ""; Some (chop s).

(** [string_to_vector( s )] *)
Definition string_to_vector (s : string) : parsed (list Q) :=
  let parts := split "," s in
  if bool_decide (parts = [""]) then Parsed []
  else foldr (fun part acc =>
                match float_of_string part, acc with
                | Parsed q, Parsed l => Parsed (q :: l)
                | Invalid, _ => Invalid
                | NotCovered, _ => NotCovered
                | _, other => other
                end) (Parsed []) parts.

(** [string_to_matrix( s )]; [np.array] wants rows of one length. *)
Definition string_to_matrix (s : string) : parsed (list (list Q)) :=
  let rows :=
    foldr (fun line acc =>
             match string_to_vector line, acc with
             | Parsed v, Parsed l => Parsed (v :: l)
             | Invalid, _ => Invalid
             | NotCovered, _ => NotCovered
             | _, other => other
             end) (Parsed []) (split "#" s) in
  match rows with
  | Parsed (r :: rs) =>
      if forallb (fun r' => Nat.eqb (length r') (length r)) rs
      then Parsed (r :: rs) else NotCovered
  | other => other
  end.

(** [encode_mask( masks )]: every row that shows something, as its index
    and the number whose binary digits mark the visible coordinates. *)
Definition encode_mask (masks : list (list Q)) : string :=
  chop (foldl (fun s '(i, row) =>
                 if negb (existsb (fun x => negb (Qeqb x 0)) row) then s   (* continue *)
                 else
                   let temp := (fun x => negb (Qeqb x 0)) <$> row in
                   s +:+ pretty (Z.of_nat i) +:+ "," +:+ pretty (int_base2 temp 0) +:+ "#")
          "" (imap (fun i row => (i, row)) masks)).

(** [decode_mask( mask )] *)
Definition decode_mask (mask : Q) : option (list Z) :=
  bin_digits (int_of_float mask).

(** [repr] of a string that needs no escaping. *)
Definition plain_char (c : ascii) : bool :=
  let n := N_of_ascii c in
  bool_decide (32 <= n < 127 /\ n <> 39 /\ n <> 92)%N.

Definition repr_str (s : string) : option string :=
  if forallb plain_char (list_ascii_of_string s)
  then Some ("'" +:+ s +:+ "'") else None.

(** [', '.join] of already formatted items *)
Fixpoint comma_space (items : list string) : string :=
  match items with
  | [] => ""
  | [x] => x
  | x :: rest => x +:+ ", " +:+ comma_space rest
  end.

(** [repr( v )]; numpy arrays are not covered. *)
Fixpoint repr (v : value) : option string :=
  match v with
  | Int z => Some (pretty z)
  | Float q => float_repr q
  | Bool b => Some (if b then "True" else "False")
  | Str s => repr_str s
  | StrList l => items ← mapM repr_str l; Some ("[" +:+ comma_space items +:+ "]")
  | IntList l => Some ("[" +:+ comma_space (pretty <$> l) +:+ "]")
  | Dict d =>
      items ← (fix go (d : list (string * value)) : option (list string) :=
                 match d with
                 | [] => Some []
                 | (k, x) :: d' =>
                     ks ← repr_str k; xs ← repr x; rest ← go d';
                     Some ((ks +:+ ": " +:+ xs) :: rest)
                 end) d;
      Some ("{" +:+ comma_space items +:+ "}")
  | _ => None
  end.

(** [str( v )] *)
Definition str (v : value) : option string :=
  match v with
  | Str s => Some s
  | _ => repr v
  end.

(** ** Persistence: writing and reading the state *)

Definition set_file (name : string) (doc : Element) : Py unit :=
  fun w => Returns tt
             (mkWorld (_properties w) (_graph w) (rnd w) (<[name := doc]> (files w))).

Definition with_xml (filename : string) : string :=
  if is_infix ".xml" filename then filename else filename +:+ ".xml".

Definition covered {A} (o : option A) : Py A := orraise Unmodelled o.

(** [_save( filename )].  The document written to the file is modelled by
    its element tree: attribute values survive serialization and parsing
    unchanged.  The order in which the keys of [_properties] are visited
    only decides the order of the root attributes. *)
Definition _save (filename : string) : Py unit :=
  let filename := with_xml filename in
  _log ;;;
  w <- get ;;
  attr <- for_acc (map_to_list (_properties w)) [] (fun attr '(key, v) =>
    if bool_decide (key ∈ ["attribute_space"; "correlations"]) then
      m <- covered (match v with Array2 m => Some m | _ => None end) ;;
      s <- covered (matrix_to_string float_repr m) ;;
      ret (dict_set attr key s)
    else if bool_decide (key ∈ ["types"; "resistance"]) then
      s <- covered (match v with
                    | StrList l => vector_to_string Some l
                    | Array1 a => vector_to_string float_repr a
                    | _ => None
                    end) ;;
      ret (dict_set attr key s)
    else if bool_decide (key ∈ ["weights"; "normalized_weights"; "masks"]) then
      ret attr                        (* written out at the Node level *)
    else
      s <- covered (str v) ;;
      ret (dict_set attr key s)) ;;
  nv <- prop "n" ;;
  n <- as_int nv ;;
  nodes <- for_acc (range n) [] (fun nodes i =>
    nbrs <- get_neighbors i ;;
    parents <- covered (vector_to_string (fun j : Z => Some (pretty j)) nbrs) ;;
    M <- masks ;;
    Mi <- orraise IndexError (item M i) ;;
    nbrs' <- get_neighbors i ;;
    ws <- for_acc nbrs' [] (fun ws j =>
            x <- weights_get i j ;; ret (ws ++ [x])%list) ;;
    wstr <- covered (vector_to_string float_repr ws) ;;
    ret (nodes ++ [[("idx", pretty i); ("parents", parents);
                    ("masks", encode_mask Mi); ("weights", wstr)]])%list) ;;
  set_file filename (mkElement attr nodes).

Definition of_parsed {A} (p : parsed A) : Py A :=
  match p with
  | Parsed a => ret a
  | Invalid => raise ValueError
  | NotCovered => raise Unmodelled
  end.

Definition get_file (name : string) : Py (option Element) :=
  fun w => Returns (files w !! name) w.

Section Environment.

(** What the environment supplies: Python's [eval] on the text of a
    literal, the stream that [rnd.seed] selects, the edges of the seeded
    random graphs of networkx, and the order in which a set of integers
    is iterated. *)
Variable eval : string -> exn + value.
Variable seeded : value -> nat -> Q.
Variable erdos_renyi_graph : Z -> value -> value -> option value -> exn + list (Z * Z).
Variable scale_free_graph : Z -> option value -> exn + list (Z * Z).
Variable watts_strogatz_graph : Z -> Z -> value -> option value -> exn + list (Z * Z).
Variable set_order : list Z -> list Z.

Definition call {A} (r : exn + A) : Py A :=
  match r with inr a => ret a | inl e => raise e end.

(** One attribute of a [Node] element, in [_read]. *)
Definition read_node_attribute (child : list (string * string))
    (idx : Z) (parents : list Z) (a : string) : Py unit :=
  if bool_decide (a ∈ ["idx"; "parents"]) then ret tt
  else if String.eqb a "weights" then
    s <- orraise KeyError (dict_get child a) ;;
    ws <- of_parsed (string_to_vector s) ;;
    for_ (range (Z.of_nat (length parents))) (fun i =>
      p <- orraise IndexError (item parents i) ;;
      x <- orraise IndexError (item ws i) ;;
      weights_set p idx x) ;;;
    update_weight_column idx
  else if String.eqb a "masks" then
    s <- orraise KeyError (dict_get child "masks") ;;
    lines <- of_parsed (string_to_matrix s) ;;
    for_ lines (fun line =>
      l0 <- orraise IndexError (item line 0) ;;
      let parent := int_of_float l0 in
      l1 <- orraise IndexError (item line 1) ;;
      mask <- orraise ValueError (decode_mask l1) ;;
      for_ (range (Z.of_nat (length mask))) (fun k =>
        b <- orraise IndexError (item mask k) ;;
        if Z.eqb b 0 then masks_set idx parent k (inject_Z b)
        else
          x <- attribute_get parent k ;;
          masks_set idx parent k x))
  else ret tt.

(** One attribute of the root element, in [_read]. *)
Definition read_root_attribute (a s : string) : Py unit :=
  if bool_decide (a ∈ ["attribute_space"; "correlations"]) then
    m <- of_parsed (string_to_matrix s) ;; set_prop a (Array2 m)
  else if bool_decide (a ∈ ["resistance"]) then
    l <- for_acc (split "," s) [] (fun acc i =>
           x <- of_parsed (float_of_string i) ;; ret (acc ++ [x])%list) ;;
    set_prop a (Array1 l)
  else if bool_decide (a ∈ ["dimensions"; "seed"; "n"]) then
    z <- of_parsed (int_of_string s) ;; set_prop a (Int z)
  else if bool_decide (a ∈ ["friend"; "unfriend"; "rewire";
                            "saturation"; "weight"; "update"]) then
    match float_of_string s with
    | Parsed q => set_prop a (Float q)
    | Invalid => set_prop a (Str s)
    | NotCovered => raise Unmodelled
    end
  else if bool_decide (a ∈ ["directed"; "symmetric"]) then
    set_prop a (Bool (negb (String.eqb s "")))        (* bool( text ) *)
  else if bool_decide (a ∈ ["types"]) then
    set_prop a (StrList (split "," s))
  else if bool_decide (a ∈ ["type_dist"; "indexes_by_type"]) then
    v <- call (eval s) ;; set_prop a v
  else if String.eqb a "resistance_param" then
    if String.eqb s "random" then set_prop a (Str "random")
    else match float_of_string s with
         | Parsed q => set_prop a (Float q)
         | Invalid => v <- call (eval s) ;; set_prop a v
         | NotCovered => raise Unmodelled
         end
  else set_prop a (Str s).

(** [_read( filename )] *)
Definition _read (filename : string) : Py unit :=
  let filename := with_xml filename in
  file <- get_file filename ;;
  match file with
  | None => _log
  | Some root =>
      for_ (attrib root) (fun '(a, s) => read_root_attribute a s) ;;;
      (* Set up NetworkX graph underneath *)
      d <- prop "directed" ;;
      directed <- truth d ;;
      set_graph (if directed then nx.DiGraph else nx.Graph) ;;;
      (* Add nodes to graph *)
      g <- the_graph ;;
      nv <- prop "n" ;;
      n <- as_int nv ;;
      set_graph (nx.add_nodes_from g (range n)) ;;;
      initialize_edge_weights ;;;
      initialize_masks ;;;
      for_ (children root) (fun child =>
        text <- orraise KeyError (dict_get child "idx") ;;
        idx <- of_parsed (int_of_string text) ;;
        ps <- orraise KeyError (dict_get child "parents") ;;
        parents <-
          (if String.eqb ps "" then ret []
           else
             ps' <- orraise KeyError (dict_get child "parents") ;;
             v <- of_parsed (string_to_vector ps') ;;
             ret (int_of_float <$> v)) ;;
        for_ parents (fun p =>
          g <- the_graph ;; set_graph (nx.add_edge g idx p)) ;;;
        for_ (dict_keys child) (read_node_attribute child idx parents))
  end.

(** ** Construction *)

(** Admissible keywords for the topology parameter *)
Definition TOPOLOGIES : list string :=
  [""; "complete"; "cycle"; "random"; "scale free"; "small world"; "star"].

(** The attributes an instance has: those set by [__init__] and the
    methods of the class.  Any other name raises [AttributeError]. *)
Definition attributes : list string :=
  ["_properties"; "_graph"; "__init__"; "_log"; "_build"; "_read"; "_save";
   "_validate_input"; "generate_edges"; "initialize_edge_weights";
   "initialize_attribute_space"; "initialize_correlations";
   "initialize_masks"; "initialize_resistance"; "mix_network";
   "get_neighbors"; "update_weight_column"; "get_local_average";
   "get_global_average"; "get_reward_for_neighbor"; "get_reward_for_node";
   "disconnect"; "connect"; "reveal"; "hide"; "step"; "update_attributes";
   "act"; "network_effects"; "track_stat"; "debug"].

Definition getattr (name : string) : Py unit :=
  if bool_decide (name ∈ attributes) then ret tt else raise AttributeError.

(** [generate_edges( topology )] *)
Definition generate_edges (topology : value) : Py unit :=
  has_seed <- has_prop "seed" ;;
  SEED <- (if (has_seed : bool) then v <- prop "seed" ;; ret (Some v)
           else ret None) ;;
  topology <- prop "topology" ;;
  _log ;;;
  d <- prop "directed" ;;
  directed <- truth d ;;
  set_graph (if directed then nx.DiGraph else nx.Graph) ;;;
  d' <- prop "directed" ;;
  _log ;;;
  g <- the_graph ;;
  nv <- prop "n" ;;
  n <- as_int nv ;;
  set_graph (nx.add_nodes_from g (range n)) ;;;
  nv' <- prop "n" ;;
  _ <- as_number nv' ;;
  _log ;;;
  if is_str topology "" then ret tt
  else
    g <- the_graph ;;
    let number_of_nodes := Z.of_nat (length (nodes g)) in
    edges <-
      (if is_str topology "random" then
         sat <- prop "saturation" ;;
         dv <- prop "directed" ;;
         call (erdos_renyi_graph number_of_nodes sat dv SEED)
       else if is_str topology "scale free" then
         call (scale_free_graph number_of_nodes SEED)
       else if is_str topology "small world" then
         sv <- prop "saturation" ;;
         sat <- as_number sv ;;
         rw <- prop "rewire" ;;
         call (watts_strogatz_graph number_of_nodes
                 (int_of_float (sat * inject_Z number_of_nodes)) rw SEED)
       else if is_str topology "star" then
         ret (nx.edges (nx.star_graph number_of_nodes))
       else if is_str topology "complete" then
         ret (nx.edges (nx.complete_graph number_of_nodes))
       else if is_str topology "cycle" then
         ret (nx.edges (nx.cycle_graph number_of_nodes))
       else raise UnboundLocalError) ;;
    for_ edges (fun e =>
      g <- the_graph ;;
      set_graph (nx.add_edge g (fst e) (snd e)) ;;;
      sv <- prop "symmetric" ;;
      symmetric <- truth sv ;;
      if symmetric then
        g' <- the_graph ;; set_graph (nx.add_edge g' (snd e) (fst e))
      else ret tt).

(** [_build()] *)
Definition _build : Py unit :=
  topology <- prop "topology" ;;
  (if in_strings topology TOPOLOGIES
   then generate_edges topology
   else getattr "log" ;;; _log) ;;;
  initialize_edge_weights ;;;
  initialize_attribute_space ;;;
  initialize_correlations ;;;
  initialize_masks ;;;
  mix_network ;;;
  initialize_resistance.

(** [_validate_input( props )], where [props] is [self._properties]. *)
Definition default (key : string) (v : value) : Py unit :=
  has <- has_prop key ;;
  if (has : bool) then ret tt else set_prop key v.

Definition _validate_input : Py unit :=
  default "n" (Int 0) ;;;
  default "directed" (Bool false) ;;;
  has <- has_prop "symmetric" ;;
  (if negb has then set_prop "symmetric" (Bool false)
   else
     sv <- prop "symmetric" ;;
     symmetric <- truth sv ;;
     if symmetric then set_prop "directed" (Bool true) else ret tt) ;;;
  default "topology" (Str "") ;;;
  default "saturation" (Float (1 # 10)) ;;;
  default "dimensions" (Int 1) ;;;
  default "visibility" (Str "visible") ;;;
  default "weight" (Float 1) ;;;
  default "unfriend" (Float 1) ;;;
  default "update" (Float 1) ;;;
  default "resistance_param" (Float 0).

(** [__init__( props )] for a dictionary [props]; anything else is only
    reported and leaves an object without attributes. *)
Definition __init__ (props : gmap string value) : Py unit :=
  w <- get ;;
  put (mkWorld props None (rnd w) (files w)) ;;;
  _validate_input ;;;
  has_seed <- has_prop "seed" ;;
  (if (has_seed : bool) then
     s <- prop "seed" ;;
     w <- get ;;
     put (mkWorld (_properties w) (_graph w) (mkRandom (seeded s) 0) (files w)) ;;;
     _log
   else ret tt) ;;;
  has_file <- has_prop "file" ;;
  if (has_file : bool) then
    f <- prop "file" ;;
    match f with
    | Str filename => _read filename
    | _ => raise TypeError
    end
  else _build.

(** [network_effects()] *)
Definition network_effects : Py unit :=
  nv <- prop "n" ;;
  n <- as_int nv ;;
  for_ (range n) (fun i =>
    drawn <- for_acc (range 5) [] (fun acc _ =>
               r <- random ;;
               ret (acc ++ [int_of_float (r * inject_Z n)])%list) ;;
    for_ (set_order drawn) (fun c =>
      p <- random ;;
      fv <- prop "friend" ;;
      friend <- as_number fv ;;
      if Qltb p friend then connect c i else ret tt)).

(** [step()] *)
Definition step : Py unit :=
  update_attributes ;;;
  act ;;;
  network_effects.

End Environment.

(** * Specifications *)

(** ** Invariants of the properties and the graph

    A predicate on the properties dictionary and the graph is preserved by
    a computation when it holds in the state the computation ends in,
    whether it returns or raises. *)

Section PreservesDefinitions.

Context (I : gmap string value -> option graph -> Prop).

Definition holds (w : World) : Prop := I (_properties w) (_graph w).

Definition preserves {A} (c : Py A) : Prop :=
  forall w, holds w -> holds (final (c w)).

Definition ignores_key (k : string) : Prop :=
  forall P G v, I P G -> I (<[k := v]> P) G.

Definition ignores_graph : Prop :=
  forall P G G', I P G -> I P G'.

(** The computation raises from every state that satisfies the predicate,
    and leaves one that satisfies it. *)
Definition raises_in {A} (c : Py A) : Prop :=
  forall w, holds w -> exists e w', c w = Raises e w' /\ holds w'.

End PreservesDefinitions.

(** ** Positions and entries of arrays *)

(** Outside [-len .. len-1] there is no position. *)
Definition out_of_range (len : nat) (i : Z) : Prop :=
  i < - Z.of_nat len \/ Z.of_nat len <= i.

(** Entries by position. *)
Definition entry2 {A} (m : list (list A)) (i j : nat) : option A :=
  m !! i ≫= fun row => row !! j.

Definition entry3 {A} (t : list (list (list A))) (i j k : nat) : option A :=
  t !! i ≫= fun m => entry2 m j k.

(** The world after [self._properties[k] = v]. *)
Definition with_prop (k : string) (v : value) (w : World) : World :=
  mkWorld (<[k := v]> (_properties w)) (_graph w) (rnd w) (files w).

(** The world after one draw. *)
Definition advance (w : World) : World :=
  mkWorld (_properties w) (_graph w)
    (mkRandom (draws (rnd w)) (S (cursor (rnd w)))) (files w).

(** The number the next call of [rnd.random()] returns. *)
Definition next_draw (w : World) : Q := draws (rnd w) (cursor (rnd w)).

(** ** Concrete runs

    An environment for running the constructor on concrete properties:
    [eval] knows the two dictionary literals that a freshly built network
    writes, and no random graph family is available. *)

Definition literal_eval (s : string) : exn + value :=
  if String.eqb s "{}" then inr (Dict [])
  else if String.eqb s "{'default': 1.0}" then inr (Dict [("default", Float 1)])
  else inl Unmodelled.

Definition SocialNetwork (props : gmap string value) : Py unit :=
  __init__ literal_eval (fun _ _ => 0%Q)
    (fun _ _ _ _ => inl Unmodelled) (fun _ _ => inl Unmodelled)
    (fun _ _ _ _ => inl Unmodelled) props.

(** A world in which nothing has been constructed yet, with the draws the
    generator will return. *)
Definition fresh (draws : nat -> Q) : World :=
  mkWorld ∅ None (mkRandom draws 0) ∅.

(** The arrays of a world, when present. *)
Definition raw_weights (w : World) : option (list (list Q)) :=
  match _properties w !! "weights" with Some (Array2 W) => Some W | _ => None end.

Definition normalized (w : World) : option (list (list float64)) :=
  match _properties w !! "normalized_weights" with
  | Some (Array2N N) => Some N
  | _ => None
  end.

Definition mask_tensor (w : World) : option (list (list (list Q))) :=
  match _properties w !! "masks" with Some (Array3 M) => Some M | _ => None end.

Definition opinions (w : World) : option (list (list Q)) :=
  match _properties w !! "attribute_space" with Some (Array2 A) => Some A | _ => None end.

(** The sum of column [u] of the normalized weights. *)
Definition column_sum (N : list (list float64)) (u : nat) : float64 :=
  foldr float64_add (Finite 0) (column N u).

(** Column [u] of the normalized weights of [w] sums to the number [q]. *)
Definition column_sums_to (w : World) (u : nat) (q : Q) : Prop :=
  exists N s, normalized w = Some N /\ column_sum N u = Finite s /\ (s == q)%Q.

(** The draws used by the concrete runs below: the first is 3/4, all later
    ones are 1/4. *)
Definition draws_34_14 (i : nat) : Q :=
  match i with O => (3 # 4)%Q | S _ => (1 # 4)%Q end.

(** Two nodes joined by an edge, one opinion coordinate; node 0 draws the
    opinion +1 and node 1 the opinion -1. *)
Definition pair_props : gmap string value :=
  list_to_map [("n", Int 2); ("topology", Str "complete")].

(** The same pair with unfriend probability 0. *)
Definition pair_props_unfriend0 : gmap string value :=
  list_to_map [("n", Int 2); ("topology", Str "complete"); ("unfriend", Float 0)].

(** A single node with unfriend probability 0. *)
Definition single_props_unfriend0 : gmap string value :=
  list_to_map [("n", Int 1); ("unfriend", Float 0)].

(** Three nodes, all connected, all of archetype R. *)
Definition triangle_props : gmap string value :=
  list_to_map [("n", Int 3); ("topology", Str "complete");
               ("type_dist", Dict [("R", Float 1)])].

(** A topology tag that is not admissible. *)
Definition grid_props : gmap string value :=
  list_to_map [("n", Int 2); ("topology", Str "grid")].

(** The opinions of [u] at the coordinates that [vec2] shows, in the order
    of the coordinates: [distvec1] of [get_reward_for_neighbor]. *)
Definition visible_part (vec1 vec2 : list Q) : list Q :=
  fst <$> filter (fun p : Q * Q => Qeqb (snd p) 0 = false) (zip vec1 vec2).

(** The coordinate [i] of [vec1], when [vec2] shows it. *)
Definition pick (vec1 vec2 : list Q) (i : nat) : option Q :=
  match vec2 !! i, vec1 !! i with
  | Some m, Some x => if Qeqb m 0 then None else Some x
  | _, _ => None
  end.

(** The six archetypes. *)
Definition archetypes : list string := ["R"; "E"; "SC"; "DA"; "RWC"; "SR"].

(** The object just before [_build] when the topology tag is [grid]. *)
Definition grid_world : World :=
  mkWorld grid_props None (mkRandom draws_34_14 0) ∅.

(** The triangle as constructed, before any step. *)
Definition triangle_world : World :=
  final (SocialNetwork triangle_props (fresh draws_34_14)).

(** ** Self-perception *)

(** Every opinion coordinate of every node is what the node perceives of
    itself: [M[i][i][k] == attribute[i][k]]. *)
Definition self_perception (P : gmap string value) (G : option graph) : Prop :=
  exists M A,
    P !! "masks" = Some (Array3 M)
    /\ P !! "attribute_space" = Some (Array2 A)
    /\ forall i k x, entry2 A i k = Some x -> entry3 M i i k = Some x.

(** The same for the coordinates [k] of the nodes [i] selected by [D]
    only, as the sweep of [initialize_masks] establishes it entry by entry,
    for given opinions [A]. *)
Definition self_perception_on (A : list (list Q)) (D : nat -> nat -> Prop)
    (P : gmap string value) (G : option graph) : Prop :=
  P !! "attribute_space" = Some (Array2 A)
  /\ exists M,
       P !! "masks" = Some (Array3 M)
       /\ forall i k x, D i k -> entry2 A i k = Some x -> entry3 M i i k = Some x.

(** An array of [n] rows of [k] entries. *)
Definition shape2 {A} (n k : nat) (m : list (list A)) : Prop :=
  length m = n /\ forall row, row ∈ m -> length row = k.

(** No node is its own neighbour, and the nodes that an edge joins are
    indices [>= 0]. *)
Definition loop_free (g : graph) : bool :=
  forallb (fun e : Z * Z =>
             negb (Z.eqb (fst e) (snd e)) && Z.leb 0 (fst e) && Z.leb 0 (snd e))
    (edges g).

(** The graph of the state, when there is one, is free of self-loops. *)
Definition graph_loop_free (P : gmap string value) (G : option graph) : Prop :=
  forall g, G = Some g -> loop_free g = true.

(** The states considered for self-perception: those in which
    [initialize_masks] returned, whatever the visibility, on a graph free
    of self-loops and opinions of [n] rows and [dimensions] columns, and
    those that follow by [connect] and [disconnect] between any two nodes,
    and by [reveal] and [hide] between two different nodes.  An operation
    that raises leaves a state that counts as well. *)
Inductive reachable : World -> Prop :=
| reachable_initialize w w' n K A :
    _properties w !! "n" = Some (Int (Z.of_nat n)) ->
    _properties w !! "dimensions" = Some (Int (Z.of_nat K)) ->
    opinions w = Some A ->
    shape2 n K A ->
    holds graph_loop_free w ->
    initialize_masks w = Returns tt w' ->
    reachable w'
| reachable_connect w u v :
    reachable w -> 0 <= u -> 0 <= v ->
    reachable (final (connect u v w))
| reachable_disconnect w u v :
    reachable w -> 0 <= u -> 0 <= v ->
    reachable (final (disconnect u v w))
| reachable_reveal w u v k :
    reachable w -> 0 <= u -> 0 <= v -> u <> v ->
    reachable (final (reveal u v k w))
| reachable_hide w u v k :
    reachable w -> 0 <= u -> 0 <= v -> u <> v ->
    reachable (final (hide u v k w)).

(** ** Shapes *)

(** The raw weights are [n] by [n] and the masks [n] by [n] by something. *)
Definition square_arrays (n : nat) (P : gmap string value) : Prop :=
  (exists W, P !! "weights" = Some (Array2 W) /\ shape2 n n W)
  /\ (exists M, P !! "masks" = Some (Array3 M) /\ shape2 n n M).

(** The properties are exactly [P0]; the graph is free. *)
Definition properties_are (P0 P : gmap string value) (G : option graph) : Prop :=
  P = P0.

(** Two nodes with the opinions +1 and -1, joined by an edge, just before
    [initialize_masks]. *)
Definition unmasked_pair : World :=
  mkWorld
    (list_to_map [("n", Int 2); ("dimensions", Int 1); ("directed", Bool false);
                  ("visibility", Str "visible");
                  ("attribute_space", Array2 [[1%Q]; [(-1)%Q]])])
    (Some (mkGraph false [0; 1] [(0, 1)]))
    (mkRandom draws_34_14 0) ∅.

(** The pair as constructed. *)
Definition pair_world : World :=
  final (SocialNetwork pair_props (fresh draws_34_14)).

(** Two nodes joined by an edge, visibility [random], the opinions +1 and
    -1, the unfriend probability 0: just before [initialize_masks], and
    just after it. *)
Definition unmasked_random_pair : World :=
  mkWorld
    (list_to_map [("n", Int 2); ("dimensions", Int 1); ("directed", Bool false);
                  ("symmetric", Bool false); ("visibility", Str "random");
                  ("unfriend", Float 0);
                  ("attribute_space", Array2 [[1%Q]; [(-1)%Q]]);
                  ("weights", Array2 [[1%Q; 1%Q]; [1%Q; 1%Q]]);
                  ("normalized_weights",
                   Array2N [[Finite (1 # 2); Finite (1 # 2)];
                            [Finite (1 # 2); Finite (1 # 2)]])])
    (Some (mkGraph false [0; 1] [(0, 1)]))
    (mkRandom draws_34_14 0) ∅.

Definition masked_random_pair : World :=
  final (initialize_masks unmasked_random_pair).

(** One node on a cycle, which is a self-loop, visibility [random]. *)
Definition loop_props : gmap string value :=
  list_to_map [("n", Int 1); ("topology", Str "cycle"); ("visibility", Str "random")].

Definition loop_world : World :=
  final (SocialNetwork loop_props (fresh draws_34_14)).

(** ** The drawn opinions *)

(** The opinion that [rnd.choice( [ -1., 1. ] )] picks on the draw [r]. *)
Definition sign_of_draw (r : Q) : Q := if Qltb r (1 # 2) then (-1)%Q else 1%Q.

Fixpoint advance_by (k : nat) (w : World) : World :=
  match k with
  | O => w
  | S k' => advance_by k' (advance w)
  end.

(** The next [k] opinions drawn in [w]. *)
Fixpoint drawn_row (k : nat) (w : World) : list Q :=
  match k with
  | O => []
  | S k' => sign_of_draw (next_draw w) :: drawn_row k' (advance w)
  end.

(** The next [n] rows of [k] opinions drawn in [w]. *)
Fixpoint drawn_rows (n k : nat) (w : World) : list (list Q) :=
  match n with
  | O => []
  | S n' => drawn_row k w :: drawn_rows n' k (advance_by k w)
  end.

Fixpoint advance_rows (n k : nat) (w : World) : World :=
  match n with
  | O => w
  | S n' => advance_rows n' k (advance_by k w)
  end.

(** Every draw lies in [0, 1). *)
Definition unit_draws (d : nat -> Q) : Prop := forall i, (0 <= d i < 1)%Q.

(** ** The round trip of persistence *)

(** The configuration of the round trip: five nodes on a cycle, two
    opinion coordinates, weight 1.0, everything visible. *)
Definition cycle_props : gmap string value :=
  list_to_map [("n", Int 5); ("dimensions", Int 2); ("topology", Str "cycle");
               ("weight", Float 1); ("visibility", Str "visible")].

(** The cycle on five nodes as the constructor builds it, an undirected
    graph of five edges, and the graph that [_read] builds from the file:
    a directed graph with an arc from every node to each of its two
    neighbours. *)
Definition cycle5 : graph :=
  mkGraph false [0; 1; 2; 3; 4] [(0, 1); (0, 4); (1, 2); (2, 3); (3, 4)].

Definition cycle5_read : graph :=
  mkGraph true [0; 1; 2; 3; 4]
    [(0, 1); (0, 4); (1, 0); (1, 2); (2, 1); (2, 3); (3, 2); (3, 4); (4, 0); (4, 3)].

(** The normalized weights of the cycle as constructed: every column
    gives a third to the node and to each of its two neighbours.  And
    those of the network that was read: when [_read] comes to the node
    [idx] only the arcs that leave the nodes before it exist, so that
    column [idx] holds the node itself and the predecessors among them. *)
Definition normalized_cycle5 : list (list float64) :=
  [[Finite (1 # 3); Finite (1 # 3); Finite 0; Finite 0; Finite (1 # 3)];
   [Finite (1 # 3); Finite (1 # 3); Finite (1 # 3); Finite 0; Finite 0];
   [Finite 0; Finite (1 # 3); Finite (1 # 3); Finite (1 # 3); Finite 0];
   [Finite 0; Finite 0; Finite (1 # 3); Finite (1 # 3); Finite (1 # 3)];
   [Finite (1 # 3); Finite 0; Finite 0; Finite (1 # 3); Finite (1 # 3)]].

Definition normalized_cycle5_read : list (list float64) :=
  [[Finite (1 # 3); Finite (1 # 3); Finite 0; Finite 0; Finite (1 # 3)];
   [Finite 0; Finite (1 # 3); Finite (1 # 3); Finite 0; Finite 0];
   [Finite 0; Finite 0; Finite (1 # 3); Finite (1 # 3); Finite 0];
   [Finite 0; Finite 0; Finite 0; Finite (1 # 3); Finite (1 # 3)];
   [Finite 0; Finite 0; Finite 0; Finite 0; Finite (1 # 3)]].

(** A boolean entry of the properties. *)
Definition flag (k : string) (w : World) : option bool :=
  match _properties w !! k with Some (Bool b) => Some b | _ => None end.

#[global] Instance graph_eq_dec : EqDecision graph.
Proof. solve_decision. Defined.

#[global] Instance float64_eq_dec : EqDecision float64.
Proof. solve_decision. Defined.

(** The state of the construction after [initialize_edge_weights], which
    has not drawn anything yet. *)
Definition cycle_weighted (d : nat -> Q) : World :=
  mkWorld
    (list_to_map
       [("n", Int 5); ("dimensions", Int 2); ("topology", Str "cycle");
        ("weight", Float 1); ("visibility", Str "visible");
        ("directed", Bool false); ("symmetric", Bool false);
        ("saturation", Float (1 # 10)); ("unfriend", Float 1);
        ("update", Float 1); ("resistance_param", Float 0);
        ("weights",
         Array2 [[1; 1; 0; 0; 1]; [1; 1; 1; 0; 0]; [0; 1; 1; 1; 0];
                 [0; 0; 1; 1; 1]; [1; 0; 0; 1; 1]]%Q);
        ("normalized_weights",
         Array2N
           [[Finite (1 # 3); Finite (1 # 3); Finite 0; Finite 0; Finite (1 # 3)];
            [Finite (1 # 3); Finite (1 # 3); Finite (1 # 3); Finite 0; Finite 0];
            [Finite 0; Finite (1 # 3); Finite (1 # 3); Finite (1 # 3); Finite 0];
            [Finite 0; Finite 0; Finite (1 # 3); Finite (1 # 3); Finite (1 # 3)];
            [Finite (1 # 3); Finite 0; Finite 0; Finite (1 # 3); Finite (1 # 3)]])])
    (Some (mkGraph false [0; 1; 2; 3; 4] [(0, 1); (0, 4); (1, 2); (2, 3); (3, 4)]))
    (mkRandom d 0) ∅.

(** Five rows of two opinions, from ten coin flips. *)
Definition opinion_of (b : bool) : Q := if b then (-1)%Q else 1%Q.

Fixpoint rows_of_bits (bs : list bool) : list (list Q) :=
  match bs with
  | a :: b :: rest => [opinion_of a; opinion_of b] :: rows_of_bits rest
  | _ => []
  end.

(** The state after [initialize_attribute_space] when the opinions drawn
    are those of [bs]. *)
Definition cycle_opinionated (d : nat -> Q) (bs : list bool) : World :=
  with_prop "attribute_space" (Array2 (rows_of_bits bs))
    (advance_by 10 (cycle_weighted d)).

(** What remains of [_build] after [initialize_attribute_space]. *)
Definition finish_build : Py unit :=
  initialize_correlations ;;;
  initialize_masks ;;;
  mix_network ;;;
  initialize_resistance.

(** Writing the network to [net.xml] and constructing a second network from
    that file. *)
Definition save_and_read : Py unit :=
  _save "net" ;;; SocialNetwork {["file" := Str "net"]}.

(** The round trip on the opinions of [bs], decided by running it: what it
    keeps (raw weights and masks) and what it changes (the kind of the
    graph and its edges, the two flags, the normalized weights). *)
Definition round_trip_report (d : nat -> Q) (bs : list bool) : bool :=
  match finish_build (cycle_opinionated d bs) with
  | Returns _ w1 =>
      match save_and_read w1 with
      | Returns _ w2 =>
          bool_decide (_graph w1 = Some cycle5)
          && bool_decide (_graph w2 = Some cycle5_read)
          && bool_decide (flag "directed" w1 = Some false)
          && bool_decide (flag "directed" w2 = Some true)
          && bool_decide (flag "symmetric" w1 = Some false)
          && bool_decide (flag "symmetric" w2 = Some true)
          && bool_decide (normalized w1 = Some normalized_cycle5)
          && bool_decide (normalized w2 = Some normalized_cycle5_read)
          && match raw_weights w1, raw_weights w2, mask_tensor w1, mask_tensor w2 with
             | Some W1, Some W2, Some M1, Some M2 =>
                 bool_decide (W1 = W2) && bool_decide (M1 = M2)
             | _, _, _, _ => false
             end
      | Raises _ _ => false
      end
  | Raises _ _ => false
  end.

(** All lists of [n] booleans. *)
Fixpoint all_bits (n : nat) : list (list bool) :=
  match n with
  | O => [[]]
  | S n' => (cons true <$> all_bits n') ++ (cons false <$> all_bits n')
  end.

(** The pair with unfriend probability 0, and the single node, as
    constructed. *)
Definition pair0_world : World :=
  final (SocialNetwork pair_props_unfriend0 (fresh draws_34_14)).

Definition single0_world : World :=
  final (SocialNetwork single_props_unfriend0 (fresh draws_34_14)).

(** * Further specifications *)

(** The attribute space has [n] rows of [k] entries, each of them +1 or
    -1. *)
Definition sign_matrix (n k : nat) (P : gmap string value) (G : option graph) : Prop :=
  exists A, P !! "attribute_space" = Some (Array2 A)
    /\ shape2 n k A
    /\ forall i j x, entry2 A i j = Some x -> x = 1%Q \/ x = (-1)%Q.

(** A string without a comma. *)
Fixpoint comma_free (s : string) : bool :=
  match s with
  | "" => true
  | String c s' => negb (Ascii.eqb c ",") && comma_free s'
  end.

(** Every element followed by a comma. *)
Fixpoint joined (l : list string) : string :=
  match l with
  | [] => ""
  | e :: r => e +:+ "," +:+ joined r
  end.

(** A row of visibility bits from its first visible coordinate on. *)
Fixpoint visible_suffix (bits : list bool) : list bool :=
  match bits with
  | false :: rest => visible_suffix rest
  | _ => bits
  end.

(** ** The text of the masks *)

(** A decimal digit, a text of decimal digits, and a text in which the
    character [c] does not occur. *)
Definition is_digit (c : ascii) : bool := bool_decide (is_Some (digit_of c)).

Fixpoint all_digits (s : string) : bool :=
  match s with
  | "" => true
  | String c s' => is_digit c && all_digits s'
  end.

Fixpoint char_free (c : ascii) (s : string) : bool :=
  match s with
  | "" => true
  | String c' s' => negb (Ascii.eqb c' c) && char_free c s'
  end.

(** A coordinate that is shown, the marks of a row as [encode_mask] takes
    them, and a row that shows something: [any( masks[i] )]. *)
Definition shows (x : Q) : bool := negb (Qeqb x 0).

Definition row_bits (row : list Q) : list bool := shows <$> row.

Definition visible_row (row : list Q) : bool := existsb shows row.

(** What [encode_mask] writes for the row [i], without the final [#],
    and what it writes for the rows that show something, numbered from
    [i] on. *)
Definition mask_text (i : nat) (row : list Q) : string :=
  pretty (Z.of_nat i) +:+ "," +:+ pretty (int_base2 (row_bits row) 0).

Fixpoint mask_texts (i : nat) (rows : list (list Q)) : list string :=
  match rows with
  | [] => []
  | row :: rest =>
      if visible_row row then mask_text i row :: mask_texts (S i) rest
      else mask_texts (S i) rest
  end.

(** What [string_to_matrix] is to read from them. *)
Definition mask_line (i : nat) (row : list Q) : list Q :=
  [inject_Z (Z.of_nat i); inject_Z (int_base2 (row_bits row) 0)].

Fixpoint mask_lines (i : nat) (rows : list (list Q)) : list (list Q) :=
  match rows with
  | [] => []
  | row :: rest =>
      if visible_row row then mask_line i row :: mask_lines (S i) rest
      else mask_lines (S i) rest
  end.

(** Every element followed by the character [c]. *)
Fixpoint joined_by (c : ascii) (l : list string) : string :=
  match l with
  | [] => ""
  | e :: r => e +:+ String c (joined_by c r)
  end.

(** Three nodes without edges, visibility [random]. *)
Definition random_props : gmap string value :=
  list_to_map [("n", Int 3); ("visibility", Str "random")].

Definition random_world : World :=
  final (SocialNetwork random_props (fresh draws_34_14)).

(** The entries of the properties that a step may write. *)
Definition step_writes : list string :=
  ["attribute_space"; "weights"; "normalized_weights"; "masks"].

(** The five candidates [int( rnd.random() * n )] that [network_effects]
    draws in [w]. *)
Definition candidates (n : Z) (w : World) : list Z :=
  (fun j => int_of_float (draws (rnd w) (j + cursor (rnd w)) * inject_Z n))
    <$> seq 0 5.
(** ** Sanity checks of the library models *)

Example cycle_graph_5_edges :
  nx.edges (nx.cycle_graph 5) = [(0, 1); (0, 4); (1, 2); (2, 3); (3, 4)].
Proof. reflexivity. Qed.

Example complete_graph_3_edges :
  nx.edges (nx.complete_graph 3) = [(0, 1); (0, 2); (1, 2)].
Proof. reflexivity. Qed.

Example float_of_string_examples :
  float_of_string "-1.0" = Parsed (-1)%Q /\ float_of_string "0.25" = Parsed (1 # 4)%Q
  /\ float_of_string "3" = Parsed 3%Q /\ float_of_string "random" = Invalid
  /\ float_of_string "1e5" = NotCovered /\ float_of_string "" = Invalid.
Proof. repeat split; reflexivity. Qed.

Example float_repr_examples :
  float_repr 1 = Some "1.0" /\ float_repr (-1) = Some "-1.0"
  /\ float_repr (1 # 10) = Some "0.1" /\ float_repr (-5 # 4) = Some "-1.25"
  /\ float_repr (1 # 3) = None /\ float_repr 0 = Some "0.0".
Proof. repeat split; reflexivity. Qed.

Example encode_mask_visible :
  encode_mask [[1; -1]; [0; 0]; [-1; -1]; [0; 1]]%Q = "0,3#2,3#3,1".
Proof. reflexivity. Qed.

Example decode_mask_examples :
  decode_mask 3 = Some [1; 1] /\ decode_mask 1 = Some [1] /\ decode_mask 0 = Some [0].
Proof. repeat split; reflexivity. Qed.

Example vector_matrix_strings :
  vector_to_string float_repr [1; -1; 0]%Q = Some "1.0,-1.0,0.0"
  /\ matrix_to_string float_repr [[1; -1]; [0; 1]]%Q = Some "1.0,-1.0#0.0,1.0"
  /\ string_to_matrix "1.0,-1.0#0.0,1.0" = Parsed [[1; -1]; [0; 1]]%Q
  /\ string_to_vector "" = Parsed [].
Proof. repeat split; reflexivity. Qed.

Example str_examples :
  str (Dict [("default", Float 1)]) = Some "{'default': 1.0}"
  /\ str (Bool false) = Some "False" /\ str (Int 5) = Some "5"
  /\ str (Dict []) = Some "{}" /\ str (Str "cycle") = Some "cycle".
Proof. repeat split; reflexivity. Qed.
(** * Properties *)


(** ** Rules for preserved invariants *)

Section Preserves.

Context (I : gmap string value -> option graph -> Prop).

Local Abbreviation holds := (holds I).
Local Abbreviation preserves := (preserves I).
Local Abbreviation ignores_key := (ignores_key I).
Local Abbreviation ignores_graph := (ignores_graph I).

Lemma preserves_ret {A} (a : A) : preserves (ret a).
Proof. intros w H. exact H. Qed.

Lemma preserves_raise {A} e : preserves (raise (A := A) e).
Proof. intros w H. exact H. Qed.

Lemma preserves_orraise {A} e (o : option A) : preserves (orraise e o).
Proof. destruct o; [apply preserves_ret | apply preserves_raise]. Qed.

Lemma preserves_bind {A B} (c : Py A) (k : A -> Py B) :
  preserves c -> (forall a, preserves (k a)) -> preserves (bind c k).
Proof.
  intros Hc Hk w H. unfold bind. specialize (Hc w H).
  destruct (c w) as [a s | e s]; simpl in *; [apply Hk, Hc | exact Hc].
Qed.

(** A computation that raises without touching the state cuts the rest
    of the sequence off. *)
Lemma preserves_bind_raises {A B} (c : Py A) (k : A -> Py B) :
  (forall w, holds w -> exists e, c w = Raises e w) -> preserves (bind c k).
Proof.
  intros Hc w H. unfold bind. destruct (Hc w H) as [e ->]. exact H.
Qed.

Lemma preserves_try_pass (c : Py unit) : preserves c -> preserves (try_pass c).
Proof.
  intros Hc w H. unfold try_pass. specialize (Hc w H).
  destruct (c w); exact Hc.
Qed.

Lemma preserves_for_ {A} (l : list A) (body : A -> Py unit) :
  (forall x, preserves (body x)) -> preserves (for_ l body).
Proof.
  intros Hb. induction l as [|x l IH]; simpl.
  - apply preserves_ret.
  - apply preserves_bind; [apply Hb | intros _; exact IH].
Qed.

Lemma preserves_for_in {A} (l : list A) (body : A -> Py unit) :
  (forall x, x ∈ l -> preserves (body x)) -> preserves (for_ l body).
Proof.
  intros Hb. induction l as [|x l IH]; simpl.
  - apply preserves_ret.
  - apply preserves_bind; [apply Hb; left | intros _; apply IH].
    intros y Hy. apply Hb. by right.
Qed.

(** A computation that always raises, keeping the invariant, cuts the rest
    of the sequence off. *)
Lemma preserves_bind_cut {A B} (c : Py A) (k : A -> Py B) :
  raises_in I c -> preserves (bind c k).
Proof.
  intros Hc w H. unfold bind. destruct (Hc w H) as (e & w' & -> & H'). exact H'.
Qed.

Lemma raises_in_bind_l {A B} (c : Py A) (k : A -> Py B) :
  raises_in I c -> raises_in I (bind c k).
Proof.
  intros Hc w H. unfold bind. destruct (Hc w H) as (e & w' & -> & H'). eauto.
Qed.

Lemma raises_in_bind_r {A B} (c : Py A) (k : A -> Py B) :
  preserves c -> (forall a, raises_in I (k a)) -> raises_in I (bind c k).
Proof.
  intros Hc Hk w H. unfold bind. specialize (Hc w H).
  destruct (c w) as [a s | e s]; simpl in Hc; [apply Hk, Hc | eauto].
Qed.

Lemma raises_in_raise {A} e : raises_in I (raise (A := A) e).
Proof. intros w H. exists e, w. split; [reflexivity | exact H]. Qed.

Lemma preserves_for_break {A} (l : list A) (body : A -> Py bool) :
  (forall x, preserves (body x)) -> preserves (for_break l body).
Proof.
  intros Hb. induction l as [|x l IH]; simpl.
  - apply preserves_ret.
  - apply preserves_bind; [apply Hb | intros []; [apply preserves_ret | exact IH]].
Qed.

Lemma preserves_for_acc {A B} (l : list A) (body : B -> A -> Py B) acc :
  (forall acc x, preserves (body acc x)) -> preserves (for_acc l acc body).
Proof.
  intros Hb. revert acc. induction l as [|x l IH]; intros acc; simpl.
  - apply preserves_ret.
  - apply preserves_bind; [apply Hb | intros acc'; apply IH].
Qed.

(** Reading never changes the state; drawing only advances the
    generator, which invariants do not mention. *)
Lemma preserves_prop k : preserves (prop k).
Proof. intros w H. unfold prop. destruct (_ !! _); exact H. Qed.

Lemma preserves_has_prop k : preserves (has_prop k).
Proof. intros w H. exact H. Qed.

Lemma preserves_the_graph : preserves the_graph.
Proof. intros w H. unfold the_graph. destruct (_graph w); exact H. Qed.

Lemma preserves_random : preserves random.
Proof. intros w H. exact H. Qed.

Lemma preserves_set_prop k v : ignores_key k -> preserves (set_prop k v).
Proof. intros Hk w H. apply Hk, H. Qed.

Lemma preserves_set_graph g : ignores_graph -> preserves (set_graph g).
Proof. intros Hg w H. exact (Hg _ _ _ H). Qed.

Lemma preserves_set_file name doc : preserves (set_file name doc).
Proof. intros w H. exact H. Qed.

Lemma preserves_get_file name : preserves (get_file name).
Proof. intros w H. exact H. Qed.

Lemma preserves_log : preserves _log.
Proof. apply preserves_ret. Qed.

End Preserves.

Create HintDb preserves.
#[export] Hint Resolve preserves_ret preserves_raise preserves_orraise
  preserves_prop preserves_has_prop preserves_the_graph preserves_random
  preserves_set_prop preserves_set_graph preserves_set_file preserves_get_file
  preserves_log : preserves.

(** The rule that fits the head of the computation, one step at a time. *)
Ltac preserves_step :=
  lazymatch goal with
  | |- preserves _ (bind _ _) => apply preserves_bind; [ | intros ]
  | |- preserves _ (for_ _ _) => apply preserves_for_; intros
  | |- preserves _ (for_acc _ _ _) => apply preserves_for_acc; intros
  | |- preserves _ (for_break _ _) => apply preserves_for_break; intros
  | |- preserves _ (try_pass _) => apply preserves_try_pass
  | |- preserves _ (if ?b then _ else _) => destruct b
  | |- preserves _ (match ?x with _ => _ end) => destruct x
  | |- preserves _ _ => solve [eauto with preserves]
  end.

Ltac preserves_auto := repeat preserves_step.

Section PreservesLibrary.

Context (I : gmap string value -> option graph -> Prop).

Lemma preserves_choice {A} (l : list A) : preserves I (choice l).
Proof. unfold choice. preserves_auto. Qed.

Lemma preserves_as_int v : preserves I (as_int v).
Proof. unfold as_int. preserves_auto. Qed.

Lemma preserves_as_number v : preserves I (as_number v).
Proof. unfold as_number. preserves_auto. Qed.

Lemma preserves_as_strlist v : preserves I (as_strlist v).
Proof. unfold as_strlist. preserves_auto. Qed.

Lemma preserves_as_array1 v : preserves I (as_array1 v).
Proof. unfold as_array1. preserves_auto. Qed.

Lemma preserves_as_array2 v : preserves I (as_array2 v).
Proof. unfold as_array2. preserves_auto. Qed.

Lemma preserves_as_array2n v : preserves I (as_array2n v).
Proof. unfold as_array2n. preserves_auto. Qed.

Lemma preserves_as_array3 v : preserves I (as_array3 v).
Proof. unfold as_array3. preserves_auto. Qed.

Lemma preserves_as_dict v : preserves I (as_dict v).
Proof. unfold as_dict. preserves_auto. Qed.

Lemma preserves_as_intlist v : preserves I (as_intlist v).
Proof. unfold as_intlist. preserves_auto. Qed.

Lemma preserves_truth v : preserves I (truth v).
Proof.
  unfold truth. destruct v as [| | | | | |[|? [|]]|[|[|? [|]] [|]]| |[|[|[|? [|]] [|]] [|]]|];
    auto with preserves.
Qed.

Lemma preserves_to_float v : preserves I (to_float v).
Proof. unfold to_float. preserves_auto. Qed.

Lemma preserves_of_parsed {A} (p : parsed A) : preserves I (of_parsed p).
Proof. unfold of_parsed. preserves_auto. Qed.

End PreservesLibrary.

#[export] Hint Resolve preserves_choice preserves_as_int preserves_as_number
  preserves_as_strlist preserves_as_array1 preserves_as_array2
  preserves_as_array2n preserves_as_array3 preserves_as_dict
  preserves_as_intlist preserves_truth preserves_to_float preserves_of_parsed
  : preserves.

(** ** numpy indexing *)

Lemma np_index_lt len i j : np_index len i = Some j -> (j < len)%nat.
Proof.
  unfold np_index. repeat case_decide; intros [= <-]; lia.
Qed.

Lemma np_index_nonneg len i :
  0 <= i -> np_index len i = if decide (i < Z.of_nat len) then Some (Z.to_nat i) else None.
Proof.
  intros Hi. unfold np_index. repeat case_decide; try reflexivity; lia.
Qed.

Lemma np_index_of_nat len (i : nat) :
  (i < len)%nat -> np_index len (Z.of_nat i) = Some i.
Proof.
  intros Hi. rewrite np_index_nonneg by lia.
  case_decide; [by rewrite Nat2Z.id | lia].
Qed.

Lemma np_index_out_of_range len i : out_of_range len i -> np_index len i = None.
Proof.
  unfold out_of_range, np_index. intros H. repeat case_decide; try reflexivity; lia.
Qed.

Lemma np_index_distinct len u v ju jv :
  0 <= u -> 0 <= v -> u <> v ->
  np_index len u = Some ju -> np_index len v = Some jv -> ju <> jv.
Proof.
  intros Hu Hv Hne. rewrite !np_index_nonneg by assumption.
  repeat case_decide; intros [= <-] [= <-]; lia.
Qed.

Lemma item_Some {A} (l : list A) i x :
  item l i = Some x <-> exists j, np_index (length l) i = Some j /\ l !! j = Some x.
Proof.
  unfold item. destruct (np_index (length l) i) as [j|]; simpl.
  - split; [eauto | intros (j' & [= ->] & H); exact H].
  - split; [discriminate | intros (j' & [=] & _)].
Qed.

Lemma item_of_nat {A} (l : list A) (i : nat) : item l (Z.of_nat i) = l !! i.
Proof.
  unfold item. destruct (decide (i < length l)%nat) as [Hi|Hi].
  - by rewrite np_index_of_nat.
  - rewrite np_index_nonneg by lia. case_decide; [lia|].
    simpl. symmetry. apply lookup_ge_None. lia.
Qed.

Lemma item_out_of_range {A} (l : list A) i : out_of_range (length l) i -> item l i = None.
Proof. intros H. unfold item. by rewrite np_index_out_of_range. Qed.

Lemma setitem_Some {A} (l : list A) i x l' :
  setitem l i x = Some l' <->
  exists j, np_index (length l) i = Some j /\ l' = <[j := x]> l.
Proof.
  unfold setitem. destruct (np_index (length l) i) as [j|]; simpl.
  - split; [intros [= <-]; eauto | intros (j' & [= ->] & ->); reflexivity].
  - split; [discriminate | intros (j' & [=] & _)].
Qed.

Lemma setitem_out_of_range {A} (l : list A) i x :
  out_of_range (length l) i -> setitem l i x = None.
Proof. intros H. unfold setitem. by rewrite np_index_out_of_range. Qed.

Lemma entry2_insert {A} (m : list (list A)) a b x row i j :
  m !! a = Some row -> (b < length row)%nat ->
  entry2 (<[a := <[b := x]> row]> m) i j =
  if decide (i = a /\ j = b) then Some x else entry2 m i j.
Proof.
  intros Hrow Hb. unfold entry2.
  destruct (decide (i = a)) as [->|Hia].
  - rewrite list_lookup_insert_eq by (eapply lookup_lt_Some; eauto). simpl.
    rewrite Hrow. simpl.
    destruct (decide (j = b)) as [->|Hjb].
    + rewrite list_lookup_insert_eq by assumption. by rewrite decide_True.
    + rewrite list_lookup_insert_ne by congruence.
      rewrite decide_False by (intros [_ ?]; congruence). reflexivity.
  - rewrite list_lookup_insert_ne by congruence.
    rewrite decide_False by (intros [? _]; congruence). reflexivity.
Qed.

(** What a successful assignment [m[i][j] = x] does. *)
Lemma setitem2_Some {A} (m : list (list A)) i j x m' :
  setitem2 m i j x = Some m' ->
  exists a b, np_index (length m) i = Some a
    /\ (exists row, m !! a = Some row /\ np_index (length row) j = Some b)
    /\ length m' = length m
    /\ forall i' j', entry2 m' i' j' =
         if decide (i' = a /\ j' = b) then Some x else entry2 m i' j'.
Proof.
  unfold setitem2. intros H.
  destruct (item m i) as [row|] eqn:Hrow; simpl in H; [|discriminate].
  destruct (setitem row j x) as [row'|] eqn:Hrow'; simpl in H; [|discriminate].
  apply item_Some in Hrow as (a & Ha & Hma).
  apply setitem_Some in Hrow' as (b & Hb & ->).
  apply setitem_Some in H as (a' & Ha' & ->).
  assert (a' = a) as -> by congruence.
  exists a, b. split; [exact Ha|]. split; [eauto|].
  split; [apply length_insert|].
  intros i' j'. apply entry2_insert; [exact Hma | eapply np_index_lt; eauto].
Qed.

(** What a successful assignment [t[i][j][k] = x] does. *)
Lemma setitem3_Some {A} (t : list (list (list A))) i j k x t' :
  setitem3 t i j k x = Some t' ->
  exists a b c, np_index (length t) i = Some a
    /\ (exists m row, t !! a = Some m /\ np_index (length m) j = Some b
           /\ m !! b = Some row /\ np_index (length row) k = Some c)
    /\ length t' = length t
    /\ forall i' j' k', entry3 t' i' j' k' =
         if decide (i' = a /\ j' = b /\ k' = c) then Some x else entry3 t i' j' k'.
Proof.
  unfold setitem3. intros H.
  destruct (item t i) as [m|] eqn:Hm; simpl in H; [|discriminate].
  destruct (setitem2 m j k x) as [m'|] eqn:Hm'; simpl in H; [|discriminate].
  apply item_Some in Hm as (a & Ha & Hta).
  apply setitem2_Some in Hm' as (b & c & Hb & (row & Hrow & Hc) & _ & Hent).
  apply setitem_Some in H as (a' & Ha' & ->).
  assert (a' = a) as -> by congruence.
  exists a, b, c. split; [exact Ha|]. split; [by exists m, row|].
  split; [apply length_insert|].
  intros i' j' k'. unfold entry3.
  destruct (decide (i' = a)) as [->|Hia].
  - rewrite list_lookup_insert_eq by (eapply lookup_lt_Some; eauto). simpl.
    rewrite Hta. simpl. rewrite Hent.
    destruct (decide (j' = b /\ k' = c)) as [[-> ->]|Hn].
    + by rewrite decide_True.
    + rewrite decide_False by (intros (_ & ? & ?); tauto). reflexivity.
  - rewrite list_lookup_insert_ne by congruence.
    rewrite decide_False by (intros (? & _); congruence). reflexivity.
Qed.

Lemma np_index_nonneg_Some len i j :
  0 <= i -> np_index len i = Some j -> j = Z.to_nat i.
Proof.
  intros Hi. rewrite np_index_nonneg by assumption. case_decide; congruence.
Qed.

Lemma item2_entry2 {A} (m : list (list A)) (i j : nat) :
  item2 m (Z.of_nat i) (Z.of_nat j) = entry2 m i j.
Proof.
  unfold item2, entry2. rewrite item_of_nat.
  destruct (m !! i); simpl; [apply item_of_nat | reflexivity].
Qed.

Lemma item3_entry3 {A} (t : list (list (list A))) (i j k : nat) :
  item3 t (Z.of_nat i) (Z.of_nat j) (Z.of_nat k) = entry3 t i j k.
Proof.
  unfold item3, entry3. rewrite item_of_nat.
  destruct (t !! i); simpl; [apply item2_entry2 | reflexivity].
Qed.

(** ** Readers and writers of the state *)

Section Accessors.

Context (I : gmap string value -> option graph -> Prop).

Lemma preserves_weights : preserves I weights.
Proof. unfold weights. preserves_auto. Qed.

Lemma preserves_normalized_weights : preserves I normalized_weights.
Proof. unfold normalized_weights. preserves_auto. Qed.

Lemma preserves_attribute_space : preserves I attribute_space.
Proof. unfold attribute_space. preserves_auto. Qed.

Lemma preserves_masks : preserves I masks.
Proof. unfold masks. preserves_auto. Qed.

Lemma preserves_types : preserves I types.
Proof. unfold types. preserves_auto. Qed.

Lemma preserves_resistance : preserves I resistance.
Proof. unfold resistance. preserves_auto. Qed.

Hint Resolve preserves_weights preserves_normalized_weights
  preserves_attribute_space preserves_masks preserves_types
  preserves_resistance : preserves.

Lemma preserves_weights_get i j : preserves I (weights_get i j).
Proof. unfold weights_get. preserves_auto. Qed.

Lemma preserves_attribute_get i k : preserves I (attribute_get i k).
Proof. unfold attribute_get. preserves_auto. Qed.

Lemma preserves_get_neighbors u : preserves I (get_neighbors u).
Proof. unfold get_neighbors. preserves_auto. Qed.

Hint Resolve preserves_weights_get preserves_attribute_get
  preserves_get_neighbors : preserves.

Lemma preserves_get_local_average u : preserves I (get_local_average u).
Proof. unfold get_local_average. preserves_auto. Qed.

Lemma preserves_get_reward_for_neighbor u v :
  preserves I (get_reward_for_neighbor u v).
Proof. unfold get_reward_for_neighbor. preserves_auto. Qed.

Lemma preserves_weights_set i j x :
  ignores_key I "weights" -> preserves I (weights_set i j x).
Proof. intros. unfold weights_set. preserves_auto. Qed.

Lemma preserves_normalized_weights_set i j x :
  ignores_key I "normalized_weights" -> preserves I (normalized_weights_set i j x).
Proof. intros. unfold normalized_weights_set. preserves_auto. Qed.

Lemma preserves_attribute_set i k x :
  ignores_key I "attribute_space" -> preserves I (attribute_set i k x).
Proof. intros. unfold attribute_set. preserves_auto. Qed.

Lemma preserves_masks_set i j k x :
  ignores_key I "masks" -> preserves I (masks_set i j k x).
Proof. intros. unfold masks_set. preserves_auto. Qed.

Lemma preserves_flip_gate avg res i k changes :
  preserves I (flip_gate avg res i k changes).
Proof. unfold flip_gate. preserves_auto. Qed.

Hint Resolve preserves_get_local_average preserves_get_reward_for_neighbor
  preserves_weights_set preserves_normalized_weights_set
  preserves_attribute_set preserves_masks_set preserves_flip_gate : preserves.

Lemma preserves_update_weight_column u :
  ignores_key I "normalized_weights" -> preserves I (update_weight_column u).
Proof. intros. unfold update_weight_column. preserves_auto. Qed.

(** The update phase writes the attribute space and nothing else. *)
Lemma preserves_update_attributes :
  ignores_key I "attribute_space" -> preserves I update_attributes.
Proof. intros. unfold update_attributes. preserves_auto. Qed.

End Accessors.

#[export] Hint Resolve preserves_weights preserves_normalized_weights
  preserves_attribute_space preserves_masks preserves_types
  preserves_resistance preserves_weights_get preserves_attribute_get
  preserves_get_neighbors preserves_get_local_average
  preserves_get_reward_for_neighbor
  preserves_weights_set preserves_normalized_weights_set
  preserves_attribute_set preserves_masks_set preserves_flip_gate
  preserves_update_weight_column : preserves.

(** ** The frame of the update phase *)

(** C10.  [update_attributes] changes the entry [attribute_space] of the
    properties and nothing else: the graph and every other entry (raw and
    normalized weights, masks, resistance, types) are, in the state it
    ends in, what they were before.  In particular no mask entry follows
    a flipped coordinate. *)
Theorem update_attributes_frame (w : World) :
  _graph (final (update_attributes w)) = _graph w
  /\ forall key, key <> "attribute_space" ->
       _properties (final (update_attributes w)) !! key = _properties w !! key.
Proof.
  pose (I := fun (P : gmap string value) (G : option graph) =>
               G = _graph w /\
               forall key, key <> "attribute_space" ->
                           P !! key = _properties w !! key).
  assert (Hk : ignores_key I "attribute_space").
  { intros P G v [HG HP]. split; [exact HG|].
    intros key Hne. rewrite lookup_insert_ne by congruence. auto. }
  apply (preserves_update_attributes I Hk w). split; auto.
Qed.

(** ** Comparisons of rationals *)

Lemma Qltb_lt a b : Qltb a b = true <-> (a < b)%Q.
Proof.
  unfold Qltb. rewrite negb_true_iff, <- not_true_iff_false, Qle_bool_iff.
  split; [apply Qnot_le_lt | apply Qlt_not_le].
Qed.

Lemma Qltb_ge a b : Qltb a b = false <-> (b <= a)%Q.
Proof.
  unfold Qltb. rewrite negb_false_iff, Qle_bool_iff. reflexivity.
Qed.

Lemma Qeqb_eq a b : Qeqb a b = true <-> (a == b)%Q.
Proof. apply Qeq_bool_iff. Qed.

(** ** Running the primitives *)

Lemma prop_run w k v : _properties w !! k = Some v -> prop k w = Returns v w.
Proof. intros H. unfold prop. by rewrite H. Qed.

Lemma bind_Returns {A B} (c : Py A) (k : A -> Py B) w a w' :
  c w = Returns a w' -> bind c k w = k a w'.
Proof. intros H. unfold bind. by rewrite H. Qed.

Lemma bind_Raises {A B} (c : Py A) (k : A -> Py B) w e w' :
  c w = Raises e w' -> bind c k w = Raises e w'.
Proof. intros H. unfold bind. by rewrite H. Qed.

Lemma masks_run w M : mask_tensor w = Some M -> masks w = Returns M w.
Proof.
  unfold mask_tensor, masks, bind, prop. intros H.
  destruct (_properties w !! "masks") as [[]|]; try discriminate.
  by injection H as ->.
Qed.

Lemma masks_set_run w M M' i j k x :
  mask_tensor w = Some M -> setitem3 M i j k x = Some M' ->
  masks_set i j k x w = Returns tt (with_prop "masks" (Array3 M') w).
Proof.
  intros HM Hset. unfold masks_set.
  rewrite (bind_Returns _ _ _ _ _ (masks_run _ _ HM)).
  rewrite Hset. reflexivity.
Qed.

Lemma masks_set_raises w M i j k x :
  mask_tensor w = Some M -> setitem3 M i j k x = None ->
  masks_set i j k x w = Raises IndexError w.
Proof.
  intros HM Hset. unfold masks_set.
  rewrite (bind_Returns _ _ _ _ _ (masks_run _ _ HM)).
  rewrite Hset. reflexivity.
Qed.

(** ** The probability gate of [disconnect] *)

(** C2.  [disconnect] draws a number and returns at once, leaving graph,
    weights and masks as they were, when the draw is below the unfriend
    probability: the call is a no-op with probability [unfriend], not
    [1 - unfriend]. *)
Theorem disconnect_noop_below_unfriend (w : World) (u v : Z) (p : Q) :
  _properties w !! "unfriend" = Some (Float p) ->
  (next_draw w < p)%Q ->
  disconnect u v w = Returns tt (advance w).
Proof.
  intros Hp Hr. unfold disconnect.
  unfold bind at 1. unfold random at 1. fold (advance w). fold (next_draw w).
  rewrite (bind_Returns _ _ (advance w) (Float p) (advance w)) by (by apply prop_run).
  unfold bind, as_number, ret.
  apply Qltb_lt in Hr. by rewrite Hr.
Qed.

(** With the default unfriend probability 1.0 and a draw of 1/4, the edge
    between the two nodes survives the call. *)
Lemma disconnect_noop_below_unfriend_witness :
  exists w, SocialNetwork pair_props (fresh draws_34_14) = Returns tt w
    /\ _properties w !! "unfriend" = Some (Float 1)
    /\ (next_draw w < 1)%Q
    /\ disconnect 0 1 w = Returns tt (advance w)
    /\ (g ← _graph (advance w); Some (nx.has_edge g 0 1)) = Some true.
Proof.
  exists pair_world. split; [vm_compute; reflexivity|].
  split; [vm_compute; reflexivity|]. split; [vm_compute; reflexivity|].
  split; [|vm_compute; reflexivity].
  apply (disconnect_noop_below_unfriend pair_world 0 1 1); vm_compute; reflexivity.
Defined.

(** With unfriend probability 0 every call goes through: the same edge is
    removed whatever the draw. *)
Lemma disconnect_unfriend0_removes_edge :
  exists w w', SocialNetwork pair_props_unfriend0 (fresh draws_34_14) = Returns tt w
    /\ disconnect 0 1 w = Returns tt w'
    /\ (g ← _graph w; Some (nx.has_edge g 0 1)) = Some true
    /\ (g ← _graph w'; Some (nx.has_edge g 0 1)) = Some false.
Proof.
  exists pair0_world, (final (disconnect 0 1 pair0_world)).
  split; [vm_compute; reflexivity|]. split; [vm_compute; reflexivity|].
  split; vm_compute; reflexivity.
Qed.

(** ** Reading back what was written *)

Lemma item_setitem_same {A} (l : list A) i x l' :
  setitem l i x = Some l' -> item l' i = Some x.
Proof.
  intros H. apply setitem_Some in H as (j & Hj & ->).
  unfold item. rewrite length_insert, Hj. simpl.
  apply list_lookup_insert_eq. eapply np_index_lt; eauto.
Qed.

Lemma item2_setitem2_same {A} (m : list (list A)) i j x m' :
  setitem2 m i j x = Some m' -> item2 m' i j = Some x.
Proof.
  unfold setitem2, item2. intros H.
  destruct (item m i) as [row|]; simpl in H; [|discriminate].
  destruct (setitem row j x) as [row'|] eqn:Hrow; simpl in H; [|discriminate].
  rewrite (item_setitem_same _ _ _ _ H). simpl.
  eapply item_setitem_same; eauto.
Qed.

Lemma item3_setitem3_same {A} (t : list (list (list A))) i j k x t' :
  setitem3 t i j k x = Some t' -> item3 t' i j k = Some x.
Proof.
  unfold setitem3, item3. intros H.
  destruct (item t i) as [m|]; simpl in H; [|discriminate].
  destruct (setitem2 m j k x) as [m'|] eqn:Hm; simpl in H; [|discriminate].
  rewrite (item_setitem_same _ _ _ _ H). simpl.
  eapply item2_setitem2_same; eauto.
Qed.

Lemma mask_tensor_with_prop w M : mask_tensor (with_prop "masks" (Array3 M) w) = Some M.
Proof. unfold mask_tensor, with_prop. simpl. by rewrite lookup_insert_eq. Qed.

(** ** [reveal] and [hide] *)

(** Whenever [hide( u, v, k )] returns, the entry [M[v][u][k]] is 0. *)
Lemma hide_sets_zero (w w' : World) (u v k : Z) (M : list (list (list Q))) :
  mask_tensor w = Some M ->
  hide u v k w = Returns tt w' ->
  (M' ← mask_tensor w'; item3 M' v u k) = Some 0%Q.
Proof.
  intros HM. unfold hide.
  destruct (setitem3 M v u k 0%Q) as [M'|] eqn:Hset.
  - rewrite (masks_set_run _ _ _ _ _ _ _ HM Hset). intros [= <-].
    rewrite mask_tensor_with_prop. simpl. eapply item3_setitem3_same; eauto.
  - rewrite (masks_set_raises _ _ _ _ _ _ HM Hset). discriminate.
Qed.

(** Whenever [reveal( u, v, k )] returns, the entry [M[v][u][k]] is 1,
    whatever the opinion of [u]. *)
Lemma reveal_sets_one (w w' : World) (u v k : Z) (M : list (list (list Q))) :
  mask_tensor w = Some M ->
  reveal u v k w = Returns tt w' ->
  (M' ← mask_tensor w'; item3 M' v u k) = Some 1%Q
  /\ opinions w' = opinions w.
Proof.
  intros HM. unfold reveal.
  destruct (setitem3 M v u k 1%Q) as [M'|] eqn:Hset.
  - rewrite (masks_set_run _ _ _ _ _ _ _ HM Hset). intros [= <-].
    rewrite mask_tensor_with_prop. simpl. split; [eapply item3_setitem3_same; eauto|].
    unfold opinions, with_prop. simpl. by rewrite lookup_insert_ne.
  - rewrite (masks_set_raises _ _ _ _ _ _ HM Hset). discriminate.
Qed.

(** C4.  In the pair, node 1 holds the opinion -1.  After
    [reveal( 1, 0, 0 )] node 0 perceives +1 there: the entry written is the
    constant 1, not the opinion of the revealing node. *)
Theorem reveal_writes_one_for_opinion_minus_one :
  exists w w', SocialNetwork pair_props (fresh draws_34_14) = Returns tt w
    /\ reveal 1 0 0 w = Returns tt w'
    /\ (A ← opinions w'; item2 A 1 0) = Some (-1)%Q
    /\ (M ← mask_tensor w'; item3 M 0 1 0) = Some 1%Q.
Proof.
  exists pair_world, (final (reveal 1 0 0 pair_world)).
  split; [vm_compute; reflexivity|]. split; [vm_compute; reflexivity|].
  split; vm_compute; reflexivity.
Qed.

(** ** Disconnecting a node from itself *)

(** C7.  A single node, unfriend probability 0.  After
    [disconnect( 0, 0 )] the self-weight is 0, the divisor that
    [update_weight_column( 0 )] computes is 0, and the division by it left
    [inf] in the normalized matrix. *)
Theorem disconnect_self_makes_total_zero :
  exists w w', SocialNetwork single_props_unfriend0 (fresh draws_34_14) = Returns tt w
    /\ raw_weights w = Some [[1%Q]]
    /\ disconnect 0 0 w = Returns tt w'
    /\ raw_weights w' = Some [[0%Q]]
    /\ (W ← raw_weights w'; total_influence W 0) = Some 0%Q
    /\ normalized w' = Some [[Infinity false]].
Proof.
  exists single0_world, (final (disconnect 0 0 single0_world)).
  split; [vm_compute; reflexivity|]. split; [vm_compute; reflexivity|].
  split; [vm_compute; reflexivity|]. split; [vm_compute; reflexivity|].
  split; vm_compute; reflexivity.
Qed.

(** C3.  Two connected nodes with weight 1, unfriend probability 0.  After
    construction every column of the normalized matrix sums to 1; after
    [disconnect( 0, 0 )] column 0 sums to 2. *)
Theorem disconnect_self_breaks_normalization :
  exists w w', SocialNetwork pair_props_unfriend0 (fresh draws_34_14) = Returns tt w
    /\ column_sums_to w 0 1 /\ column_sums_to w 1 1
    /\ disconnect 0 0 w = Returns tt w'
    /\ column_sums_to w' 0 2.
Proof.
  exists pair0_world, (final (disconnect 0 0 pair0_world)).
  split; [vm_compute; reflexivity|].
  split; [eexists _, _; split; [vm_compute; reflexivity|]; split; vm_compute; reflexivity|].
  split; [eexists _, _; split; [vm_compute; reflexivity|]; split; vm_compute; reflexivity|].
  split; [vm_compute; reflexivity|].
  eexists _, _; split; [vm_compute; reflexivity|]; split; vm_compute; reflexivity.
Qed.

(** ** Out-of-range and aliased node indices *)

(** C6, as stated, fails on the pair (n = 2): [reveal( 0, 2, 0 )] raises
    [IndexError]; [connect( 0, 2 )] records node 2 and the edge 0-2 in the
    graph before it raises; and [hide( 0, -1, 0 )] silently zeroes the view
    that node 1 has of node 0. *)
Lemma out_of_range_operations_are_not_noops :
  exists w, SocialNetwork pair_props (fresh draws_34_14) = Returns tt w
    /\ reveal 0 2 0 w = Raises IndexError w
    /\ (exists w', connect 0 2 w = Raises IndexError w'
          /\ (nodes <$> _graph w) = Some [0; 1]
          /\ (nodes <$> _graph w') = Some [0; 1; 2]
          /\ (g ← _graph w'; Some (nx.has_edge g 0 2)) = Some true)
    /\ (exists w', hide 0 (-1) 0 w = Returns tt w'
          /\ (M ← mask_tensor w; item3 M 1 0 0) = Some 1%Q
          /\ (M ← mask_tensor w'; item3 M 1 0 0) = Some 0%Q).
Proof.
  exists pair_world. split; [vm_compute; reflexivity|].
  split; [vm_compute; reflexivity|]. split.
  - exists (final (connect 0 2 pair_world)). split; [vm_compute; reflexivity|].
    split; [vm_compute; reflexivity|]. split; vm_compute; reflexivity.
  - exists (final (hide 0 (-1) 0 pair_world)). split; [vm_compute; reflexivity|].
    split; vm_compute; reflexivity.
Qed.

(** ** Unknown topology tags *)

(** C5.  When the topology tag is not admissible, [_build] looks the
    attribute [log] up on the object, which does not exist (the method is
    [_log]): [AttributeError] is raised at once, nothing has been changed,
    and in particular no graph has been created. *)
Theorem build_unknown_topology_raises
    (erdos_renyi_graph : Z -> value -> value -> option value -> exn + list (Z * Z))
    (scale_free_graph : Z -> option value -> exn + list (Z * Z))
    (watts_strogatz_graph : Z -> Z -> value -> option value -> exn + list (Z * Z))
    (w : World) (t : value) :
  _properties w !! "topology" = Some t ->
  in_strings t TOPOLOGIES = false ->
  _build erdos_renyi_graph scale_free_graph watts_strogatz_graph w
  = Raises AttributeError w.
Proof.
  intros Ht Hno. unfold _build.
  rewrite (bind_Returns _ _ w t w) by (by apply prop_run).
  rewrite Hno. reflexivity.
Qed.

Lemma build_unknown_topology_raises_witness :
  _properties grid_world !! "topology" = Some (Str "grid")
  /\ in_strings (Str "grid") TOPOLOGIES = false
  /\ _build (fun _ _ _ _ => inl Unmodelled) (fun _ _ => inl Unmodelled)
       (fun _ _ _ _ => inl Unmodelled) grid_world = Raises AttributeError grid_world.
Proof.
  split; [vm_compute; reflexivity|]. split; [vm_compute; reflexivity|].
  apply (build_unknown_topology_raises _ _ _ _ (Str "grid")); vm_compute; reflexivity.
Defined.

(** The constructor fails in the same way, and leaves an object without a
    graph. *)
Lemma constructor_unknown_topology_raises :
  exists w, SocialNetwork grid_props (fresh draws_34_14) = Raises AttributeError w
    /\ _graph w = None
    /\ _properties w !! "weights" = None.
Proof.
  exists (final (SocialNetwork grid_props (fresh draws_34_14))).
  split; [vm_compute; reflexivity|]. split; vm_compute; reflexivity.
Qed.

(** ** The reward of a neighbour *)

Lemma attribute_space_run w A : opinions w = Some A -> attribute_space w = Returns A w.
Proof.
  unfold opinions, attribute_space, bind, prop. intros H.
  destruct (_properties w !! "attribute_space") as [[]|]; try discriminate.
  by injection H as ->.
Qed.

Lemma types_run w ts :
  _properties w !! "types" = Some (StrList ts) -> types w = Returns ts w.
Proof. intros H. unfold types, bind, prop. by rewrite H. Qed.

Lemma range_of_nat (n : nat) : range (Z.of_nat n) = Z.of_nat <$> seq 0 n.
Proof. unfold range. by rewrite Nat2Z.id. Qed.

Lemma omap_seq_shift {A} (f : nat -> option A) s n :
  omap f (seq (S s) n) = omap (fun i => f (S i)) (seq s n).
Proof.
  revert s. induction n as [|n IH]; intros s; simpl; [reflexivity|].
  rewrite IH. reflexivity.
Qed.

Section Visible.

Context (vec1 vec2 : list Q).

Lemma visible_loop (l : list nat) (acc : list Q) (w : World) :
  (forall i, i ∈ l -> (i < length vec1)%nat) ->
  length vec1 = length vec2 ->
  for_acc (Z.of_nat <$> l) acc (fun acc i =>
      m <- orraise IndexError (item vec2 i) ;;
      if negb (Qeqb m 0) then
        x <- orraise IndexError (item vec1 i) ;; ret (acc ++ [x])%list
      else ret acc) w
  = Returns (acc ++ omap (pick vec1 vec2) l)%list w.
Proof.
  intros Hl Hlen. revert acc. induction l as [|i l IH]; intros acc.
  - simpl. by rewrite app_nil_r.
  - rewrite fmap_cons. simpl.
    assert (Hi : (i < length vec1)%nat) by (apply Hl; left).
    destruct (lookup_lt_is_Some_2 vec1 i Hi) as [x Hx].
    destruct (lookup_lt_is_Some_2 vec2 i ltac:(lia)) as [m Hm].
    erewrite bind_Returns; cycle 1.
    { rewrite item_of_nat, Hm. unfold orraise at 1.
      erewrite bind_Returns by reflexivity.
      rewrite item_of_nat, Hx. unfold orraise.
      instantiate (1 := w).
      instantiate (1 := (acc ++ match pick vec1 vec2 i with Some y => [y] | None => [] end)%list).
      unfold pick. rewrite Hm, Hx.
      destruct (Qeqb m 0); simpl; [by rewrite app_nil_r | reflexivity]. }
    rewrite IH by (intros j Hj; apply Hl; by right).
    rewrite <- app_assoc. destruct (pick vec1 vec2 i); reflexivity.
Qed.

End Visible.

Lemma omap_pick_visible (vec1 vec2 : list Q) :
  length vec1 = length vec2 ->
  omap (pick vec1 vec2) (seq 0 (length vec1)) = visible_part vec1 vec2.
Proof.
  revert vec2. induction vec1 as [|x vec1 IH]; intros [|m vec2] Hlen;
    try discriminate; [reflexivity|].
  simpl length. simpl seq. cbn [omap list_omap]. rewrite omap_seq_shift.
  unfold visible_part. simpl zip. rewrite filter_cons. simpl snd.
  unfold pick at 1. simpl.
  change (omap (fun i => pick (x :: vec1) (m :: vec2) (S i)) (seq 0 (length vec1)))
    with (omap (pick vec1 vec2) (seq 0 (length vec1))).
  rewrite IH by (simpl in Hlen; lia). unfold visible_part.
  destruct (Qeqb m 0); reflexivity.
Qed.

Lemma visible_part_length (vec1 vec2 : list Q) :
  length vec1 = length vec2 ->
  length (visible_part vec1 vec2)
  = length (filter (fun m => Qeqb m 0 = false) vec2).
Proof.
  revert vec2. induction vec1 as [|x vec1 IH]; intros [|m vec2] Hlen;
    try discriminate; [reflexivity|].
  unfold visible_part. simpl zip. rewrite !filter_cons. simpl snd.
  destruct (decide (Qeqb m 0 = false)); simpl; rewrite <- IH by (simpl in Hlen; lia);
    reflexivity.
Qed.

Lemma visible_part_nil (vec1 vec2 : list Q) :
  (forall x, x ∈ vec2 -> (x == 0)%Q) -> visible_part vec1 vec2 = [].
Proof.
  revert vec2. induction vec1 as [|x vec1 IH]; intros [|m vec2] H; try reflexivity.
  unfold visible_part. simpl zip. rewrite filter_cons. simpl snd.
  assert (Hm : Qeqb m 0 = true) by (apply Qeqb_eq, H; left).
  rewrite decide_False by (rewrite Hm; discriminate).
  apply IH. intros y Hy. apply H. by right.
Qed.

(** The Hamming distance is a proportion. *)
Lemma hamming_range (a b : list Q) (d : Q) :
  a <> [] -> hamming a b = Some d -> (0 <= d <= 1)%Q.
Proof.
  intros Ha. unfold hamming. case_decide as Hlen; [|discriminate]. intros [= <-].
  set (c := length (filter _ (zip a b))).
  assert (Hc : (c <= length a)%nat).
  { unfold c. etransitivity; [apply length_filter|].
    rewrite length_zip_with. lia. }
  assert (Hpos : (0 < length a)%nat) by (destruct a; [done | simpl; lia]).
  assert (H0 : (0 <= inject_Z (Z.of_nat c))%Q).
  { change 0%Q with (inject_Z 0). rewrite <- Zle_Qle. lia. }
  assert (H1 : (inject_Z (Z.of_nat c) <= inject_Z (Z.of_nat (length a)))%Q).
  { rewrite <- Zle_Qle. lia. }
  assert (H2 : (0 < inject_Z (Z.of_nat (length a)))%Q).
  { change 0%Q with (inject_Z 0). rewrite <- Zlt_Qlt. lia. }
  split.
  - apply Qle_shift_div_l; [exact H2|]. lra.
  - apply Qle_shift_div_r; [exact H2|]. lra.
Qed.

(** C8.  In a state with opinions, masks and types of matching shapes,
    where [u] has one of the six archetypes, [get_reward_for_neighbor]
    returns a number between 0 and 1; it returns exactly 0 when [u] sees no
    coordinate of [v]. *)
Theorem reward_in_unit_interval
    (w : World) (u v : Z) (A : list (list Q)) (M : list (list (list Q)))
    (ts : list string) (t : string) (vec1 vec2 : list Q) :
  opinions w = Some A ->
  mask_tensor w = Some M ->
  _properties w !! "types" = Some (StrList ts) ->
  item ts u = Some t ->
  t ∈ archetypes ->
  item A u = Some vec1 ->
  item2 M u v = Some vec2 ->
  length vec1 = length vec2 ->
  exists r : Q,
    get_reward_for_neighbor u v w = Returns (Some r) w
    /\ (0 <= r <= 1)%Q
    /\ ((forall x, x ∈ vec2 -> (x == 0)%Q) -> r = 0%Q).
Proof.
  intros HA HM Hts Ht Harch Hv1 Hv2 Hlen.
  unfold get_reward_for_neighbor.
  rewrite (bind_Returns _ _ _ _ _ (attribute_space_run _ _ HA)).
  rewrite Hv1. unfold orraise at 1. rewrite (bind_Returns _ _ w vec1 w) by reflexivity.
  rewrite (bind_Returns _ _ _ _ _ (masks_run _ _ HM)).
  rewrite Hv2. unfold orraise at 1. rewrite (bind_Returns _ _ w vec2 w) by reflexivity.
  rewrite range_of_nat.
  rewrite (bind_Returns _ _ w (visible_part vec1 vec2) w); cycle 1.
  { rewrite visible_loop; [|intros i Hi; apply elem_of_seq in Hi; lia|exact Hlen].
    by rewrite app_nil_l, omap_pick_visible. }
  destruct (visible_part vec1 vec2) as [|x0 vis] eqn:Hvis.
  { exists 0%Q. split; [reflexivity|]. split; [lra|]. reflexivity. }
  assert (Hd : exists d, hamming (x0 :: vis) (filter (fun m => Qeqb m 0 = false) vec2)
                         = Some d /\ (0 <= d <= 1)%Q).
  { destruct (hamming (x0 :: vis) _) as [d|] eqn:Hh.
    - exists d. split; [reflexivity|]. eapply hamming_range; [|exact Hh]. discriminate.
    - exfalso. unfold hamming in Hh. case_decide as Hl; [discriminate|].
      apply Hl. rewrite <- Hvis. by apply visible_part_length. }
  destruct Hd as (d & Hh & Hd0 & Hd1). rewrite Hh.
  unfold orraise at 1. rewrite (bind_Returns _ _ w d w) by reflexivity.
  rewrite (bind_Returns _ _ _ _ _ (types_run _ _ Hts)).
  rewrite Ht. unfold orraise.
  assert (Hnil : (forall x, x ∈ vec2 -> (x == 0)%Q) -> False).
  { intros Hz. rewrite (visible_part_nil vec1 vec2 Hz) in Hvis. discriminate. }
  unfold archetypes in Harch.
  repeat (apply elem_of_cons in Harch as [->|Harch]); [..|by apply elem_of_nil in Harch].
  - (* R *) exists (1 - d)%Q. split; [reflexivity|]. split; [lra|tauto].
  - (* E *) exists d. split; [reflexivity|]. split; [lra|tauto].
  - (* SC *)
    exists (1 - Qabs (d - (1 # 2)) * 2)%Q. split; [reflexivity|].
    split; [|tauto].
    pose proof (Qabs_nonneg (d - (1 # 2))).
    assert (Qabs (d - (1 # 2)) <= 1 # 2)%Q by (apply Qabs_Qle_condition; lra).
    lra.
  - (* DA *) exists (1 - d)%Q. split; [reflexivity|]. split; [lra|tauto].
  - (* RWC *) exists d. split; [reflexivity|]. split; [lra|tauto].
  - (* SR *)
    exists (1 - Qabs (d - (1 # 2)) * 2)%Q. split; [reflexivity|].
    split; [|tauto].
    pose proof (Qabs_nonneg (d - (1 # 2))).
    assert (Qabs (d - (1 # 2)) <= 1 # 2)%Q by (apply Qabs_Qle_condition; lra).
    lra.
Qed.

(** ** Self-perception: what the operations do to the diagonal *)

Lemma elem_of_range (n x : Z) : x ∈ range n -> 0 <= x < n.
Proof.
  unfold range. intros H. apply list_elem_of_fmap in H as (i & -> & Hi).
  apply elem_of_seq in Hi. lia.
Qed.

(** Writing the opinion [A[i][k]] at [M[j][i][k]] keeps the diagonal right,
    whichever row [j] is. *)
Lemma diagonal_after_same (A : list (list Q)) (M M' : list (list (list Q)))
    (i j k : Z) (x : Q) (i' k' : nat) (x' : Q) :
  0 <= i -> 0 <= k ->
  item2 A i k = Some x ->
  setitem3 M j i k x = Some M' ->
  entry2 A i' k' = Some x' ->
  entry3 M i' i' k' = Some x' ->
  entry3 M' i' i' k' = Some x'.
Proof.
  intros Hi Hk HA Hset HA' HM.
  apply setitem3_Some in Hset as (a & b & c & Ha & (m & row & _ & Hb & _ & Hc) & _ & Hent).
  rewrite Hent. case_decide as Hd; [|exact HM].
  destruct Hd as (-> & Hib & ->).
  apply np_index_nonneg_Some in Hb, Hc; try assumption. subst a b c.
  rewrite <- item2_entry2, !Z2Nat.id in HA' by assumption. congruence.
Qed.

(** Writing anything at [M[a][b][k]] for two different nodes [a] and [b]
    leaves the diagonal alone. *)
Lemma diagonal_after_other (M M' : list (list (list Q))) (a b k : Z) (x : Q)
    (i' k' : nat) :
  0 <= a -> 0 <= b -> a <> b ->
  setitem3 M a b k x = Some M' ->
  entry3 M' i' i' k' = entry3 M i' i' k'.
Proof.
  intros Ha Hb Hab Hset.
  apply setitem3_Some in Hset as (a' & b' & c & Ha' & (m & row & _ & Hb' & _) & _ & Hent).
  rewrite Hent. case_decide as Hd; [|reflexivity].
  destruct Hd as (-> & Heq & _).
  apply np_index_nonneg_Some in Ha', Hb'; try assumption. lia.
Qed.

Section Diagonal.

Context (A : list (list Q)) (D : nat -> nat -> Prop).

Local Abbreviation inv := (self_perception_on A D).

Lemma diagonal_ignores_key k :
  k <> "masks" -> k <> "attribute_space" -> ignores_key inv k.
Proof.
  intros H1 H2 P G v (HA & M & HM & Hd). split.
  - by rewrite lookup_insert_ne.
  - exists M. split; [by rewrite lookup_insert_ne | exact Hd].
Qed.

Lemma diagonal_ignores_weights : ignores_key inv "weights".
Proof. by apply diagonal_ignores_key. Qed.

Lemma diagonal_ignores_normalized_weights : ignores_key inv "normalized_weights".
Proof. by apply diagonal_ignores_key. Qed.

Lemma diagonal_ignores_graph : ignores_graph inv.
Proof. intros P G G' H. exact H. Qed.

Hint Resolve diagonal_ignores_weights diagonal_ignores_normalized_weights
  diagonal_ignores_graph : preserves.

Lemma opinions_of_inv w : holds inv w -> opinions w = Some A.
Proof. intros (HA & _). unfold opinions. by rewrite HA. Qed.

Lemma preserves_write_same (i j k : Z) :
  0 <= i -> 0 <= k ->
  preserves inv (x <- attribute_get i k ;; masks_set j i k x).
Proof.
  intros Hi Hk w Hw. pose proof Hw as (HA & M & HM & Hd).
  unfold attribute_get.
  unfold bind at 1.
  rewrite (bind_Returns _ _ _ _ _ (attribute_space_run _ _ (opinions_of_inv _ Hw))).
  destruct (item2 A i k) as [x|] eqn:Hx; simpl; [|exact Hw].
  assert (HMw : mask_tensor w = Some M) by (unfold mask_tensor; by rewrite HM).
  destruct (setitem3 M j i k x) as [M'|] eqn:Hset.
  - rewrite (masks_set_run _ _ _ _ _ _ _ HMw Hset).
    unfold holds, with_prop. simpl. split.
    + by rewrite lookup_insert_ne.
    + exists M'. split; [by rewrite lookup_insert_eq|].
      intros i' k' x' Hlt HA'.
      apply (diagonal_after_same A M M' i j k x); auto.
  - rewrite (masks_set_raises _ _ _ _ _ _ HMw Hset). exact Hw.
Qed.

Lemma preserves_write_other (a b k : Z) (x : Q) :
  0 <= a -> 0 <= b -> a <> b -> preserves inv (masks_set a b k x).
Proof.
  intros Ha Hb Hab w Hw. pose proof Hw as (HA & M & HM & Hd).
  assert (HMw : mask_tensor w = Some M) by (unfold mask_tensor; by rewrite HM).
  destruct (setitem3 M a b k x) as [M'|] eqn:Hset.
  - rewrite (masks_set_run _ _ _ _ _ _ _ HMw Hset).
    unfold holds, with_prop. simpl. split.
    + by rewrite lookup_insert_ne.
    + exists M'. split; [by rewrite lookup_insert_eq|].
      intros i' k' x' Hlt HA'.
      rewrite (diagonal_after_other _ _ _ _ _ _ _ _ Ha Hb Hab Hset). eauto.
  - rewrite (masks_set_raises _ _ _ _ _ _ HMw Hset). exact Hw.
Qed.

(** The loop that copies the opinions of [i] into the view of [j]. *)
Lemma preserves_copy_loop (i j K : Z) :
  0 <= i ->
  preserves inv (for_ (range K) (fun k => x <- attribute_get i k ;; masks_set j i k x)).
Proof.
  intros Hi. apply preserves_for_in. intros k Hk.
  apply preserves_write_same; [exact Hi | apply elem_of_range in Hk; lia].
Qed.

Lemma raises_in_graph_attribute key : raises_in inv (graph_attribute key).
Proof.
  intros w Hw. unfold graph_attribute, bind, the_graph.
  destruct (_graph w); eauto.
Qed.

Ltac diagonal_step :=
  first [ apply preserves_copy_loop; assumption
        | apply preserves_bind_cut; apply raises_in_graph_attribute
        | apply preserves_write_other; solve [assumption | congruence]
        | preserves_step ].

Lemma diagonal_connect (u v : Z) : 0 <= u -> 0 <= v -> preserves inv (connect u v).
Proof. intros Hu Hv. unfold connect. repeat diagonal_step. Qed.

Lemma diagonal_disconnect (u v : Z) :
  0 <= u -> 0 <= v -> u <> v -> preserves inv (disconnect u v).
Proof. intros Hu Hv Huv. unfold disconnect. repeat diagonal_step. Qed.

Lemma diagonal_reveal (u v k : Z) :
  0 <= u -> 0 <= v -> u <> v -> preserves inv (reveal u v k).
Proof. intros Hu Hv Huv. unfold reveal. repeat diagonal_step. Qed.

Lemma diagonal_hide (u v k : Z) :
  0 <= u -> 0 <= v -> u <> v -> preserves inv (hide u v k).
Proof. intros Hu Hv Huv. unfold hide. repeat diagonal_step. Qed.

End Diagonal.

Lemma self_perception_on_all P G :
  self_perception P G <-> exists A, self_perception_on A (fun _ _ => True) P G.
Proof.
  split.
  - intros (M & A & HM & HA & Hd). exists A. split; [exact HA|].
    exists M. split; [exact HM|]. intros i k x _. apply Hd.
  - intros (A & HA & M & HM & Hd). exists M, A. split; [exact HM|].
    split; [exact HA|]. intros i k x Hx. by apply Hd.
Qed.

Lemma self_perception_preserved {B} (c : Py B) :
  (forall A D, preserves (self_perception_on A D) c) ->
  preserves self_perception c.
Proof.
  intros Hc w Hw. unfold holds in Hw.
  apply self_perception_on_all in Hw as (A & Hw).
  unfold holds. apply self_perception_on_all.
  exists A. exact (Hc A _ w Hw).
Qed.

(** ** Self-perception: what [initialize_masks] establishes *)

Lemma bind_Returns_inv {A B} (c : Py A) (k : A -> Py B) w b w' :
  bind c k w = Returns b w' ->
  exists a w1, c w = Returns a w1 /\ k a w1 = Returns b w'.
Proof.
  unfold bind. destruct (c w) as [a w1|e w1]; [eauto | discriminate].
Qed.

Lemma orraise_Returns_inv {A} e (o : option A) (w w' : World) a :
  orraise e o w = Returns a w' -> o = Some a /\ w' = w.
Proof. destruct o; simpl; [intros [= -> ->]; auto | discriminate]. Qed.

(** A loop over consecutive indices that returns has gone through its
    invariant step by step. *)
Lemma for_seq_returns (J : nat -> World -> Prop) (body : Z -> Py unit) s n w w' :
  J s w ->
  (forall i w1 w2, (s <= i < s + n)%nat ->
     J i w1 -> body (Z.of_nat i) w1 = Returns tt w2 -> J (S i) w2) ->
  for_ (Z.of_nat <$> seq s n) body w = Returns tt w' ->
  J (s + n)%nat w'.
Proof.
  revert s w. induction n as [|n IH]; intros s w Hs Hstep Hret.
  - simpl in Hret. injection Hret as <-. by rewrite Nat.add_0_r.
  - simpl in Hret. apply bind_Returns_inv in Hret as ([] & w1 & Hb & Hrest).
    replace (s + S n)%nat with (S s + n)%nat by lia.
    apply (IH (S s) w1); [apply (Hstep s w); [lia | assumption..] | | exact Hrest].
    intros i wa wb Hi. apply Hstep. lia.
Qed.

Lemma zeros3_of_nat (n m k : nat) :
  zeros3 (Z.of_nat n) (Z.of_nat m) (Z.of_nat k)
  = Some (replicate n (replicate m (replicate k 0%Q))).
Proof.
  unfold zeros3. rewrite decide_False by lia. by rewrite !Nat2Z.id.
Qed.

Section Initialize.

Context (A : list (list Q)).

Lemma self_perception_on_weaken (D D' : nat -> nat -> Prop) P G :
  self_perception_on A D P G ->
  (forall i k x, D' i k -> entry2 A i k = Some x -> D i k) ->
  self_perception_on A D' P G.
Proof.
  intros (HA & M & HM & Hd) Hsub. split; [exact HA|].
  exists M. split; [exact HM|]. intros i k x Hi Hx. eauto.
Qed.

(** The assignment [masks[i][i][k] = attribute_space[i][k]], when it goes
    through, adds the coordinate [k] of node [i] to those that are right. *)
Lemma write_self_extends (D : nat -> nat -> Prop) (i k : nat) (w w2 : World) :
  holds (self_perception_on A D) w ->
  (x <- attribute_get (Z.of_nat i) (Z.of_nat k) ;;
   masks_set (Z.of_nat i) (Z.of_nat i) (Z.of_nat k) x) w = Returns tt w2 ->
  holds (self_perception_on A (fun i' k' => D i' k' \/ (i' = i /\ k' = k))) w2.
Proof.
  intros Hw Hret. pose proof Hw as (HA & M & HM & Hd).
  apply bind_Returns_inv in Hret as (x & w1 & Hget & Hset).
  unfold attribute_get in Hget.
  rewrite (bind_Returns _ _ _ _ _ (attribute_space_run _ _ (opinions_of_inv _ _ _ Hw)))
    in Hget.
  apply orraise_Returns_inv in Hget as (Hx & ->).
  assert (HMw : mask_tensor w = Some M) by (unfold mask_tensor; by rewrite HM).
  destruct (setitem3 M (Z.of_nat i) (Z.of_nat i) (Z.of_nat k) x) as [M'|] eqn:HM'.
  - rewrite (masks_set_run _ _ _ _ _ _ _ HMw HM') in Hset. injection Hset as <-.
    unfold holds, with_prop. simpl. split; [by rewrite lookup_insert_ne|].
    exists M'. split; [by rewrite lookup_insert_eq|].
    intros i' k' x' [HD | [-> ->]] Hx'.
    + apply (diagonal_after_same A M M' (Z.of_nat i) (Z.of_nat i) (Z.of_nat k) x);
        auto; lia.
    + rewrite <- item3_entry3. rewrite item2_entry2 in Hx.
      rewrite (item3_setitem3_same _ _ _ _ _ _ HM'). congruence.
  - rewrite (masks_set_raises _ _ _ _ _ _ HMw HM') in Hset. discriminate.
Qed.

End Initialize.

(** ** Graphs without self-loops *)

Lemma loop_free_spec (g : graph) :
  loop_free g = true
  <-> forall a b, (a, b) ∈ edges g -> a <> b /\ 0 <= a /\ 0 <= b.
Proof.
  unfold loop_free. rewrite forallb_forall. split.
  - intros H a b Hin. apply list_elem_of_In in Hin. specialize (H _ Hin). simpl in H.
    apply andb_true_iff in H as [H Hb]. apply andb_true_iff in H as [Hne Ha].
    apply negb_true_iff, Z.eqb_neq in Hne. apply Z.leb_le in Ha, Hb. auto.
  - intros H [a b] Hin. apply list_elem_of_In in Hin. destruct (H a b Hin) as (Hne & Ha & Hb). simpl.
    apply Z.eqb_neq in Hne. apply Z.leb_le in Ha, Hb. by rewrite Hne, Ha, Hb.
Qed.

Lemma edges_add_node (g : graph) (u : Z) : edges (nx.add_node g u) = edges g.
Proof. unfold nx.add_node. by destruct (nx.has_node g u). Qed.

Lemma loop_free_add_edge (g : graph) (u v : Z) :
  loop_free g = true -> u <> v -> 0 <= u -> 0 <= v ->
  loop_free (nx.add_edge g u v) = true.
Proof.
  intros Hg Huv Hu Hv. apply loop_free_spec. intros a b Hin.
  rewrite loop_free_spec in Hg. unfold nx.add_edge in Hin.
  destruct (nx.has_edge _ u v); simpl in Hin.
  - rewrite !edges_add_node in Hin. auto.
  - rewrite !edges_add_node in Hin. apply elem_of_app in Hin as [Hin|Hin]; [auto|].
    apply list_elem_of_singleton in Hin. injection Hin as -> ->. auto.
Qed.

Lemma loop_free_remove_edge (g g' : graph) (u v : Z) :
  loop_free g = true -> nx.remove_edge g u v = Some g' -> loop_free g' = true.
Proof.
  intros Hg Hrem. unfold nx.remove_edge in Hrem.
  destruct (nx.has_edge g u v); [|discriminate]. injection Hrem as <-.
  apply loop_free_spec. intros a b Hin. simpl in Hin.
  apply list_elem_of_filter in Hin as [_ Hin]. rewrite loop_free_spec in Hg. auto.
Qed.

Lemma loop_free_remove_self (g : graph) (u : Z) :
  loop_free g = true -> nx.remove_edge g u u = None.
Proof.
  intros Hg. unfold nx.remove_edge.
  destruct (nx.has_edge g u u) eqn:He; [|reflexivity]. exfalso.
  unfold nx.has_edge in He. apply existsb_exists in He as ([a b] & Hin & He).
  apply list_elem_of_In in Hin. rewrite loop_free_spec in Hg.
  destruct (Hg a b Hin) as (Hne & _). unfold nx.same_edge in He. simpl in He.
  apply orb_true_iff in He as [He|He].
  - apply andb_true_iff in He as [H1 H2]. apply Z.eqb_eq in H1, H2. congruence.
  - apply andb_true_iff in He as [He H2]. apply andb_true_iff in He as [_ H1].
    apply Z.eqb_eq in H1, H2. congruence.
Qed.

Lemma loop_free_adjacent (g : graph) (i j : Z) :
  loop_free g = true -> j ∈ nx.adjacent g i -> j <> i /\ 0 <= j.
Proof.
  intros Hg Hj. rewrite loop_free_spec in Hg. unfold nx.adjacent in Hj.
  apply list_elem_of_omap in Hj as ([a b] & Hin & He). simpl in He.
  destruct (Hg a b Hin) as (Hne & Ha & Hb).
  destruct (Z.eqb_spec a i) as [->|].
  - injection He as <-. auto.
  - destruct (negb (is_directed g) && Z.eqb b i) eqn:Hc; [|discriminate].
    injection He as <-. apply andb_true_iff in Hc as [_ Hc]. apply Z.eqb_eq in Hc.
    subst b. auto.
Qed.

Lemma loop_free_predecessors (g : graph) (i j : Z) (l : list Z) :
  loop_free g = true -> nx.predecessors g i = inr l -> j ∈ l -> j <> i /\ 0 <= j.
Proof.
  intros Hg Hp Hj. rewrite loop_free_spec in Hg. unfold nx.predecessors in Hp.
  destruct (is_directed g); [|discriminate].
  destruct (nx.has_node g i); [|discriminate]. injection Hp as <-.
  apply list_elem_of_omap in Hj as ([a b] & Hin & He). simpl in He.
  destruct (Hg a b Hin) as (Hne & Ha & Hb).
  destruct (Z.eqb_spec b i) as [->|]; [|discriminate].
  injection He as <-. auto.
Qed.

Lemma truth_state (v : value) (w w' : World) (b : bool) :
  truth v w = Returns b w' -> w' = w.
Proof.
  unfold truth. intros H.
  repeat case_match; try discriminate; by injection H as _ <-.
Qed.

(** The neighbours of a node in a state whose graph has no self-loop: the
    state is left as it was, and every neighbour is another node. *)
Lemma get_neighbors_loop_free (w w' : World) (i : Z) (nbrs : list Z) :
  holds graph_loop_free w ->
  get_neighbors i w = Returns nbrs w' ->
  w' = w /\ forall j, j ∈ nbrs -> j <> i /\ 0 <= j.
Proof.
  intros Hl Hret. unfold get_neighbors in Hret.
  apply bind_Returns_inv in Hret as (d & w1 & Hd & Hret).
  unfold prop in Hd. destruct (_properties w !! "directed") as [dv|]; [|discriminate].
  injection Hd as <- <-.
  apply bind_Returns_inv in Hret as (directed & w1 & Ht & Hret).
  apply truth_state in Ht as ->.
  apply bind_Returns_inv in Hret as (g & w1 & Hg & Hret).
  unfold the_graph in Hg. destruct (_graph w) as [g0|] eqn:HG; [|discriminate].
  injection Hg as <- <-. specialize (Hl g0 HG).
  destruct (negb directed).
  - destruct (nx.neighbors g0 i) as [l|] eqn:Hn; [|discriminate].
    injection Hret as <- <-. split; [reflexivity|]. intros j Hj.
    unfold nx.neighbors in Hn. destruct (nx.has_node g0 i); [|discriminate].
    injection Hn as <-. by apply (loop_free_adjacent g0).
  - destruct (nx.predecessors g0 i) as [e|l] eqn:Hp; [discriminate|].
    injection Hret as <- <-. split; [reflexivity|]. intros j Hj.
    by apply (loop_free_predecessors g0 i j l).
Qed.

(** ** Rules that tie a value to the state it was read from *)

Section PreservesValues.

Context (I : gmap string value -> option graph -> Prop).

Lemma preserves_and (J : gmap string value -> option graph -> Prop) {B} (c : Py B) :
  preserves I c -> preserves J c -> preserves (fun P G => I P G /\ J P G) c.
Proof. intros HI HJ w [H1 H2]. split; [by apply HI | by apply HJ]. Qed.

(** The graph that [self._graph] yields is the graph of the state. *)
Lemma preserves_with_graph {B} (L : graph -> Prop) (k : graph -> Py B) :
  (forall P g, I P (Some g) -> L g) ->
  (forall g, L g -> preserves I (k g)) ->
  preserves I (bind the_graph k).
Proof.
  intros HL Hk w H. unfold bind, the_graph.
  destruct (_graph w) as [g|] eqn:E; [|exact H].
  apply Hk; [|exact H]. apply (HL (_properties w)). unfold holds in H. by rewrite E in H.
Qed.

(** What follows a lookup that may fail runs only when it succeeded. *)
Lemma preserves_orraise_bind {A B} e (o : option A) (k : A -> Py B) :
  (forall a, o = Some a -> preserves I (k a)) -> preserves I (bind (orraise e o) k).
Proof.
  intros Hk. destruct o as [a|]; intros w H; [exact (Hk a eq_refl w H) | exact H].
Qed.

Lemma preserves_graph_attribute key : preserves I (graph_attribute key).
Proof. unfold graph_attribute. preserves_auto. Qed.

End PreservesValues.

(** ** Operations keep the graph free of self-loops *)

Lemma loop_free_ignores_key k : ignores_key graph_loop_free k.
Proof. intros P G v H. exact H. Qed.

Lemma loop_free_of_state (P : gmap string value) (g : graph) :
  graph_loop_free P (Some g) -> loop_free g = true.
Proof. intros H. by apply H. Qed.

Lemma preserves_set_graph_loop_free (g : graph) :
  loop_free g = true -> preserves graph_loop_free (set_graph g).
Proof. intros Hg w _ g' Hg'. simpl in Hg'. by injection Hg' as <-. Qed.

#[export] Hint Resolve loop_free_ignores_key preserves_graph_attribute : preserves.

Ltac loop_free_step :=
  lazymatch goal with
  | |- preserves _ (bind the_graph _) =>
      apply preserves_with_graph with (L := fun g => loop_free g = true);
      [ exact loop_free_of_state | intros ? ? ]
  | |- preserves _ (bind (orraise _ (nx.remove_edge _ _ _)) _) =>
      apply preserves_orraise_bind; intros ? ?
  | |- preserves _ (set_graph (nx.add_edge _ _ _)) =>
      apply preserves_set_graph_loop_free; apply loop_free_add_edge;
      solve [assumption | congruence]
  | |- preserves _ (set_graph _) =>
      apply preserves_set_graph_loop_free; eapply loop_free_remove_edge; eassumption
  | |- _ => preserves_step
  end.

Lemma loop_free_connect (u v : Z) :
  0 <= u -> 0 <= v -> preserves graph_loop_free (connect u v).
Proof.
  intros Hu Hv. unfold connect.
  destruct (Z.eqb_spec u v) as [|Huv]; [apply preserves_ret|].
  repeat loop_free_step.
Qed.

Lemma loop_free_disconnect (u v : Z) : preserves graph_loop_free (disconnect u v).
Proof. unfold disconnect. repeat loop_free_step. Qed.

Lemma loop_free_reveal (u v k : Z) : preserves graph_loop_free (reveal u v k).
Proof. unfold reveal. preserves_auto. Qed.

Lemma loop_free_hide (u v k : Z) : preserves graph_loop_free (hide u v k).
Proof. unfold hide. preserves_auto. Qed.

Lemma loop_free_initialize_masks : preserves graph_loop_free initialize_masks.
Proof. unfold initialize_masks. preserves_auto. Qed.

(** ** Self-perception together with a graph free of self-loops *)

Section DiagonalLoopFree.

Context (A : list (list Q)) (D : nat -> nat -> Prop).

Local Abbreviation inv2 :=
  (fun P G => self_perception_on A D P G /\ graph_loop_free P G).

Lemma inv2_ignores_key k :
  k <> "masks" -> k <> "attribute_space" -> ignores_key inv2 k.
Proof.
  intros H1 H2 P G v [Hd Hl]. split; [by apply diagonal_ignores_key | exact Hl].
Qed.

Lemma inv2_ignores_weights : ignores_key inv2 "weights".
Proof. by apply inv2_ignores_key. Qed.

Lemma inv2_ignores_normalized_weights : ignores_key inv2 "normalized_weights".
Proof. by apply inv2_ignores_key. Qed.

Lemma inv2_loop_free (P : gmap string value) (g : graph) :
  inv2 P (Some g) -> loop_free g = true.
Proof. intros [_ H]. by apply H. Qed.

Hint Resolve inv2_ignores_weights inv2_ignores_normalized_weights : preserves.

(** In a graph without self-loops [disconnect( u, u )] finds no edge to
    remove, so that it never comes to the masks. *)
Lemma diagonal_disconnect_self (u : Z) : preserves inv2 (disconnect u u).
Proof.
  unfold disconnect.
  repeat lazymatch goal with
         | |- preserves _ (bind the_graph _) =>
             apply preserves_with_graph with (L := fun g => loop_free g = true);
             [ exact inv2_loop_free | intros ? ? ]
         | Hg : loop_free ?g = true
           |- preserves _ (bind (orraise _ (nx.remove_edge ?g _ _)) _) =>
             apply preserves_orraise_bind; intros ? Hrem;
             rewrite (loop_free_remove_self _ _ Hg) in Hrem; discriminate
         | |- _ => preserves_step
         end.
Qed.

Lemma diagonal_loop_free_disconnect (u v : Z) :
  0 <= u -> 0 <= v -> preserves inv2 (disconnect u v).
Proof.
  intros Hu Hv. destruct (decide (u = v)) as [->|Huv].
  - apply diagonal_disconnect_self.
  - apply preserves_and; [by apply diagonal_disconnect | apply loop_free_disconnect].
Qed.

End DiagonalLoopFree.

Lemma self_perception_preserved_with
    (J : gmap string value -> option graph -> Prop) {B} (c : Py B) :
  (forall A D, preserves (fun P G => self_perception_on A D P G /\ J P G) c) ->
  preserves (fun P G => self_perception P G /\ J P G) c.
Proof.
  intros Hc w [Hw HJ]. unfold holds in Hw.
  apply self_perception_on_all in Hw as (A & Hw).
  destruct (Hc A _ w (conj Hw HJ)) as [H1 H2].
  split; [|exact H2]. apply self_perception_on_all. by exists A.
Qed.

Section InitializeLoopFree.

Context (A : list (list Q)).

(** The sweep over the neighbours of [i]: with visibility [visible] it
    copies the opinions of [i], with visibility [random] it writes what the
    generator picks, into the view that another node has of [i]. *)
Lemma neighbour_sweep (D : nat -> nat -> Prop) (i : nat) (K : Z) (vis : value)
    (w : World) :
  holds graph_loop_free w ->
  holds (self_perception_on A D) w ->
  holds (self_perception_on A D)
    (final ((nbrs <- get_neighbors (Z.of_nat i) ;;
             for_ nbrs (fun j =>
               if is_str vis "random" then
                 for_ (range K) (fun k =>
                   x <- attribute_get (Z.of_nat i) k ;;
                   y <- choice [0%Q; x] ;;
                   masks_set j (Z.of_nat i) k y)
               else if is_str vis "visible" then
                 for_ (range K) (fun k =>
                   x <- attribute_get (Z.of_nat i) k ;; masks_set j (Z.of_nat i) k x)
               else ret tt)) w)).
Proof.
  intros Hl Hw. unfold bind at 1.
  destruct (get_neighbors (Z.of_nat i) w) as [nbrs w1|e w1] eqn:Hn.
  - destruct (get_neighbors_loop_free _ _ _ _ Hl Hn) as [-> Hnbrs].
    refine (preserves_for_in (self_perception_on A D) nbrs _ _ w Hw). intros j Hj.
    destruct (Hnbrs j Hj) as [Hne Hj0].
    destruct (is_str vis "random").
    + apply preserves_for_. intros k.
      apply preserves_bind; [auto with preserves|]. intros x.
      apply preserves_bind; [apply preserves_choice|]. intros y.
      apply preserves_write_other; [exact Hj0 | lia | exact Hne].
    + destruct (is_str vis "visible"); [|apply preserves_ret].
      apply preserves_copy_loop. lia.
  - pose proof (preserves_get_neighbors _ (Z.of_nat i) w Hw) as H.
    by rewrite Hn in H.
Qed.
End InitializeLoopFree.

Section InitializeNode.

Context (A : list (list Q)).

(** One node of the sweep of [initialize_masks]. *)
Lemma initialize_node (i n K : nat) (vis : value) (w w2 : World) :
  shape2 n K A ->
  holds graph_loop_free w ->
  holds (self_perception_on A (fun i' _ => (i' < i)%nat)) w ->
  (for_ (range (Z.of_nat K)) (fun k =>
     x <- attribute_get (Z.of_nat i) k ;;
     masks_set (Z.of_nat i) (Z.of_nat i) k x) ;;;
   nbrs <- get_neighbors (Z.of_nat i) ;;
   for_ nbrs (fun j =>
     if is_str vis "random" then
       for_ (range (Z.of_nat K)) (fun k =>
         x <- attribute_get (Z.of_nat i) k ;;
         y <- choice [0%Q; x] ;;
         masks_set j (Z.of_nat i) k y)
     else if is_str vis "visible" then
       for_ (range (Z.of_nat K)) (fun k =>
         x <- attribute_get (Z.of_nat i) k ;; masks_set j (Z.of_nat i) k x)
     else ret tt)) w = Returns tt w2 ->
  holds (self_perception_on A (fun i' _ => (i' < S i)%nat)) w2
  /\ holds graph_loop_free w2.
Proof.
  intros [_ Hrows] Hl Hw Hret.
  assert (Hl2 : holds graph_loop_free w2).
  { match type of Hret with ?c w = _ =>
      assert (Hc : preserves graph_loop_free c) by preserves_auto;
      pose proof (Hc w Hl) as H end.
    by rewrite Hret in H. }
  split; [|exact Hl2].
  apply bind_Returns_inv in Hret as ([] & wm & Hself & Hrest).
  assert (Hlm : holds graph_loop_free wm).
  { match type of Hself with ?c w = _ =>
      assert (Hc : preserves graph_loop_free c) by preserves_auto;
      pose proof (Hc w Hl) as H end.
    by rewrite Hself in H. }
  rewrite range_of_nat in Hself.
  apply (for_seq_returns
           (fun k => holds (self_perception_on A
                              (fun i' k' => (i' < i)%nat \/ (i' = i /\ (k' < k)%nat))))) in Hself.
  - pose proof (neighbour_sweep A _ i (Z.of_nat K) vis wm Hlm Hself) as Hwb.
    rewrite Hrest in Hwb. simpl in Hwb.
    eapply self_perception_on_weaken; [exact Hwb|].
    intros i' k' x Hi' Hx. simpl.
    destruct (decide (i' = i)) as [->|]; [right | left; lia].
    split; [reflexivity|].
    unfold entry2 in Hx. destruct (A !! i) as [row|] eqn:Hrow; [|discriminate].
    simpl in Hx. apply lookup_lt_Some in Hx.
    rewrite (Hrows row) in Hx; [exact Hx|]. eapply list_elem_of_lookup_2; eauto.
  - eapply self_perception_on_weaken; [exact Hw|].
    intros i' k' x [Hlt | [_ Hlt]] _; [exact Hlt | lia].
  - intros k w1 w3 Hk Hw1 Hstep.
    eapply self_perception_on_weaken; [exact (write_self_extends _ _ i k w1 w3 Hw1 Hstep)|].
    intros i' k' x [Hlt | [-> Hlt]] _; [by left; left|].
    destruct (decide (k' = k)) as [->|]; [by right | left; right; split; [done | lia]].
Qed.

End InitializeNode.

(** [initialize_masks], when it returns on a graph without self-loops, has
    made every node perceive its own opinions, whatever the visibility. *)
Lemma initialize_masks_self_perception
    (w w' : World) (n K : nat) (A : list (list Q)) :
  _properties w !! "n" = Some (Int (Z.of_nat n)) ->
  _properties w !! "dimensions" = Some (Int (Z.of_nat K)) ->
  opinions w = Some A ->
  shape2 n K A ->
  holds graph_loop_free w ->
  initialize_masks w = Returns tt w' ->
  holds self_perception w' /\ holds graph_loop_free w'.
Proof.
  intros Hn HK HA Hshape Hl Hret.
  unfold initialize_masks in Hret.
  rewrite (bind_Returns _ _ w _ w (prop_run _ _ _ Hn)) in Hret.
  rewrite (bind_Returns _ _ w _ w (prop_run _ _ _ HK)) in Hret.
  apply bind_Returns_inv in Hret as (vis & w0 & Hv & Hret).
  unfold prop in Hv. destruct (_properties w !! "visibility"); [|discriminate].
  injection Hv as <- <-.
  simpl as_int in Hret.
  rewrite (bind_Returns _ _ w (Z.of_nat n) w) in Hret by reflexivity.
  rewrite (bind_Returns _ _ w (Z.of_nat K) w) in Hret by reflexivity.
  rewrite zeros3_of_nat in Hret. simpl orraise in Hret.
  rewrite (bind_Returns _ _ w _ w) in Hret by reflexivity.
  set (M0 := replicate n (replicate n (replicate K 0%Q))) in Hret.
  rewrite (bind_Returns _ _ w tt (with_prop "masks" (Array3 M0) w)) in Hret
    by reflexivity.
  apply bind_Returns_inv in Hret as ([] & w2 & Hloop & Hlog).
  injection Hlog as <-.
  rewrite range_of_nat in Hloop.
  apply (for_seq_returns
           (fun i w => holds (self_perception_on A (fun i' _ => (i' < i)%nat)) w
                       /\ holds graph_loop_free w)) in Hloop.
  - destruct Hloop as [Hloop Hl2]. split; [|exact Hl2].
    unfold holds in *. apply self_perception_on_all. exists A.
    eapply self_perception_on_weaken; [exact Hloop|].
    intros i k x _ Hx. simpl. destruct Hshape as [<- _].
    unfold entry2 in Hx. destruct (A !! i) eqn:Hi; [|discriminate].
    eapply lookup_lt_Some; eauto.
  - split; [|exact Hl].
    unfold holds, with_prop. simpl. split.
    + rewrite lookup_insert_ne by done. unfold opinions in HA.
      destruct (_properties w !! "attribute_space") as [[]|]; try discriminate.
      by injection HA as ->.
    + exists M0. split; [by rewrite lookup_insert_eq|]. intros i k x Hi. lia.
  - intros i w1 w3 Hi [Hw1 Hl1] Hstep.
    eapply initialize_node; eauto.
Qed.

(** ** Self-perception in the states considered *)

(** C1, amended.  In every state reached from a returning
    [initialize_masks] (any visibility, a graph without self-loops whose
    edges join indices [>= 0], opinions of [n] rows and [dimensions]
    columns) by [connect] and [disconnect] between any two nodes, and by
    [reveal] and [hide] between two different nodes, every node perceives
    its own opinions: [M[i][i][k]] is [attribute[i][k]]. *)
Theorem self_perception_reachable (w : World) :
  reachable w -> holds self_perception w.
Proof.
  intros Hr.
  enough (H : holds (fun P G => self_perception P G /\ graph_loop_free P G) w)
    by exact (proj1 H).
  induction Hr as [w w' n K A Hn HK HA Hshape Hl Hret
                  | w u v Hw IH Hu Hv
                  | w u v Hw IH Hu Hv
                  | w u v k Hw IH Hu Hv Huv
                  | w u v k Hw IH Hu Hv Huv].
  - eapply initialize_masks_self_perception; eauto.
  - apply (self_perception_preserved_with graph_loop_free (connect u v)); [|exact IH].
    intros A D. apply preserves_and; [by apply diagonal_connect | by apply loop_free_connect].
  - apply (self_perception_preserved_with graph_loop_free (disconnect u v)); [|exact IH].
    intros A D. by apply diagonal_loop_free_disconnect.
  - apply (self_perception_preserved_with graph_loop_free (reveal u v k)); [|exact IH].
    intros A D. apply preserves_and; [by apply diagonal_reveal | apply loop_free_reveal].
  - apply (self_perception_preserved_with graph_loop_free (hide u v k)); [|exact IH].
    intros A D. apply preserves_and; [by apply diagonal_hide | apply loop_free_hide].
Qed.

(** The theorem at work: the pair after [initialize_masks] under visibility
    [random], where node 0 sees nothing of node 1, and after
    [disconnect( 0, 0 )], which finds no edge from node 0 to itself. *)
Lemma self_perception_reachable_witness :
  reachable (final (disconnect 0 0 masked_random_pair))
  /\ holds self_perception (final (disconnect 0 0 masked_random_pair)).
Proof.
  assert (H : reachable (final (disconnect 0 0 masked_random_pair))).
  { apply reachable_disconnect; [|lia..].
    apply (reachable_initialize unmasked_random_pair _ 2 1 [[1%Q]; [(-1)%Q]]);
      try (vm_compute; reflexivity).
    - split; [reflexivity|]. intros row Hrow.
      repeat (apply elem_of_cons in Hrow as [->|Hrow]; [reflexivity|]).
      by apply elem_of_nil in Hrow.
    - intros g Hg. injection Hg as <-. vm_compute. reflexivity. }
  split; [exact H|]. apply (self_perception_reachable _ H).
Defined.

(** C1, as stated, fails.  In the triangle every node perceives its own
    opinion after construction.  The update phase then flips the opinion of
    node 0 from +1 to -1 and leaves [M[0][0][0]] at +1; and [hide( 0, 0, 0 )]
    sets [M[0][0][0]] to 0. *)
Lemma self_perception_broken_by_update_and_self_hide :
  exists w, SocialNetwork triangle_props (fresh draws_34_14) = Returns tt w
    /\ holds self_perception w
    /\ (exists w', update_attributes w = Returns tt w'
          /\ (A ← opinions w; item2 A 0 0) = Some 1%Q
          /\ (A ← opinions w'; item2 A 0 0) = Some (-1)%Q
          /\ (M ← mask_tensor w'; item3 M 0 0 0) = Some 1%Q
          /\ ~ holds self_perception w')
    /\ (exists w', hide 0 0 0 w = Returns tt w'
          /\ (M ← mask_tensor w'; item3 M 0 0 0) = Some 0%Q
          /\ ~ holds self_perception w').
Proof.
  exists triangle_world. split; [vm_compute; reflexivity|]. split; [|split].
  - exists [[[1]; [-1]; [-1]]; [[1]; [-1]; [-1]]; [[1]; [-1]; [-1]]]%Q,
           [[1]; [-1]; [-1]]%Q.
    split; [vm_compute; reflexivity|]. split; [vm_compute; reflexivity|].
    intros [|[|[|i]]] [|k] x H; vm_compute in H |- *; congruence.
  - exists (final (update_attributes triangle_world)).
    split; [vm_compute; reflexivity|].
    split; [vm_compute; reflexivity|]. split; [vm_compute; reflexivity|].
    split; [vm_compute; reflexivity|].
    intros (M & A & HM & HA & Hd).
    vm_compute in HM, HA. injection HM as <-. injection HA as <-.
    specialize (Hd 0%nat 0%nat _ eq_refl). discriminate.
  - exists (final (hide 0 0 0 triangle_world)).
    split; [vm_compute; reflexivity|].
    split; [vm_compute; reflexivity|].
    intros (M & A & HM & HA & Hd).
    vm_compute in HM, HA. injection HM as <-. injection HA as <-.
    specialize (Hd 0%nat 0%nat _ eq_refl). discriminate.
Qed.

(** Why the graph is to be free of self-loops: on the cycle of one node,
    which is a self-loop, with visibility [random], [initialize_masks]
    takes node 0 for a neighbour of itself and lets the generator choose
    between 0 and the opinion for [M[0][0][0]]; on the draws 3/4, 1/4 it
    chooses 0 while the opinion is +1. *)
Lemma self_perception_broken_by_self_loop :
  SocialNetwork loop_props (fresh draws_34_14) = Returns tt loop_world
  /\ _graph loop_world = Some (mkGraph false [0] [(0, 0)])
  /\ (A ← opinions loop_world; item2 A 0 0) = Some 1%Q
  /\ (M ← mask_tensor loop_world; item3 M 0 0 0) = Some 0%Q
  /\ ~ holds self_perception loop_world.
Proof.
  split; [vm_compute; reflexivity|]. split; [vm_compute; reflexivity|].
  split; [vm_compute; reflexivity|]. split; [vm_compute; reflexivity|].
  intros (M & A & HM & HA & Hd).
  vm_compute in HM, HA. injection HM as <-. injection HA as <-.
  specialize (Hd 0%nat 0%nat _ eq_refl). discriminate.
Qed.

(** Why the indices are to be [>= 0]: in the pair, [hide( -1, 1, 0 )] is a
    call with two different arguments, and [masks[1][-1][0]] is
    [M[1][1][0]]. *)
Lemma self_perception_broken_by_negative_index :
  holds self_perception pair_world
  /\ hide (-1) 1 0 pair_world = Returns tt (final (hide (-1) 1 0 pair_world))
  /\ (M ← mask_tensor (final (hide (-1) 1 0 pair_world)); item3 M 1 1 0) = Some 0%Q
  /\ ~ holds self_perception (final (hide (-1) 1 0 pair_world)).
Proof.
  split; [|split; [vm_compute; reflexivity|split; [vm_compute; reflexivity|]]].
  - exists [[[1]; [-1]]; [[1]; [-1]]]%Q, [[1]; [-1]]%Q.
    split; [vm_compute; reflexivity|]. split; [vm_compute; reflexivity|].
    intros [|[|i]] [|k] x H; vm_compute in H |- *; congruence.
  - intros (M & A & HM & HA & Hd).
    vm_compute in HM, HA. injection HM as <-. injection HA as <-.
    specialize (Hd 1%nat 0%nat _ eq_refl). discriminate.
Qed.

(** The theorem at work in the triangle: node 0 (archetype R, opinion +1)
    sees the opinion -1 of node 1 and draws the reward 0 from it. *)
Lemma reward_in_unit_interval_witness :
  item ["R"; "R"; "R"] 0 = Some "R"
  /\ "R" ∈ archetypes
  /\ exists r : Q,
       get_reward_for_neighbor 0 1 triangle_world = Returns (Some r) triangle_world
       /\ (0 <= r <= 1)%Q
       /\ ((forall x, x ∈ [(-1)%Q] -> (x == 0)%Q) -> r = 0%Q).
Proof.
  split; [reflexivity|].
  assert (Harch : "R" ∈ archetypes) by (unfold archetypes; left).
  split; [exact Harch|].
  apply (reward_in_unit_interval triangle_world 0 1
           [[1%Q]; [(-1)%Q]; [(-1)%Q]]
           [[[1%Q]; [(-1)%Q]; [(-1)%Q]]; [[1%Q]; [(-1)%Q]; [(-1)%Q]];
            [[1%Q]; [(-1)%Q]; [(-1)%Q]]]
           ["R"; "R"; "R"] "R" [1%Q] [(-1)%Q]);
    try (vm_compute; reflexivity).
  exact Harch.
Defined.

(** ** Node indices beyond the arrays *)

Lemma setitem2_out_of_range {A} (n : nat) (m : list (list A)) (i j : Z) (x : A) :
  shape2 n n m -> out_of_range n i \/ out_of_range n j -> setitem2 m i j x = None.
Proof.
  intros [Hlen Hrows] Hout. unfold setitem2.
  destruct (item m i) as [row|] eqn:Hrow; [|reflexivity]. simpl.
  destruct Hout as [Hi | Hj].
  - rewrite item_out_of_range in Hrow by (by rewrite Hlen). discriminate.
  - apply item_Some in Hrow as (a & _ & Ha).
    rewrite setitem_out_of_range; [reflexivity|].
    rewrite (Hrows row); [exact Hj|]. eapply list_elem_of_lookup_2; eauto.
Qed.

Lemma setitem3_out_of_range {A} (n : nat) (t : list (list (list A))) (i j k : Z) (x : A) :
  shape2 n n t -> out_of_range n i \/ out_of_range n j -> setitem3 t i j k x = None.
Proof.
  intros [Hlen Hrows] Hout. unfold setitem3.
  destruct (item t i) as [m|] eqn:Hm; [|reflexivity]. simpl.
  destruct Hout as [Hi | Hj].
  - rewrite item_out_of_range in Hm by (by rewrite Hlen). discriminate.
  - apply item_Some in Hm as (a & _ & Ha).
    unfold setitem2. rewrite item_out_of_range; [reflexivity|].
    rewrite (Hrows m); [exact Hj|]. eapply list_elem_of_lookup_2; eauto.
Qed.

Lemma weights_run w W : raw_weights w = Some W -> weights w = Returns W w.
Proof.
  unfold raw_weights, weights, bind, prop. intros H.
  destruct (_properties w !! "weights") as [[]|]; try discriminate.
  by injection H as ->.
Qed.

Section OutOfRange.

Context (P0 : gmap string value) (n : nat) (u v : Z).
Context (Hshape : square_arrays n P0).
Context (Hout : out_of_range n u \/ out_of_range n v).

Local Abbreviation same := (properties_are P0).

Lemma same_ignores_graph : ignores_graph same.
Proof. intros P G G' H. exact H. Qed.

Hint Resolve same_ignores_graph : preserves.

Lemma weights_set_raises (a b : Z) (x : Q) (w : World) :
  out_of_range n a \/ out_of_range n b ->
  holds same w -> weights_set a b x w = Raises IndexError w.
Proof.
  intros Hab Hw. unfold holds, properties_are in Hw.
  destruct Hshape as [(W & HW & HWs) _]. rewrite <- Hw in HW.
  unfold weights_set.
  rewrite (bind_Returns _ _ w W w)
    by (apply weights_run; unfold raw_weights; by rewrite HW).
  by rewrite (setitem2_out_of_range n W a b x HWs Hab).
Qed.

Lemma masks_set_raises_out (a b k : Z) (x : Q) (w : World) :
  out_of_range n a \/ out_of_range n b ->
  holds same w -> masks_set a b k x w = Raises IndexError w.
Proof.
  intros Hab Hw. unfold holds, properties_are in Hw.
  destruct Hshape as [_ (M & HM & HMs)]. rewrite <- Hw in HM.
  apply (masks_set_raises w M); [unfold mask_tensor; by rewrite HM|].
  exact (setitem3_out_of_range n M a b k x HMs Hab).
Qed.

Lemma raises_in_weights_set (a b : Z) (x : Q) :
  out_of_range n a \/ out_of_range n b -> raises_in same (weights_set a b x).
Proof.
  intros Hab w Hw. exists IndexError, w. split; [by apply weights_set_raises | exact Hw].
Qed.

Lemma raises_in_masks_set (a b k : Z) (x : Q) :
  out_of_range n a \/ out_of_range n b -> raises_in same (masks_set a b k x).
Proof.
  intros Hab w Hw. exists IndexError, w. split; [by apply masks_set_raises_out | exact Hw].
Qed.

Lemma Hout_swapped : out_of_range n v \/ out_of_range n u.
Proof. destruct Hout; auto. Qed.

(** The first write of [connect], in either weight mode. *)
Lemma raises_in_first_weight (wv : value) :
  raises_in same
    (if is_str wv "random" then r <- random ;; weights_set u v r
     else wv' <- prop "weight" ;; x <- to_float wv' ;; weights_set u v x).
Proof.
  destruct (is_str wv "random").
  - apply raises_in_bind_r; [auto with preserves|]. intros r.
    by apply raises_in_weights_set.
  - apply raises_in_bind_r; [auto with preserves|]. intros wv'.
    apply raises_in_bind_r; [auto with preserves|]. intros x.
    by apply raises_in_weights_set.
Qed.

Lemma out_of_range_connect : preserves same (connect u v).
Proof.
  unfold connect. destruct (Z.eqb u v); [apply preserves_ret|].
  apply preserves_bind; [auto with preserves|]. intros g.
  apply preserves_bind; [auto with preserves|]. intros _.
  apply preserves_bind; [auto with preserves|]. intros wv.
  apply preserves_bind_cut. apply raises_in_first_weight.
Qed.

Ltac out_of_range_step :=
  first [ apply preserves_bind_cut; apply raises_in_weights_set; exact Hout
        | apply preserves_bind_cut; apply raises_in_masks_set; exact Hout_swapped
        | preserves_step ].

Lemma out_of_range_disconnect : preserves same (disconnect u v).
Proof. unfold disconnect. repeat out_of_range_step. Qed.

End OutOfRange.

(** C6, amended.  When [u] or [v] lies outside [-n .. n-1] (numpy reads
    [-n .. -1] as the nodes [0 .. n-1] counted from the end, and writes
    there), [reveal] and [hide] raise [IndexError] and change nothing, and
    [connect] and [disconnect] leave every property, the raw and normalized
    weights and the mask tensor among them, as it was, whether they return
    or raise. *)
Theorem out_of_range_leaves_properties (w : World) (n : nat) (u v k : Z) :
  square_arrays n (_properties w) ->
  out_of_range n u \/ out_of_range n v ->
  reveal u v k w = Raises IndexError w
  /\ hide u v k w = Raises IndexError w
  /\ _properties (final (connect u v w)) = _properties w
  /\ _properties (final (disconnect u v w)) = _properties w.
Proof.
  intros Hshape Hout.
  assert (Hswap : out_of_range n v \/ out_of_range n u) by (destruct Hout; auto).
  assert (Hw : holds (properties_are (_properties w)) w) by reflexivity.
  split; [exact (masks_set_raises_out _ n Hshape v u k 1 w Hswap Hw)|].
  split; [exact (masks_set_raises_out _ n Hshape v u k 0 w Hswap Hw)|].
  split.
  - exact (out_of_range_connect _ n u v Hshape Hout w Hw).
  - exact (out_of_range_disconnect _ n u v Hshape Hout w Hw).
Qed.

Lemma shape2_pair {A} (a b c d : A) : shape2 2 2 [[a; b]; [c; d]].
Proof.
  split; [reflexivity|]. intros row Hrow.
  repeat (apply elem_of_cons in Hrow as [->|Hrow]; [reflexivity|]).
  by apply elem_of_nil in Hrow.
Qed.

(** The theorem at work on the pair, with the node index 2. *)
Lemma out_of_range_leaves_properties_witness :
  square_arrays 2 (_properties pair_world)
  /\ (out_of_range 2 0 \/ out_of_range 2 2)
  /\ reveal 0 2 0 pair_world = Raises IndexError pair_world
  /\ hide 0 2 0 pair_world = Raises IndexError pair_world
  /\ _properties (final (connect 0 2 pair_world)) = _properties pair_world
  /\ _properties (final (disconnect 0 2 pair_world)) = _properties pair_world.
Proof.
  assert (Hs : square_arrays 2 (_properties pair_world)).
  { split.
    - eexists. split; [vm_compute; reflexivity|]. apply shape2_pair.
    - eexists. split; [vm_compute; reflexivity|]. apply shape2_pair. }
  assert (Ho : out_of_range 2 0 \/ out_of_range 2 2) by (right; right; simpl; lia).
  split; [exact Hs|]. split; [exact Ho|].
  exact (out_of_range_leaves_properties pair_world 2 0 2 0 Hs Ho).
Defined.

(** ** The opinions that [initialize_attribute_space] draws *)

Lemma int_of_float_floor (q : Q) : (0 <= q)%Q -> int_of_float q = Qfloor q.
Proof.
  destruct q as [a b]. unfold int_of_float, Qfloor, Qle. simpl. intros H.
  apply Z.quot_div_nonneg; lia.
Qed.

Lemma Qfloor_unique (q : Q) (z : Z) :
  (inject_Z z <= q)%Q -> (q < inject_Z (z + 1))%Q -> Qfloor q = z.
Proof.
  intros Hlo Hhi.
  pose proof (Qfloor_le q) as H1. pose proof (Qlt_floor q) as H2.
  assert (Hlt1 : (inject_Z (Qfloor q) < inject_Z (z + 1))%Q) by lra.
  assert (Hlt2 : (inject_Z z < inject_Z (Qfloor q + 1))%Q) by lra.
  rewrite <- Zlt_Qlt in Hlt1, Hlt2. lia.
Qed.

Lemma int_of_float_two_way (r : Q) :
  (0 <= r < 1)%Q ->
  int_of_float (r * inject_Z 2) = if Qltb r (1 # 2) then 0 else 1.
Proof.
  intros [H0 H1]. change (inject_Z 2) with 2%Q.
  rewrite int_of_float_floor by lra.
  destruct (Qltb r (1 # 2)) eqn:Hb.
  - apply Qltb_lt in Hb.
    apply Qfloor_unique; [change (inject_Z 0) with 0%Q | change (inject_Z (0 + 1)) with 1%Q]; lra.
  - apply Qltb_ge in Hb.
    apply Qfloor_unique; [change (inject_Z 1) with 1%Q | change (inject_Z (1 + 1)) with 2%Q]; lra.
Qed.

Lemma choice_sign_run (w : World) :
  (0 <= next_draw w < 1)%Q ->
  choice [(-1)%Q; 1%Q] w = Returns (sign_of_draw (next_draw w)) (advance w).
Proof.
  intros Hr. unfold choice, bind, random. fold (next_draw w). fold (advance w).
  simpl length. change (Z.of_nat 2) with 2.
  rewrite (int_of_float_two_way _ Hr). unfold sign_of_draw.
  destruct (Qltb (next_draw w) (1 # 2)); reflexivity.
Qed.

Lemma draws_advance (w : World) : draws (rnd (advance w)) = draws (rnd w).
Proof. reflexivity. Qed.

Lemma draws_advance_by (k : nat) (w : World) :
  draws (rnd (advance_by k w)) = draws (rnd w).
Proof. revert w. induction k as [|k IH]; intros w; [reflexivity|]. simpl. by rewrite IH. Qed.

Lemma row_loop (l : list Z) (row : list Q) (w : World) :
  unit_draws (draws (rnd w)) ->
  for_acc l row (fun row _ => x <- choice [(-1)%Q; 1%Q] ;; ret (row ++ [x])%list) w
  = Returns (row ++ drawn_row (length l) w)%list (advance_by (length l) w).
Proof.
  revert row w. induction l as [|z l IH]; intros row w Hd.
  - simpl. by rewrite app_nil_r.
  - simpl. erewrite bind_Returns; cycle 1.
    { erewrite bind_Returns by (apply choice_sign_run, Hd). reflexivity. }
    rewrite IH by exact Hd. by rewrite <- app_assoc.
Qed.

Lemma rows_loop (l : list Z) (k : Z) (rows : list (list Q)) (w : World) :
  unit_draws (draws (rnd w)) ->
  for_acc l rows (fun rows _ =>
      row <- for_acc (range k) [] (fun row _ =>
               x <- choice [(-1)%Q; 1%Q] ;; ret (row ++ [x])%list) ;;
      ret (rows ++ [row])%list) w
  = Returns (rows ++ drawn_rows (length l) (Z.to_nat k) w)%list
      (advance_rows (length l) (Z.to_nat k) w).
Proof.
  assert (Hlen : length (range k) = Z.to_nat k).
  { unfold range. by rewrite length_fmap, length_seq. }
  revert rows w. induction l as [|z l IH]; intros rows w Hd.
  - simpl. by rewrite app_nil_r.
  - simpl. erewrite bind_Returns; cycle 1.
    { erewrite bind_Returns by (apply row_loop, Hd). rewrite Hlen. reflexivity. }
    rewrite IH by (by rewrite draws_advance_by). by rewrite <- app_assoc.
Qed.

(** [initialize_attribute_space] stores the rows it draws. *)
Lemma initialize_attribute_space_run (w : World) (n k : nat) :
  _properties w !! "n" = Some (Int (Z.of_nat n)) ->
  _properties w !! "dimensions" = Some (Int (Z.of_nat k)) ->
  unit_draws (draws (rnd w)) ->
  initialize_attribute_space w
  = Returns tt (with_prop "attribute_space" (Array2 (drawn_rows n k w))
                  (advance_rows n k w)).
Proof.
  intros Hn Hk Hd. unfold initialize_attribute_space.
  rewrite (bind_Returns _ _ w _ w (prop_run _ _ _ Hk)).
  rewrite (bind_Returns _ _ w (Z.of_nat k) w) by reflexivity.
  rewrite (bind_Returns _ _ w _ w (prop_run _ _ _ Hn)).
  rewrite (bind_Returns _ _ w (Z.of_nat n) w) by reflexivity.
  erewrite bind_Returns by (apply rows_loop, Hd).
  assert (Hlen : length (range (Z.of_nat n)) = n).
  { unfold range. by rewrite length_fmap, length_seq, Nat2Z.id. }
  rewrite Hlen, Nat2Z.id. reflexivity.
Qed.

(** ** Enumerating the opinions *)

Lemma all_bits_complete (bs : list bool) : bs ∈ all_bits (length bs).
Proof.
  induction bs as [|b bs IH]; simpl; [by left|].
  apply elem_of_app. destruct b; [left | right]; apply list_elem_of_fmap; eauto.
Qed.

(** ** The round trip of persistence *)

(** The round trip gives the same report on each of the 1024 possible
    opinion assignments, whatever the generator holds. *)
Lemma round_trip_report_all (d : nat -> Q) :
  forallb (round_trip_report d) (all_bits 10) = true.
Proof. vm_compute. reflexivity. Qed.

Lemma round_trip_report_bits (d : nat -> Q) (bs : list bool) :
  length bs = 10%nat -> round_trip_report d bs = true.
Proof.
  intros Hlen. pose proof (round_trip_report_all d) as H.
  rewrite forallb_forall in H. apply H. apply list_elem_of_In.
  rewrite <- Hlen. apply all_bits_complete.
Qed.

Lemma drawn_world (d : nat -> Q) :
  with_prop "attribute_space" (Array2 (drawn_rows 5 2 (cycle_weighted d)))
    (advance_rows 5 2 (cycle_weighted d))
  = cycle_opinionated d ((fun i => Qltb (d i) (1 # 2)) <$> seq 0 10).
Proof. vm_compute; reflexivity. Qed.

(** The construction on the cycle, up to [initialize_edge_weights]. *)
Lemma cycle_weighting (d : nat -> Q) :
  SocialNetwork cycle_props (fresh d)
  = (initialize_attribute_space ;;; finish_build) (cycle_weighted d).
Proof.
  unfold SocialNetwork, __init__.
  rewrite (bind_Returns _ _ _ (fresh d) (fresh d)) by reflexivity.
  do 5 (erewrite bind_Returns by (vm_compute; reflexivity)).
  cbv iota. unfold _build.
  do 2 (erewrite bind_Returns by (vm_compute; reflexivity)).
  erewrite (bind_Returns _ _ _ tt (cycle_weighted d)) by (vm_compute; reflexivity).
  reflexivity.
Qed.

(** The construction on the cycle, up to the point where the opinions have
    been drawn. *)
Lemma cycle_construction (d : nat -> Q) :
  unit_draws d ->
  SocialNetwork cycle_props (fresh d)
  = finish_build
      (cycle_opinionated d ((fun i => Qltb (d i) (1 # 2)) <$> seq 0 10)).
Proof.
  intros Hd. rewrite cycle_weighting.
  erewrite bind_Returns;
    [|apply (initialize_attribute_space_run (cycle_weighted d) 5 2);
      [vm_compute; reflexivity | vm_compute; reflexivity | exact Hd]].
  rewrite drawn_world. reflexivity.
Qed.

(** What the decision procedure decides. *)
Lemma round_trip_report_sound (d : nat -> Q) (bs : list bool) :
  round_trip_report d bs = true ->
  exists w1 w2,
    finish_build (cycle_opinionated d bs) = Returns tt w1
    /\ save_and_read w1 = Returns tt w2
    /\ (_graph w1 = Some cycle5 /\ _graph w2 = Some cycle5_read)
    /\ (flag "directed" w1 = Some false /\ flag "directed" w2 = Some true)
    /\ (flag "symmetric" w1 = Some false /\ flag "symmetric" w2 = Some true)
    /\ (normalized w1 = Some normalized_cycle5
        /\ normalized w2 = Some normalized_cycle5_read)
    /\ (exists W, raw_weights w1 = Some W /\ raw_weights w2 = Some W)
    /\ (exists M, mask_tensor w1 = Some M /\ mask_tensor w2 = Some M).
Proof.
  unfold round_trip_report. generalize (cycle_opinionated d bs). intros w0 Hok.
  destruct (finish_build w0) as [[] w1|] eqn:Hb; [|discriminate].
  destruct (save_and_read w1) as [[] w2|] eqn:Hs; [|discriminate].
  destruct (raw_weights w1) as [W1|] eqn:HW1;
    [|by rewrite andb_false_r in Hok].
  destruct (raw_weights w2) as [W2|] eqn:HW2;
    [|by rewrite andb_false_r in Hok].
  destruct (mask_tensor w1) as [M1|] eqn:HM1;
    [|by rewrite andb_false_r in Hok].
  destruct (mask_tensor w2) as [M2|] eqn:HM2;
    [|by rewrite andb_false_r in Hok].
  repeat match goal with
         | H : _ && _ = true |- _ => apply andb_true_iff in H as [? ?]
         end.
  repeat match goal with
         | H : bool_decide _ = true |- _ => apply bool_decide_eq_true in H
         end.
  subst W2 M2. exists w1, w2.
  repeat split; try assumption; [by exists W1 | by exists M1].
Qed.

(** C9.  Five nodes on a cycle, two opinion coordinates, weight 1.0,
    visibility [visible], any draws: the network is constructed, written
    to a file and read back into a second network.  The raw weights and
    the mask tensor come back as they were.  The graph does not: the
    network constructed is an undirected graph of five edges with the
    flags [directed] and [symmetric] false, the network read is a directed
    graph of ten arcs with both flags true, because [_read] takes
    [bool( text )] of the texts [True] and [False] alike; and its
    normalized weights, computed while the arcs are being added, are not
    those of the network that was saved. *)
Theorem save_read_turns_cycle_directed (d : nat -> Q) :
  unit_draws d ->
  exists w1 w2,
    SocialNetwork cycle_props (fresh d) = Returns tt w1
    /\ save_and_read w1 = Returns tt w2
    /\ (_graph w1 = Some cycle5 /\ _graph w2 = Some cycle5_read)
    /\ (flag "directed" w1 = Some false /\ flag "directed" w2 = Some true)
    /\ (flag "symmetric" w1 = Some false /\ flag "symmetric" w2 = Some true)
    /\ (normalized w1 = Some normalized_cycle5
        /\ normalized w2 = Some normalized_cycle5_read)
    /\ (exists W, raw_weights w1 = Some W /\ raw_weights w2 = Some W)
    /\ (exists M, mask_tensor w1 = Some M /\ mask_tensor w2 = Some M).
Proof.
  intros Hd. rewrite (cycle_construction d Hd).
  apply round_trip_report_sound. apply round_trip_report_bits.
  by rewrite length_fmap, length_seq.
Qed.

Lemma unit_draws_34_14 : unit_draws draws_34_14.
Proof. intros [|i]; simpl; split; reflexivity || discriminate. Qed.

(** The theorem at work on the draws 3/4, 1/4, 1/4, ... *)
Lemma save_read_turns_cycle_directed_witness :
  unit_draws draws_34_14
  /\ exists w1 w2,
       SocialNetwork cycle_props (fresh draws_34_14) = Returns tt w1
       /\ save_and_read w1 = Returns tt w2
       /\ (_graph w1 = Some cycle5 /\ _graph w2 = Some cycle5_read)
       /\ (flag "directed" w1 = Some false /\ flag "directed" w2 = Some true)
       /\ (flag "symmetric" w1 = Some false /\ flag "symmetric" w2 = Some true)
       /\ (normalized w1 = Some normalized_cycle5
           /\ normalized w2 = Some normalized_cycle5_read)
       /\ (exists W, raw_weights w1 = Some W /\ raw_weights w2 = Some W)
       /\ (exists M, mask_tensor w1 = Some M /\ mask_tensor w2 = Some M).
Proof.
  split; [exact unit_draws_34_14|].
  exact (save_read_turns_cycle_directed draws_34_14 unit_draws_34_14).
Defined.

(** * Further properties *)

(** ** Opinions are signs *)

Lemma drawn_row_length k w : length (drawn_row k w) = k.
Proof. revert w. induction k as [|k IH]; intros w; simpl; [reflexivity|]. by rewrite IH. Qed.

Lemma drawn_row_signs k w x : x ∈ drawn_row k w -> x = 1%Q \/ x = (-1)%Q.
Proof.
  revert w. induction k as [|k IH]; intros w; simpl.
  - intros H. by apply elem_of_nil in H.
  - intros H. apply elem_of_cons in H as [->|H]; [|eauto].
    unfold sign_of_draw. destruct (Qltb _ _); auto.
Qed.

Lemma drawn_rows_length n k w : length (drawn_rows n k w) = n.
Proof. revert w. induction n as [|n IH]; intros w; simpl; [reflexivity|]. by rewrite IH. Qed.

Lemma drawn_rows_rows n k w row :
  row ∈ drawn_rows n k w -> exists w', row = drawn_row k w'.
Proof.
  revert w. induction n as [|n IH]; intros w; simpl.
  - intros H. by apply elem_of_nil in H.
  - intros H. apply elem_of_cons in H as [->|H]; eauto.
Qed.

Lemma entry2_elem {A} (m : list (list A)) i j x :
  entry2 m i j = Some x -> exists row, row ∈ m /\ x ∈ row.
Proof.
  unfold entry2. destruct (m !! i) as [row|] eqn:Hrow; [|discriminate]. simpl.
  intros Hx. exists row. split; eapply list_elem_of_lookup_2; eauto.
Qed.

(** X1.  With a generator whose answers lie in [0, 1),
    [initialize_attribute_space] returns, and the attribute space it stores
    has [n] rows of [dimensions] opinions, each +1 or -1. *)
Theorem initialize_attribute_space_signs (w : World) (n k : nat) :
  _properties w !! "n" = Some (Int (Z.of_nat n)) ->
  _properties w !! "dimensions" = Some (Int (Z.of_nat k)) ->
  unit_draws (draws (rnd w)) ->
  exists w', initialize_attribute_space w = Returns tt w'
    /\ holds (sign_matrix n k) w'.
Proof.
  intros Hn Hk Hd. eexists. split; [by apply initialize_attribute_space_run|].
  unfold holds, with_prop. simpl. eexists. split; [by rewrite lookup_insert_eq|].
  split.
  - split; [apply drawn_rows_length|]. intros row Hrow.
    apply drawn_rows_rows in Hrow as (w' & ->). apply drawn_row_length.
  - intros i j x Hx. apply entry2_elem in Hx as (row & Hrow & Hx).
    apply drawn_rows_rows in Hrow as (w' & ->). eapply drawn_row_signs; eauto.
Qed.

Lemma initialize_attribute_space_signs_witness :
  _properties (cycle_weighted draws_34_14) !! "n" = Some (Int (Z.of_nat 5))
  /\ _properties (cycle_weighted draws_34_14) !! "dimensions" = Some (Int (Z.of_nat 2))
  /\ exists w', initialize_attribute_space (cycle_weighted draws_34_14) = Returns tt w'
       /\ holds (sign_matrix 5 2) w'.
Proof.
  split; [vm_compute; reflexivity|]. split; [vm_compute; reflexivity|].
  apply (initialize_attribute_space_signs (cycle_weighted draws_34_14) 5 2);
    [vm_compute; reflexivity | vm_compute; reflexivity | exact unit_draws_34_14].
Defined.

Lemma setitem2_shape {A} (n k : nat) (m m' : list (list A)) i j x :
  shape2 n k m -> setitem2 m i j x = Some m' -> shape2 n k m'.
Proof.
  intros [Hlen Hrows] H. unfold setitem2 in H.
  destruct (item m i) as [row|] eqn:Hrow; simpl in H; [|discriminate].
  destruct (setitem row j x) as [row'|] eqn:Hrow'; simpl in H; [|discriminate].
  apply item_Some in Hrow as (a & Ha & Hma).
  apply setitem_Some in Hrow' as (b & Hb & ->).
  apply setitem_Some in H as (a' & Ha' & ->).
  split; [by rewrite length_insert|].
  intros r Hr. apply list_elem_of_lookup in Hr as (p & Hp).
  destruct (decide (p = a')) as [->|Hne].
  - rewrite list_lookup_insert_eq in Hp by (eapply np_index_lt; eauto).
    injection Hp as <-. rewrite length_insert. apply Hrows.
    eapply list_elem_of_lookup_2; eauto.
  - rewrite list_lookup_insert_ne in Hp by congruence.
    apply Hrows. eapply list_elem_of_lookup_2; eauto.
Qed.

Lemma item2_entry {A} (m : list (list A)) i j x :
  item2 m i j = Some x -> exists a b, entry2 m a b = Some x.
Proof.
  unfold item2. destruct (item m i) as [row|] eqn:Hrow; [|discriminate]. simpl.
  intros Hx. apply item_Some in Hrow as (a & _ & Ha). apply item_Some in Hx as (b & _ & Hb).
  exists a, b. unfold entry2. by rewrite Ha.
Qed.

Lemma preserves_flip (n k : nat) (i j : Z) :
  preserves (sign_matrix n k)
    (x <- attribute_get i j ;; attribute_set i j (x * -1)%Q).
Proof.
  intros w Hw. pose proof Hw as (A & HA & Hs & Hsig).
  assert (Hop : opinions w = Some A) by (unfold opinions; by rewrite HA).
  unfold attribute_get. unfold bind at 1.
  rewrite (bind_Returns _ _ _ _ _ (attribute_space_run _ _ Hop)).
  destruct (item2 A i j) as [x|] eqn:Hx; simpl; [|exact Hw].
  unfold attribute_set.
  rewrite (bind_Returns _ _ _ _ _ (attribute_space_run _ _ Hop)).
  destruct (setitem2 A i j (x * -1)%Q) as [A'|] eqn:HA'; simpl; [|exact Hw].
  unfold holds. simpl.
  exists A'. split; [by rewrite lookup_insert_eq|].
  split; [eapply setitem2_shape; eauto|].
  apply setitem2_Some in HA' as (a & b & _ & _ & _ & Hent).
  intros i' j' y. rewrite Hent. case_decide; [|apply Hsig].
  intros [= <-]. apply item2_entry in Hx as (a' & b' & Hx).
  destruct (Hsig _ _ _ Hx) as [-> | ->]; [right | left]; reflexivity.
Qed.

Lemma preserves_update_attributes_signs (n k : nat) :
  preserves (sign_matrix n k) update_attributes.
Proof.
  unfold update_attributes.
  repeat first [ apply preserves_flip | preserves_step ].
Qed.

(** X2.  The update phase keeps the attribute space a matrix of [n] rows
    of [k] signs: whatever it flips, and whether it returns or raises,
    every opinion is still +1 or -1 afterwards. *)
Theorem update_attributes_keeps_signs (n k : nat) (w : World) :
  holds (sign_matrix n k) w ->
  holds (sign_matrix n k) (final (update_attributes w)).
Proof. apply preserves_update_attributes_signs. Qed.

Lemma sign_matrix_triangle : holds (sign_matrix 3 1) triangle_world.
Proof.
  exists [[1]; [-1]; [-1]]%Q. split; [vm_compute; reflexivity|].
  split.
  - split; [reflexivity|]. intros row Hrow.
    repeat (apply elem_of_cons in Hrow as [->|Hrow]; [reflexivity|]).
    by apply elem_of_nil in Hrow.
  - intros [|[|[|i]]] [|j] x H; vm_compute in H; try discriminate;
      injection H as <-; auto.
Qed.

Lemma update_attributes_keeps_signs_witness :
  holds (sign_matrix 3 1) triangle_world
  /\ holds (sign_matrix 3 1) (final (update_attributes triangle_world)).
Proof.
  split; [exact sign_matrix_triangle|].
  exact (update_attributes_keeps_signs 3 1 triangle_world sign_matrix_triangle).
Defined.

(** * Strings written to and read from the file *)

Lemma int_base2_pos (bits : list bool) (p : positive) :
  exists q, int_base2 bits (Zpos p) = Zpos q
    /\ forall acc, bin_digits_pos q acc = bin_digits_pos p ((Z.b2z <$> bits) ++ acc).
Proof.
  revert p. induction bits as [|b bits IH]; intros p.
  - exists p. split; reflexivity.
  - simpl int_base2.
    destruct (IH (if b then xI p else xO p)) as (q & Hq & Hd).
    exists q. split.
    + rewrite <- Hq. f_equal. destruct b; reflexivity.
    + intros acc. rewrite Hd. destruct b; reflexivity.
Qed.

Lemma int_of_float_inject (z : Z) : int_of_float (inject_Z z) = z.
Proof. unfold int_of_float. simpl. apply Z.quot_1_r. Qed.

Lemma decode_mask_visible_first (bits : list bool) :
  decode_mask (inject_Z (int_base2 (true :: bits) 0)) = Some (Z.b2z <$> (true :: bits)).
Proof.
  unfold decode_mask. rewrite int_of_float_inject.
  change (int_base2 (true :: bits) 0) with (int_base2 bits 1).
  destruct (int_base2_pos bits 1) as (q & Hq & Hd).
  rewrite Hq. unfold bin_digits.
  rewrite Hd. simpl. by rewrite app_nil_r.
Qed.

(** The number whose binary digits are [bits], decoded: the digits from
    the first 1 on, and the single digit 0 when there is none. *)
Lemma decode_mask_of_bits (bits : list bool) :
  decode_mask (inject_Z (int_base2 bits 0))
  = Some (match visible_suffix bits with
          | [] => [0]
          | l => Z.b2z <$> l
          end).
Proof.
  induction bits as [|[|] bits IH].
  - reflexivity.
  - apply decode_mask_visible_first.
  - exact IH.
Qed.

Lemma append_cons (c : ascii) (a b : string) : String c a +:+ b = String c (a +:+ b).
Proof. reflexivity. Qed.

Lemma append_empty_r (a : string) : a +:+ "" = a.
Proof. induction a as [|x a IH]; [reflexivity|]. by rewrite append_cons, IH. Qed.

Lemma append_associative (a b c : string) : (a +:+ b) +:+ c = a +:+ (b +:+ c).
Proof. induction a as [|x a IH]; [reflexivity|]. by rewrite !append_cons, IH. Qed.

Lemma join_commas_joined (l : list string) (s : string) :
  join_commas Some l s = Some (s +:+ joined l).
Proof.
  revert s. induction l as [|e l IH]; intros s.
  - simpl. by rewrite append_empty_r.
  - cbn [join_commas joined]. simpl mbind. rewrite IH. by rewrite !append_associative.
Qed.

Lemma chop_append (s1 s2 : string) : s2 <> "" -> chop (s1 +:+ s2) = s1 +:+ chop s2.
Proof.
  intros H. induction s1 as [|c s1 IH]; [reflexivity|].
  rewrite !append_cons. cbn [chop]. rewrite IH.
  destruct (s1 +:+ s2) eqn:E; [|reflexivity].
  destruct s1; [change (s2 = "") in E; congruence|discriminate].
Qed.

Lemma split_comma_free (e : string) : comma_free e = true -> split "," e = [e].
Proof.
  induction e as [|c e IH]; [reflexivity|]. cbn [comma_free split]. intros H.
  apply andb_prop in H as [Hc He]. apply negb_true_iff in Hc. rewrite Hc.
  by rewrite (IH He).
Qed.

Lemma split_append (e s : string) :
  comma_free e = true -> split "," (e +:+ "," +:+ s) = e :: split "," s.
Proof.
  induction e as [|c e IH]; [reflexivity|]. cbn [comma_free]. intros H.
  rewrite append_cons. cbn [split].
  apply andb_prop in H as [Hc He]. apply negb_true_iff in Hc. rewrite Hc.
  by rewrite (IH He).
Qed.

Lemma split_chop_joined (e : string) (l : list string) :
  Forall (fun x => comma_free x = true) (e :: l) ->
  split "," (chop (joined (e :: l))) = e :: l.
Proof.
  revert e. induction l as [|e' l IH]; intros e H.
  - apply Forall_cons in H as [He _]. cbn [joined].
    rewrite chop_append by discriminate.
    change (chop ("," +:+ "")) with "". rewrite append_empty_r.
    by apply split_comma_free.
  - apply Forall_cons in H as [He H].
    change (joined (e :: e' :: l)) with (e +:+ "," +:+ joined (e' :: l)).
    rewrite chop_append by discriminate.
    assert (Hne : joined (e' :: l) <> "").
    { cbn [joined]. destruct e'; discriminate. }
    assert (Hc : chop ("," +:+ joined (e' :: l)) = "," +:+ chop (joined (e' :: l))).
    { by apply (chop_append "," (joined (e' :: l))). }
    rewrite Hc. rewrite split_append by exact He.
    by rewrite IH.
Qed.

(** X6.  [types] written by [vector_to_string] and read by [split( ',' )]:
    a list of comma-free strings that is not empty comes back as it was,
    the empty list comes back as the list holding one empty string. *)
Theorem types_round_trip (l : list string) :
  Forall (fun x => comma_free x = true) l ->
  exists s, vector_to_string Some l = Some s
    /\ split "," s = match l with [] => [""] | _ => l end.
Proof.
  intros H. unfold vector_to_string. rewrite join_commas_joined. simpl mbind.
  eexists. split; [reflexivity|].
  destruct l as [|e l]; [reflexivity|]. by apply split_chop_joined.
Qed.

Lemma types_round_trip_witness :
  Forall (fun x => comma_free x = true) ["R"; "S"]
  /\ exists s, vector_to_string Some ["R"; "S"] = Some s /\ split "," s = ["R"; "S"].
Proof.
  assert (H : Forall (fun x => comma_free x = true) ["R"; "S"])
    by (repeat constructor).
  split; [exact H|]. exact (types_round_trip ["R"; "S"] H).
Defined.

(** X7.  The flags [directed] and [symmetric] are written as the text of
    a boolean and read with [bool( text )]: whatever was saved, [True] or
    [False], the flag that is read is [True]. *)
Theorem flags_read_back_true (eval : string -> exn + value) (b : bool) (w : World) :
  exists s, str (Bool b) = Some s
    /\ read_root_attribute eval "directed" s w = Returns tt (with_prop "directed" (Bool true) w)
    /\ read_root_attribute eval "symmetric" s w = Returns tt (with_prop "symmetric" (Bool true) w).
Proof.
  exists (if b then "True" else "False"). split; [reflexivity|].
  destruct b; split; reflexivity.
Qed.

(** ** The masks of a node, written and read *)

Lemma digit_of_char (d : N) : (d < 10)%N -> digit_of (pretty_N_char d) = Some d.
Proof.
  intros H.
  assert (d = 0 \/ d = 1 \/ d = 2 \/ d = 3 \/ d = 4 \/ d = 5
          \/ d = 6 \/ d = 7 \/ d = 8 \/ d = 9)%N as Hd by lia.
  repeat (destruct Hd as [->|Hd]; [reflexivity|]). by subst d.
Qed.

Lemma digits_value_go (x : N) :
  exists p : N, forall s acc,
    digits_value (pretty_N_go x s) acc = digits_value s (acc * p + x)%N.
Proof.
  induction (N.lt_wf_0 x) as [x _ IH].
  destruct (decide (x = 0%N)) as [->|Hx].
  - exists 1%N. intros s acc. rewrite pretty_N_go_0. f_equal. lia.
  - destruct (IH (x `div` 10)%N) as [p Hp]; [apply N.div_lt; lia|].
    exists (p * 10)%N. intros s acc.
    rewrite pretty_N_go_step by lia. rewrite Hp.
    cbn [digits_value]. rewrite digit_of_char by (apply N.mod_lt; lia).
    simpl. f_equal.
    pose proof (N.div_mod x 10 ltac:(lia)). lia.
Qed.

Lemma all_digits_go (x : N) (s : string) :
  all_digits s = true -> all_digits (pretty_N_go x s) = true.
Proof.
  revert s. induction (N.lt_wf_0 x) as [x _ IH]. intros s Hs.
  destruct (decide (x = 0%N)) as [->|Hx]; [by rewrite pretty_N_go_0|].
  rewrite pretty_N_go_step by lia. apply IH; [apply N.div_lt; lia|].
  cbn [all_digits]. rewrite Hs, andb_true_r.
  unfold is_digit. rewrite digit_of_char by (apply N.mod_lt; lia).
  reflexivity.
Qed.

Lemma pretty_N_go_nonempty (x : N) (s : string) :
  s <> "" -> pretty_N_go x s <> "".
Proof.
  revert s. induction (N.lt_wf_0 x) as [x _ IH]. intros s Hs.
  destruct (decide (x = 0%N)) as [->|Hx]; [by rewrite pretty_N_go_0|].
  rewrite pretty_N_go_step by lia. apply IH; [apply N.div_lt; lia|discriminate].
Qed.

(** The decimal text of a natural number: digits only, at least one, and
    reading them gives the number back. *)
Lemma pretty_N_digits (n : N) :
  all_digits (pretty n) = true /\ pretty n <> ""
  /\ digits_value (pretty n) 0 = Some n.
Proof.
  unfold pretty, pretty_N. destruct (decide (n = 0%N)) as [->|Hn].
  - split; [reflexivity|]. split; [discriminate | reflexivity].
  - split; [by apply all_digits_go|]. split.
    + rewrite pretty_N_go_step by lia. apply pretty_N_go_nonempty. discriminate.
    + destruct (digits_value_go n) as [p Hp]. rewrite Hp. simpl. f_equal.
Qed.

Lemma pretty_Z_N (z : Z) : 0 <= z -> pretty z = pretty (Z.to_N z).
Proof. intros H. destruct z as [|p|p]; [reflexivity | reflexivity | lia]. Qed.

Lemma all_digits_char_free (c : ascii) (s : string) :
  is_digit c = false -> all_digits s = true -> char_free c s = true.
Proof.
  intros Hc. induction s as [|c' s IH]; [reflexivity|]. cbn [all_digits char_free].
  intros H. apply andb_true_iff in H as [Hd Hs]. rewrite (IH Hs), andb_true_r.
  apply negb_true_iff. destruct (Ascii.eqb_spec c' c) as [->|]; [congruence | reflexivity].
Qed.

Lemma split_char_free (c : ascii) (e : string) :
  char_free c e = true -> split c e = [e].
Proof.
  induction e as [|c' e IH]; [reflexivity|]. cbn [char_free split]. intros H.
  apply andb_prop in H as [Hc He]. apply negb_true_iff in Hc. rewrite Hc.
  by rewrite (IH He).
Qed.

Lemma split_append_char (c : ascii) (e s : string) :
  char_free c e = true -> split c (e +:+ String c s) = e :: split c s.
Proof.
  induction e as [|c' e IH].
  - intros _. cbn [String.append split]. change ("" +:+ String c s) with (String c s).
    cbn [split]. by rewrite Ascii.eqb_refl.
  - cbn [char_free]. intros H. rewrite append_cons. cbn [split].
    apply andb_prop in H as [Hc He]. apply negb_true_iff in Hc. rewrite Hc.
    by rewrite (IH He).
Qed.

Lemma unsigned_digits (s : string) :
  all_digits s = true -> unsigned s = (false, s).
Proof.
  destruct s as [|c s]; [reflexivity|]. cbn [all_digits]. intros H.
  apply andb_true_iff in H as [Hc _].
  destruct c as [[] [] [] [] [] [] [] []]; try discriminate; reflexivity.
Qed.

Lemma Qred_integer (z : Z) : Qred (inject_Z z + (0 # 1)) = inject_Z z.
Proof.
  unfold Qplus, inject_Z. simpl Qnum. simpl Qden.
  replace (z * 1 + 0 * 1) with z by lia.
  unfold Qred. cbn [Qnum Qden]. change (Z.pos (1 * 1)) with 1.
  pose proof (Z.ggcd_gcd z 1) as Hg.
  pose proof (Z.ggcd_correct_divisors z 1) as Hc.
  destruct (Z.ggcd z 1) as [g [aa bb]]. simpl in Hg, Hc.
  rewrite Z.gcd_1_r in Hg. subst g. destruct Hc as [Ha Hb].
  replace aa with z by lia. replace bb with 1 by lia. reflexivity.
Qed.

(** [float] of the decimal text of a natural number is the number. *)
Lemma float_of_string_pretty (n : N) :
  float_of_string (pretty n) = Parsed (inject_Z (Z.of_N n)).
Proof.
  destruct (pretty_N_digits n) as (Hd & Hne & Hv).
  unfold float_of_string. rewrite (unsigned_digits _ Hd).
  rewrite (split_char_free "." (pretty n)) by (by apply all_digits_char_free).
  rewrite Hv. cbn [digits_value].
  rewrite bool_decide_eq_false_2 by (intros [H _]; contradiction).
  change (Z.of_N 0 # Pos.of_nat (10 ^ String.length "")) with (0 # 1).
  by rewrite Qred_integer.
Qed.

Lemma char_free_append (c : ascii) (a b : string) :
  char_free c (a +:+ b) = char_free c a && char_free c b.
Proof.
  induction a as [|x a IH]; [reflexivity|].
  rewrite append_cons. cbn [char_free]. by rewrite IH, andb_assoc.
Qed.

Lemma split_chop_joined_by (c : ascii) (e : string) (l : list string) :
  Forall (fun x => char_free c x = true) (e :: l) ->
  split c (chop (joined_by c (e :: l))) = e :: l.
Proof.
  revert e. induction l as [|e' l IH]; intros e H.
  - apply Forall_cons in H as [He _]. cbn [joined_by].
    rewrite chop_append by discriminate.
    change (chop (String c "")) with "". rewrite append_empty_r.
    by apply split_char_free.
  - apply Forall_cons in H as [He H].
    change (joined_by c (e :: e' :: l)) with (e +:+ String c (joined_by c (e' :: l))).
    rewrite chop_append by discriminate.
    assert (Hne : joined_by c (e' :: l) <> "").
    { cbn [joined_by]. destruct e'; discriminate. }
    assert (Hc : chop (String c (joined_by c (e' :: l)))
                 = String c (chop (joined_by c (e' :: l)))).
    { cbn [chop]. destruct (joined_by c (e' :: l)); [contradiction | reflexivity]. }
    rewrite Hc. rewrite split_append_char by exact He.
    by rewrite IH.
Qed.

Lemma int_base2_nonneg (bits : list bool) (acc : Z) :
  0 <= acc -> 0 <= int_base2 bits acc.
Proof.
  revert acc. induction bits as [|b bits IH]; intros acc H; [exact H|].
  simpl. apply IH. destruct b; simpl; lia.
Qed.

Lemma float_of_string_pretty_Z (z : Z) :
  0 <= z -> float_of_string (pretty z) = Parsed (inject_Z z).
Proof.
  intros H. rewrite pretty_Z_N by exact H. rewrite float_of_string_pretty.
  by rewrite Z2N.id.
Qed.

Lemma pretty_Z_digits (z : Z) : 0 <= z -> all_digits (pretty z) = true.
Proof. intros H. rewrite pretty_Z_N by exact H. apply pretty_N_digits. Qed.

Lemma mask_text_sharp_free (i : nat) (row : list Q) :
  char_free "#" (mask_text i row) = true.
Proof.
  unfold mask_text. rewrite !char_free_append.
  rewrite (all_digits_char_free "#" (pretty (Z.of_nat i)))
    by (try apply pretty_Z_digits; done || lia).
  rewrite (all_digits_char_free "#" (pretty (int_base2 (row_bits row) 0)))
    by (try apply pretty_Z_digits, int_base2_nonneg; done || lia).
  reflexivity.
Qed.

Lemma string_to_vector_mask_text (i : nat) (row : list Q) :
  string_to_vector (mask_text i row) = Parsed (mask_line i row).
Proof.
  unfold string_to_vector, mask_text.
  change ("," +:+ pretty (int_base2 (row_bits row) 0))
    with (String "," (pretty (int_base2 (row_bits row) 0))).
  rewrite split_append_char
    by (apply all_digits_char_free; [reflexivity | apply pretty_Z_digits; lia]).
  rewrite split_char_free
    by (apply all_digits_char_free;
        [reflexivity | apply pretty_Z_digits, int_base2_nonneg; lia]).
  rewrite bool_decide_eq_false_2 by discriminate.
  cbn [foldr].
  rewrite !float_of_string_pretty_Z by (try apply int_base2_nonneg; lia).
  reflexivity.
Qed.

Lemma encode_mask_fold (rows : list (list Q)) (k : nat) (s : string) :
  foldl (fun s '(i, row) =>
           if negb (existsb (fun x => negb (Qeqb x 0)) row) then s
           else
             let temp := (fun x => negb (Qeqb x 0)) <$> row in
             s +:+ pretty (Z.of_nat i) +:+ "," +:+ pretty (int_base2 temp 0) +:+ "#")
    s (imap (fun i row => ((k + i)%nat, row)) rows)
  = s +:+ joined_by "#" (mask_texts k rows).
Proof.
  revert k s. induction rows as [|row rows IH]; intros k s.
  - simpl. by rewrite append_empty_r.
  - cbn [imap foldl mask_texts].
    rewrite (imap_ext _ (fun i row => ((S k + i)%nat, row)))
      by (intros; unfold compose; simpl; f_equal; lia).
    rewrite IH. rewrite Nat.add_0_r.
    change (existsb (fun x => negb (Qeqb x 0)) row) with (visible_row row).
    change ((fun x : Q => negb (Qeqb x 0)) <$> row) with (row_bits row).
    destruct (visible_row row); cbn [negb].
    + cbn [joined_by]. unfold mask_text. by rewrite !append_associative.
    + reflexivity.
Qed.

Lemma encode_mask_texts (rows : list (list Q)) :
  encode_mask rows = chop (joined_by "#" (mask_texts 0 rows)).
Proof.
  unfold encode_mask.
  rewrite (imap_ext _ (fun i row => ((0 + i)%nat, row))) by reflexivity.
  by rewrite encode_mask_fold.
Qed.

Lemma mask_texts_sharp_free (k : nat) (rows : list (list Q)) :
  Forall (fun x => char_free "#" x = true) (mask_texts k rows).
Proof.
  revert k. induction rows as [|row rows IH]; intros k; simpl; [constructor|].
  destruct (visible_row row); [constructor; [apply mask_text_sharp_free|]|]; apply IH.
Qed.

Lemma mask_texts_vectors (k : nat) (rows : list (list Q)) :
  foldr (fun line acc =>
           match string_to_vector line, acc with
           | Parsed v, Parsed l => Parsed (v :: l)
           | Invalid, _ => Invalid
           | NotCovered, _ => NotCovered
           | _, other => other
           end) (Parsed []) (mask_texts k rows)
  = Parsed (mask_lines k rows).
Proof.
  revert k. induction rows as [|row rows IH]; intros k; simpl; [reflexivity|].
  destruct (visible_row row); [|apply IH].
  cbn [foldr]. by rewrite IH, string_to_vector_mask_text.
Qed.

Lemma mask_lines_pairs (k : nat) (rows : list (list Q)) (line : list Q) :
  line ∈ mask_lines k rows -> length line = 2%nat.
Proof.
  revert k. induction rows as [|row rows IH]; intros k; simpl.
  - intros H. by apply elem_of_nil in H.
  - destruct (visible_row row); [|apply IH].
    intros H. apply elem_of_cons in H as [->|H]; [reflexivity | eauto].
Qed.

(** The block that [encode_mask] writes for a node, read by
    [string_to_matrix]: one line for each row that shows something. *)
Lemma string_to_matrix_encode_mask (rows : list (list Q)) :
  mask_lines 0 rows <> [] ->
  string_to_matrix (encode_mask rows) = Parsed (mask_lines 0 rows).
Proof.
  intros Hne. rewrite encode_mask_texts. unfold string_to_matrix.
  pose proof (mask_texts_sharp_free 0 rows) as Hfree.
  pose proof (mask_texts_vectors 0 rows) as Hvec.
  destruct (mask_texts 0 rows) as [|e l] eqn:Ht.
  - simpl in Hvec. injection Hvec as Hvec. by rewrite <- Hvec in Hne.
  - rewrite split_chop_joined_by by exact Hfree. rewrite Hvec.
    pose proof (mask_lines_pairs 0 rows) as Hlen.
    destruct (mask_lines 0 rows) as [|r rs]; [contradiction|].
    rewrite (proj2 (forallb_forall _ rs)); [reflexivity|].
    intros r' Hr'. apply list_elem_of_In in Hr'.
    rewrite (Hlen r') by (by right). rewrite (Hlen r) by (by left). reflexivity.
Qed.

Lemma mask_lines_nonempty (k : nat) (rows : list (list Q)) (row : list Q) :
  row ∈ rows -> visible_row row = true -> mask_lines k rows <> [].
Proof.
  revert k. induction rows as [|r rows IH]; intros k Hin Hv.
  - by apply elem_of_nil in Hin.
  - simpl. destruct (visible_row r) eqn:Hr; [discriminate|].
    apply elem_of_cons in Hin as [->|Hin]; [congruence | by apply IH].
Qed.

Lemma visible_suffix_nonempty (row : list Q) :
  visible_row row = true -> visible_suffix (row_bits row) <> [].
Proof.
  unfold visible_row, row_bits. induction row as [|x row IH]; [discriminate|].
  simpl. destruct (shows x); [discriminate | exact IH].
Qed.

(** X5.  The masks of a node as [_save] writes them and [_read] reads
    them.  When some row of the block shows something, [string_to_matrix]
    reads from the text of [encode_mask] one line for each row that shows
    something, in order: the index of the row and the number whose binary
    digits mark its visible coordinates.  [decode_mask] makes of that
    number the marks of the row from its first visible coordinate on: a
    row whose first coordinate is visible comes back whole, any other row
    comes back shorter.  The rows have at most 53 coordinates and there
    are at most 2^53 of them, so that every number written is a float
    exactly. *)
Theorem mask_block_read_back (rows : list (list Q)) :
  (exists row, row ∈ rows /\ visible_row row = true) ->
  (forall row, row ∈ rows -> (length row <= 53)%nat) ->
  Z.of_nat (length rows) <= 2 ^ 53 ->
  string_to_matrix (encode_mask rows) = Parsed (mask_lines 0 rows)
  /\ forall row, row ∈ rows -> visible_row row = true ->
       decode_mask (inject_Z (int_base2 (row_bits row) 0))
       = Some (Z.b2z <$> visible_suffix (row_bits row)).
Proof.
  intros (row & Hin & Hv) _ _. split.
  - apply string_to_matrix_encode_mask. by apply (mask_lines_nonempty 0 rows row).
  - intros r _ Hr. rewrite decode_mask_of_bits.
    pose proof (visible_suffix_nonempty r Hr) as Hne.
    by destruct (visible_suffix (row_bits r)).
Qed.

Lemma mask_block_read_back_witness :
  string_to_matrix (encode_mask [[0; 1]; [0; 0]; [-1; 1]]%Q)
  = Parsed (mask_lines 0 [[0; 1]; [0; 0]; [-1; 1]]%Q)
  /\ forall row, row ∈ [[0; 1]; [0; 0]; [-1; 1]]%Q -> visible_row row = true ->
       decode_mask (inject_Z (int_base2 (row_bits row) 0))
       = Some (Z.b2z <$> visible_suffix (row_bits row)).
Proof.
  apply (mask_block_read_back [[0; 1]; [0; 0]; [-1; 1]]%Q).
  - exists [0; 1]%Q. split; [left | reflexivity].
  - intros row Hrow.
    repeat (apply elem_of_cons in Hrow as [->|Hrow]; [simpl; lia|]).
    by apply elem_of_nil in Hrow.
  - vm_compute. discriminate.
Defined.
(** * Single operations *)

Lemma setitem_again {A} (l l' : list A) i x :
  setitem l i x = Some l' -> setitem l' i x = Some l'.
Proof.
  intros H. apply setitem_Some in H as (j & Hj & ->).
  unfold setitem. rewrite length_insert, Hj. simpl.
  by rewrite list_insert_insert_eq.
Qed.

Lemma setitem2_again {A} (m m' : list (list A)) i j x :
  setitem2 m i j x = Some m' -> setitem2 m' i j x = Some m'.
Proof.
  unfold setitem2. intros H.
  destruct (item m i) as [row|]; simpl in H; [|discriminate].
  destruct (setitem row j x) as [row'|] eqn:Hrow; simpl in H; [|discriminate].
  rewrite (item_setitem_same _ _ _ _ H). simpl.
  rewrite (setitem_again _ _ _ _ Hrow). simpl.
  eapply setitem_again; eauto.
Qed.

Lemma setitem3_again {A} (t t' : list (list (list A))) i j k x :
  setitem3 t i j k x = Some t' -> setitem3 t' i j k x = Some t'.
Proof.
  unfold setitem3. intros H.
  destruct (item t i) as [m|]; simpl in H; [|discriminate].
  destruct (setitem2 m j k x) as [m'|] eqn:Hm; simpl in H; [|discriminate].
  rewrite (item_setitem_same _ _ _ _ H). simpl.
  rewrite (setitem2_again _ _ _ _ _ Hm). simpl.
  eapply setitem_again; eauto.
Qed.

Lemma masks_set_Returns_inv w w' i j k x :
  masks_set i j k x w = Returns tt w' ->
  exists M M', mask_tensor w = Some M /\ setitem3 M i j k x = Some M'
    /\ w' = with_prop "masks" (Array3 M') w.
Proof.
  unfold masks_set, masks. intros H.
  apply bind_Returns_inv in H as (M & w1 & HM & H).
  apply bind_Returns_inv in HM as (v & w2 & Hv & HM).
  unfold prop in Hv. destruct (_properties w !! "masks") as [v'|] eqn:Hp; [|discriminate].
  injection Hv as <- <-.
  destruct v'; try discriminate. injection HM as <- <-.
  apply bind_Returns_inv in H as (M' & w3 & HM' & H).
  apply orraise_Returns_inv in HM' as (HM' & ->).
  injection H as <-.
  exists t, M'. split; [unfold mask_tensor; by rewrite Hp|]. split; [exact HM'|reflexivity].
Qed.

(** X3.  Hiding is idempotent: when [hide( u, v, k )] returns, hiding the
    same coordinate again returns and changes nothing. *)
Theorem hide_idempotent (w w1 : World) (u v k : Z) :
  hide u v k w = Returns tt w1 -> hide u v k w1 = Returns tt w1.
Proof.
  unfold hide. intros H.
  apply masks_set_Returns_inv in H as (M & M' & HM & Hset & ->).
  rewrite (masks_set_run _ M' M' v u k 0%Q (mask_tensor_with_prop _ _)
             (setitem3_again _ _ _ _ _ _ Hset)).
  unfold with_prop. simpl. by rewrite insert_insert_eq.
Qed.

Lemma hide_idempotent_witness :
  hide 0 1 0 pair_world = Returns tt (final (hide 0 1 0 pair_world))
  /\ hide 0 1 0 (final (hide 0 1 0 pair_world))
     = Returns tt (final (hide 0 1 0 pair_world)).
Proof.
  assert (H : hide 0 1 0 pair_world = Returns tt (final (hide 0 1 0 pair_world)))
    by (vm_compute; reflexivity).
  split; [exact H|]. exact (hide_idempotent _ _ 0 1 0 H).
Defined.

(** X4.  Under visibility [random], [connect( u, v )] between two
    different nodes raises KeyError (the graph has no attribute [k]) after
    it has added the edge and written the weight [W[u][v]]: the masks and
    the normalized weights are left as they were. *)
Theorem connect_random_visibility_raises
    (w : World) (u v : Z) (g : graph) (x : Q) (W W' : list (list Q)) :
  u <> v ->
  _graph w = Some g ->
  _properties w !! "weight" = Some (Float x) ->
  _properties w !! "visibility" = Some (Str "random") ->
  raw_weights w = Some W ->
  setitem2 W u v x = Some W' ->
  connect u v w
  = Raises KeyError
      (mkWorld (<["weights" := Array2 W']> (_properties w))
         (Some (nx.add_edge g u v)) (rnd w) (files w)).
Proof.
  intros Huv Hg Hx Hvis HW HW'. unfold connect.
  apply Z.eqb_neq in Huv. rewrite Huv.
  set (w1 := mkWorld (_properties w) (Some (nx.add_edge g u v)) (rnd w) (files w)).
  rewrite (bind_Returns _ _ w g w) by (unfold the_graph; by rewrite Hg).
  rewrite (bind_Returns _ _ w tt w1) by reflexivity.
  rewrite (bind_Returns _ _ w1 _ w1 (prop_run w1 _ _ Hx)).
  set (w2 := mkWorld (<["weights" := Array2 W']> (_properties w))
               (Some (nx.add_edge g u v)) (rnd w) (files w)).
  rewrite (bind_Returns _ _ w1 tt w2); cycle 1.
  { change (is_str (Float x) "random") with false. cbv iota.
    rewrite (bind_Returns _ _ w1 _ w1 (prop_run w1 _ _ Hx)).
    rewrite (bind_Returns _ _ w1 x w1) by reflexivity.
    unfold weights_set.
    rewrite (bind_Returns _ _ w1 W w1) by (by apply weights_run).
    rewrite HW'. reflexivity. }
  assert (Hvis2 : _properties w2 !! "visibility" = Some (Str "random"))
    by (unfold w2; simpl; by rewrite lookup_insert_ne).
  rewrite (bind_Returns _ _ w2 _ w2 (prop_run w2 _ _ Hvis2)).
  apply bind_Raises. change (is_str (Str "random") "visible") with false. cbv iota.
  rewrite (bind_Returns _ _ w2 _ w2 (prop_run w2 _ _ Hvis2)).
  change (is_str (Str "random") "random") with true. cbv iota.
  apply bind_Raises. reflexivity.
Qed.

Lemma connect_random_visibility_raises_witness :
  connect 0 1 random_world
  = Raises KeyError
      (mkWorld (<["weights" := Array2 [[1; 1; 0]; [0; 1; 0]; [0; 0; 1]]%Q]>
                  (_properties random_world))
         (Some (nx.add_edge (mkGraph false [0; 1; 2] []) 0 1))
         (rnd random_world) (files random_world)).
Proof.
  apply (connect_random_visibility_raises random_world 0 1
           (mkGraph false [0; 1; 2] []) 1%Q
           [[1; 0; 0]; [0; 1; 0]; [0; 0; 1]]%Q);
    [lia | vm_compute; reflexivity ..].
Defined.
(** * The step *)

Section Footprint.
Variable I : gmap string value -> option graph -> Prop.
Hypothesis Hw : ignores_key I "weights".
Hypothesis Hn : ignores_key I "normalized_weights".
Hypothesis Hm : ignores_key I "masks".
Hypothesis Ha : ignores_key I "attribute_space".
Hypothesis Hg : ignores_graph I.

Lemma footprint_graph_attribute key : preserves I (graph_attribute key).
Proof. unfold graph_attribute. preserves_auto. Qed.

Lemma footprint_connect u v : preserves I (connect u v).
Proof. unfold connect. repeat first [apply footprint_graph_attribute | preserves_step]. Qed.

Lemma footprint_disconnect u v : preserves I (disconnect u v).
Proof. unfold disconnect. preserves_auto. Qed.

Lemma footprint_act : preserves I act.
Proof. unfold act. repeat first [apply footprint_disconnect | preserves_step]. Qed.

Lemma footprint_network_effects set_order : preserves I (network_effects set_order).
Proof. unfold network_effects. repeat first [apply footprint_connect | preserves_step]. Qed.

Lemma footprint_step set_order : preserves I (step set_order).
Proof.
  unfold step.
  apply preserves_bind; [apply preserves_update_attributes; exact Ha | intros _].
  apply preserves_bind; [apply footprint_act | intros _].
  apply footprint_network_effects.
Qed.
End Footprint.

(** X8.  A step writes no entry of the properties other than the
    attribute space, the raw and normalized weights and the masks: every
    other entry ([n], [types], [resistance], the probabilities, ...) is, in
    the state the step ends in, what it was before, whether the step
    returns or raises. *)
Theorem step_footprint (set_order : list Z -> list Z) (w : World) (key : string) :
  key ∉ step_writes ->
  _properties (final (step set_order w)) !! key = _properties w !! key.
Proof.
  intros Hkey.
  pose (I := fun (P : gmap string value) (G : option graph) =>
               P !! key = _properties w !! key).
  assert (Hk : forall k, k ∈ step_writes -> ignores_key I k).
  { intros k Hin P G v HP. unfold I. rewrite lookup_insert_ne; [exact HP|].
    intros ->. by apply Hkey. }
  apply (footprint_step I); try (apply Hk; unfold step_writes; set_solver).
  - intros P G G' HP. exact HP.
  - reflexivity.
Qed.

Lemma step_footprint_witness :
("types" ∉ step_writes)
  /\ _properties (final (step (fun l => l) triangle_world)) !! "types"
     = _properties triangle_world !! "types".
Proof.
  assert (H : "types" ∉ step_writes).
  { unfold step_writes. intros H.
    repeat (apply elem_of_cons in H as [H|H]; [discriminate|]).
    by apply elem_of_nil in H. }
  split; [exact H|]. exact (step_footprint (fun l => l) triangle_world "types" H).
Defined.

Lemma range_pos (n : Z) : 0 < n -> exists l, range n = 0 :: l.
Proof.
  intros H. unfold range. destruct (Z.to_nat n) as [|k] eqn:E; [lia|].
  simpl. eauto.
Qed.

Lemma candidates_run (n : Z) (w : World) :
  for_acc (range 5) [] (fun acc _ =>
      r <- random ;; ret (acc ++ [int_of_float (r * inject_Z n)])%list) w
  = Returns (candidates n w) (advance_by 5 w).
Proof. reflexivity. Qed.

(** X9.  [_validate_input] gives [friend] no default.  On a network
    with at least one node and no entry [friend], [network_effects] draws
    the five candidates of node 0 and one more number and raises KeyError,
    having changed nothing but the position of the generator. *)
Theorem network_effects_without_friend
    (set_order : list Z -> list Z) (w : World) (n : Z) :
  _properties w !! "n" = Some (Int n) ->
  0 < n ->
  _properties w !! "friend" = None ->
  set_order (candidates n w) <> [] ->
  network_effects set_order w = Raises KeyError (advance_by 6 w).
Proof.
  intros Hn Hpos Hf Hc. unfold network_effects.
  rewrite (bind_Returns _ _ w _ w (prop_run w _ _ Hn)).
  rewrite (bind_Returns _ _ w n w) by reflexivity.
  destruct (range_pos n Hpos) as [l ->]. cbn [for_].
  apply bind_Raises.
  rewrite (bind_Returns _ _ w _ _ (candidates_run n w)).
  destruct (set_order (candidates n w)) as [|c rest]; [congruence|].
  cbn [for_]. apply bind_Raises.
  rewrite (bind_Returns _ _ _ (draws (rnd w) (5 + cursor (rnd w)))%nat (advance_by 6 w))
    by reflexivity.
  apply bind_Raises. unfold prop.
  replace (_properties (advance_by 6 w)) with (_properties w) by reflexivity.
  by rewrite Hf.
Qed.

Lemma network_effects_without_friend_witness :
  network_effects (fun l => l) pair_world = Raises KeyError (advance_by 6 pair_world).
Proof.
  apply (network_effects_without_friend (fun l => l) pair_world 2);
    [vm_compute; reflexivity | lia | vm_compute; reflexivity | vm_compute; discriminate].
Defined.

Lemma range_split (n i : Z) :
  0 <= i < n -> exists l, range n = (range i ++ i :: l)%list.
Proof.
  intros H. unfold range.
  replace (Z.to_nat n) with (Z.to_nat i + S (Z.to_nat n - Z.to_nat i - 1))%nat by lia.
  rewrite seq_app, fmap_app. cbn [seq fmap list_fmap]. simpl.
  rewrite Z2Nat.id by lia. eauto.
Qed.

Lemma for_skip {A} (l1 l2 : list A) (body : A -> Py unit) (w : World) :
  (forall x, x ∈ l1 -> body x w = Returns tt w) ->
  for_ (l1 ++ l2)%list body w = for_ l2 body w.
Proof.
  induction l1 as [|x l1 IH]; intros H; [reflexivity|].
  cbn [app for_]. rewrite (bind_Returns _ _ w tt w) by (apply H; left).
  apply IH. intros y Hy. apply H. by right.
Qed.

(** X10.  [_validate_input] gives [unfriend_threshold] no default.
    Without that entry [act] raises KeyError at the first node that has a
    neighbour, once the reward for that neighbour has been computed, and
    leaves the state as it was. *)
Theorem act_without_unfriend_threshold
    (w : World) (n i nbr : Z) (rest : list Z) (r : option Q) :
  _properties w !! "n" = Some (Int n) ->
  0 <= i < n ->
  (forall j, 0 <= j < i -> get_neighbors j w = Returns [] w) ->
  get_neighbors i w = Returns (nbr :: rest) w ->
  get_reward_for_neighbor i nbr w = Returns r w ->
  _properties w !! "unfriend_threshold" = None ->
  act w = Raises KeyError w.
Proof.
  intros Hn Hi Hbefore Hnbrs Hr Ht. unfold act.
  rewrite (bind_Returns _ _ w _ w (prop_run w _ _ Hn)).
  rewrite (bind_Returns _ _ w n w) by reflexivity.
  destruct (range_split n i Hi) as [l ->].
  rewrite for_skip.
  - cbn [for_]. apply bind_Raises.
    rewrite (bind_Returns _ _ w _ w Hnbrs).
    cbn [for_]. apply bind_Raises.
    rewrite (bind_Returns _ _ w _ w Hr).
    apply bind_Raises. unfold prop. by rewrite Ht.
  - intros j Hj. apply elem_of_range in Hj.
    by rewrite (bind_Returns _ _ w _ w (Hbefore j Hj)).
Qed.

Lemma act_without_unfriend_threshold_witness :
  act triangle_world = Raises KeyError triangle_world.
Proof.
  apply (act_without_unfriend_threshold triangle_world 3 0 1 [2] (Some 0%Q));
    [vm_compute; reflexivity | lia | lia | vm_compute; reflexivity ..].
Defined.
